(** * apple-metal-hud: the device manager of [src/index.ts]

    A shallow embedding of the [DeviceManager] class: the text parsers
    (tabular and legacy device listings, process listings), the two numbered
    menus and the launch precondition, followed by the properties the
    specification states about them.

    Strings.  A JavaScript string is a sequence of UTF-16 code units; here a
    string is a list of code units, each an [N].  All the constants of the
    program are ASCII and are written with [lit]. *)

From Stdlib Require Import String Ascii.
From Stdlib Require Import NArith ZArith Lia Bool Arith List.
Import ListNotations.

Set Implicit Arguments.

(* ===================================================================== *)
(** ** JavaScript string primitives used by the program                   *)
(* ===================================================================== *)

Module Js.

Definition char := N.
Definition str := list char.

Definition ch (a : ascii) : char := N_of_ascii a.
Definition lit (s : string) : str := map N_of_ascii (list_ascii_of_string s).

(** The line feed, the separator of [split("\n")]. *)
Definition newline : char := 10%N.

(** [a === b] on strings. *)
Definition str_eqb (a b : str) : bool :=
  if list_eq_dec N.eq_dec a b then true else false.

(** ECMAScript LineTerminator: LF, CR, LS, PS. *)
Definition is_line_terminator (c : char) : bool :=
  ((c =? 10) || (c =? 13) || (c =? 8232) || (c =? 8233))%N.

(** ECMAScript WhiteSpace (TAB, VT, FF, SP, NBSP, ZWNBSP and the Unicode
    space separators) together with LineTerminator: the characters removed by
    [String.prototype.trim] and matched by the escape \s. *)
Definition is_white (c : char) : bool :=
  ((c =? 9) || (c =? 11) || (c =? 12) || (c =? 32) || (c =? 160)
   || (c =? 5760) || ((8192 <=? c) && (c <=? 8202)) || (c =? 8239)
   || (c =? 8287) || (c =? 12288) || (c =? 65279)
   || is_line_terminator c)%N.

Fixpoint drop_white (s : str) : str :=
  match s with
  | c :: s' => if is_white c then drop_white s' else s
  | [] => []
  end.

(** [s.trim()] *)
Definition trim (s : str) : str := rev (drop_white (rev (drop_white s))).

Fixpoint starts_with (p s : str) : bool :=
  match p, s with
  | [], _ => true
  | a :: p', b :: s' => (a =? b)%N && starts_with p' s'
  | _ :: _, [] => false
  end.

(** [s.indexOf(p)], scanning from position [i]; -1 when [p] does not occur. *)
Fixpoint indexOf_from (p s : str) (i : Z) : Z :=
  if starts_with p s then i
  else match s with
       | [] => (-1)%Z
       | _ :: s' => indexOf_from p s' (i + 1)%Z
       end.

Definition indexOf (s p : str) : Z := indexOf_from p s 0%Z.

(** [s.includes(p)] *)
Fixpoint includes (s p : str) : bool :=
  starts_with p s
  || match s with
     | [] => false
     | _ :: s' => includes s' p
     end.

(** [s.substring(a, b)] for integer arguments: both are clamped to the
    interval from 0 to the length, and exchanged when the first exceeds the
    second. *)
Definition clamp (len : nat) (a : Z) : nat := Nat.min (Z.to_nat a) len.

Definition substring (s : str) (a b : Z) : str :=
  let a' := clamp (length s) a in
  let b' := clamp (length s) b in
  firstn (Nat.max a' b' - Nat.min a' b') (skipn (Nat.min a' b') s).

(** [s.substring(a)] *)
Definition substring_from (s : str) (a : Z) : str :=
  substring s a (Z.of_nat (length s)).

(** [s.split(sep)] for a one-character separator; never an empty array. *)
Fixpoint split (sep : char) (s : str) : list str :=
  match s with
  | [] => [[]]
  | c :: s' =>
      if (c =? sep)%N then [] :: split sep s'
      else match split sep s' with
           | l :: ls => (c :: l) :: ls
           | [] => [[c]]
           end
  end.

(** Truthiness of a string value: only the empty string is falsy. *)
Definition truthy (s : str) : bool :=
  match s with [] => false | _ :: _ => true end.

(** Truthiness of an optional property: [undefined] is falsy too. *)
Definition truthy_opt (o : option str) : bool :=
  match o with Some s => truthy s | None => false end.

(** *** [parseInt(s)] with no radix

    Leading white space is skipped, one sign is read, a prefix 0x or 0X
    selects radix 16, then the longest run of digits of the radix is read and
    whatever follows is ignored.  No digit at all gives NaN, here [None].
    The result is kept as an exact integer: the program only compares it with
    1 and with an array length, and rounding to a double is monotone and
    leaves every array length unchanged, so these comparisons agree. *)

Definition digit_value (radix : N) (c : char) : option N :=
  let v :=
    if ((48 <=? c) && (c <=? 57))%N then Some (c - 48)%N
    else if ((97 <=? c) && (c <=? 122))%N then Some (c - 87)%N
    else if ((65 <=? c) && (c <=? 90))%N then Some (c - 55)%N
    else None in
  match v with
  | Some d => if (d <? radix)%N then Some d else None
  | None => None
  end.

(** Reads the longest digit prefix; [seen] tells whether a digit was read. *)
Fixpoint read_digits (radix : N) (s : str) (acc : N) (seen : bool)
  : option N :=
  match s with
  | c :: s' =>
      match digit_value radix c with
      | Some d => read_digits radix s' (acc * radix + d)%N true
      | None => if seen then Some acc else None
      end
  | [] => if seen then Some acc else None
  end.

Definition parseInt (input : str) : option Z :=
  let s := drop_white input in
  let '(negative, s1) :=
    match s with
    | c :: s' =>
        if (c =? 45)%N then (true, s')
        else if (c =? 43)%N then (false, s')
        else (false, s)
    | [] => (false, s)
    end in
  let '(radix, s2) :=
    match s1 with
    | z :: x :: s' =>
        if ((z =? 48) && ((x =? 120) || (x =? 88)))%N then (16%N, s')
        else (10%N, s1)
    | _ => (10%N, s1)
    end in
  match read_digits radix s2 0%N false with
  | Some n => Some (if negative then (- Z.of_N n)%Z else Z.of_N n)
  | None => None
  end.

(** Decimal rendering of a natural number, as a template literal renders an
    array index or length. *)
Fixpoint decimal_aux (fuel n : nat) (acc : str) : str :=
  match fuel with
  | 0 => acc
  | S fuel' =>
      let acc' := (48 + N.of_nat (n mod 10))%N :: acc in
      if n / 10 =? 0 then acc' else decimal_aux fuel' (n / 10) acc'
  end.

Definition decimal (n : nat) : str := decimal_aux (S n) n [].

End Js.

(* ===================================================================== *)
(** ** Regular expressions                                                *)
(* ===================================================================== *)

(** The expressions of the program are sequences of single characters,
    classes and escapes, each possibly under a greedy [*] or [+], with
    capture groups that are not nested and an optional [^].  The matcher below
    is the backtracking matcher of ECMAScript restricted to that fragment:
    a quantified atom first takes as many characters as it can and gives
    them back one at a time while the rest of the pattern fails. *)

Module Regex.
Import Js.

Inductive atom : Type :=
| Lit (c : char)                              (* a pattern character *)
| Class (negated : bool) (ranges : list (char * char))   (* [a-c] or [^a-c] *)
| Dot                                         (* .  *)
| Space                                       (* \s *)
| Digit.                                      (* \d *)

Inductive node : Type :=
| One (a : atom)
| Star (a : atom)
| Plus (a : atom)
| Open                                        (* (  *)
| Close                                       (* )  *)
| Bol.                                        (* ^  *)

Record regex : Type := { body : list node; ignoreCase : bool }.

(** Canonicalize of the i flag without the u flag.  A code unit of 128 or
    more never canonicalizes to one below 128, and every pattern character
    of the program is below 128, so only the ASCII letters matter. *)
Definition upper (c : char) : char :=
  if ((97 <=? c) && (c <=? 122))%N then (c - 32)%N else c.
Definition lower (c : char) : char :=
  if ((65 <=? c) && (c <=? 90))%N then (c + 32)%N else c.

Definition in_ranges (rs : list (char * char)) (c : char) : bool :=
  existsb (fun r => ((fst r <=? c) && (c <=? snd r))%N) rs.

Definition atom_matches (ic : bool) (a : atom) (c : char) : bool :=
  match a with
  | Lit p => if ic then (upper c =? upper p)%N else (c =? p)%N
  | Class negated rs =>
      let found :=
        if ic then in_ranges rs c || in_ranges rs (upper c)
                   || in_ranges rs (lower c)
        else in_ranges rs c in
      if negated then negb found else found
  | Dot => negb (is_line_terminator c)
  | Space => is_white c
  | Digit => ((48 <=? c) && (c <=? 57))%N
  end.

Section Matcher.
Variable R : Type.

(** Greedy repetition of a character test [p] at position [i] of the input,
    [s] being what is left of it; [k] is the rest of the pattern. *)
Fixpoint greedy (p : char -> bool) (k : str -> Z -> option R)
         (s : str) (i : Z) : option R :=
  match s with
  | c :: s' =>
      if p c then
        match greedy p k s' (i + 1)%Z with
        | Some r => Some r
        | None => k s i
        end
      else k s i
  | [] => k [] i
  end.
End Matcher.

(** A successful match: the positions of the group boundaries met, latest
    first, and the position where the match ends. *)
Definition outcome : Type := (list Z * Z)%type.

Fixpoint run (ic : bool) (r : list node) (s : str) (i : Z)
         (marks : list Z) : option outcome :=
  match r with
  | [] => Some (marks, i)
  | One a :: r' =>
      match s with
      | c :: s' =>
          if atom_matches ic a c then run ic r' s' (i + 1)%Z marks else None
      | [] => None
      end
  | Star a :: r' =>
      greedy (atom_matches ic a) (fun s1 i1 => run ic r' s1 i1 marks) s i
  | Plus a :: r' =>
      match s with
      | c :: s' =>
          if atom_matches ic a c then
            greedy (atom_matches ic a) (fun s1 i1 => run ic r' s1 i1 marks)
                   s' (i + 1)%Z
          else None
      | [] => None
      end
  | Open :: r' => run ic r' s i (i :: marks)
  | Close :: r' => run ic r' s i (i :: marks)
  | Bol :: r' => if (i =? 0)%Z then run ic r' s i marks else None
  end.

(** The search of [RegExp.prototype.exec] without the g flag: the first
    start position, from the left, at which the pattern matches. *)
Fixpoint exec_from (ic : bool) (r : list node) (s : str) (i : Z)
  : option (Z * outcome) :=
  match run ic r s i [] with
  | Some o => Some (i, o)
  | None =>
      match s with
      | [] => None
      | _ :: s' => exec_from ic r s' (i + 1)%Z
      end
  end.

(** Captures from the boundary positions, oldest first. *)
Fixpoint groups (input : str) (marks : list Z) : list str :=
  match marks with
  | o :: c :: rest => substring input o c :: groups input rest
  | _ => []
  end.

(** [s.match(re)]: the match array, [m[0]] the whole match and [m[n]] the
    n-th group, or [None] for null. *)
Definition match_ (s : str) (re : regex) : option (list str) :=
  match exec_from (ignoreCase re) (body re) s 0%Z with
  | Some (start, (marks, stop)) =>
      Some (substring s start stop :: groups s (rev marks))
  | None => None
  end.

(** [m[n]] of a match array. *)
Definition group (m : list str) (n : nat) : str := nth n m [].

(** A run of pattern characters. *)
Definition lits (s : string) : list node := map (fun c => One (Lit c)) (lit s).

End Regex.

(* ===================================================================== *)
(** ** Effects                                                            *)
(* ===================================================================== *)

(** The methods that talk to the outside world are programs over four
    operations: writing a line to the console, running a shell command with
    [execSync], asking one question on the terminal with [rl.question], and
    throwing.  A rejected promise is a thrown error, a resolved one a
    returned value; the program awaits each call before the next.

    Console text: the fixed part of a message is left out and the values
    interpolated into it are kept, in order. *)

Module Effects.
Import Js.

(** The errors the program throws.  [ExecFailure] is the error of a failed
    [execSync], carried with its [message]. *)
Inductive error : Type :=
| NoDeviceToSelect            (* no device that can be selected *)
| NoApplicationToSelect       (* no application that can be selected *)
| InvalidSelection (count : nat)
                              (* wrong selection, enter a number from 1 to count *)
| MissingFullPath             (* the full path of the application is not found *)
| ExecFailure (message : str).

Inductive console : Type := Stdout | Stderr.

(** What [execSync] gives back: the captured output, or a thrown error. *)
Inductive exec_result : Type :=
| Output (text : str)
| Failed (message : str).

Inductive io (A : Type) : Type :=
| Return (a : A)
| Throw (e : error)
| Print (c : console) (values : list str) (k : io A)
| ExecSync (command : str) (k : exec_result -> io A)
| Question (values : list str) (k : str -> io A).

Arguments Return {A} a.
Arguments Throw {A} e.
Arguments Print {A} c values k.
Arguments ExecSync {A} command k.
Arguments Question {A} values k.

Inductive event : Type :=
| Printed (c : console) (values : list str)
| Executed (command : str)
| Asked (values : list str).

(** The outside world: what each command produces and what the user types at
    the n-th question. *)
Record world : Type := {
  shell : str -> exec_result;
  typed : nat -> str
}.

Fixpoint perform {A : Type} (w : world) (asked : nat) (p : io A)
  : list event * (error + A) :=
  match p with
  | Return a => ([], inr a)
  | Throw e => ([], inl e)
  | Print c values k =>
      let '(t, r) := perform w asked k in (Printed c values :: t, r)
  | ExecSync command k =>
      let '(t, r) := perform w asked (k (shell w command)) in
      (Executed command :: t, r)
  | Question values k =>
      let '(t, r) := perform w (S asked) (k (typed w asked)) in
      (Asked values :: t, r)
  end.

Definition is_exec (e : event) : bool :=
  match e with Executed _ => true | _ => false end.
Definition is_question (e : event) : bool :=
  match e with Asked _ => true | _ => false end.

(** Number of shell commands run, and of questions asked, along a trace. *)
Definition executions (t : list event) : nat := length (filter is_exec t).
Definition questions (t : list event) : nat := length (filter is_question t).

(** [console.log] of one line for each element, [forEach] style. *)
Fixpoint print_each {A B : Type} (f : nat -> B -> list (list str))
         (l : list B) (index : nat) (k : io A) : io A :=
  match l with
  | [] => k
  | x :: l' =>
      fold_right (fun values k' => Print Stdout values k')
                 (print_each f l' (S index) k) (f index x)
  end.

(** [const a = await p; ...]: the rest of an async function after a call
    that may throw. *)
Fixpoint bind {A B : Type} (p : io A) (f : A -> io B) : io B :=
  match p with
  | Return a => f a
  | Throw e => Throw e
  | Print c values k => Print c values (bind k f)
  | ExecSync command k => ExecSync command (fun r => bind (k r) f)
  | Question values k => Question values (fun answer => bind (k answer) f)
  end.

(** [try { p } catch (error) { h error }] *)
Fixpoint try_catch {A : Type} (p : io A) (h : error -> io A) : io A :=
  match p with
  | Return a => Return a
  | Throw e => h e
  | Print c values k => Print c values (try_catch k h)
  | ExecSync command k => ExecSync command (fun r => try_catch (k r) h)
  | Question values k =>
      Question values (fun answer => try_catch (k answer) h)
  end.

End Effects.

(* ===================================================================== *)
(** ** class DeviceManager                                                *)
(* ===================================================================== *)

Module DeviceManager.
Import Js Regex Effects.

(** [interface DeviceInfo].  The legacy parser builds its records as
    [Partial<DeviceInfo>] and casts them, so at run time every property may be
    absent; an absent or [undefined] property is [None]. *)
Record DeviceInfo : Type := {
  identifier : option str;
  name : option str;
  platform : option str;
  connectionType : option str
}.

(** [interface ApplicationInfo] *)
Record ApplicationInfo : Type := {
  bundleId : str;
  displayName : option str;
  pid : option str;
  fullPath : option str
}.

(** [a || b] on an optional string. *)
Definition or_else (o : option str) (d : str) : str :=
  match o with
  | Some s => if truthy s then s else d
  | None => d
  end.

(** How a template literal renders an optional string. *)
Definition show (o : option str) : str :=
  match o with Some s => s | None => lit "undefined" end.

(** *** parseApplicationOutput *)

(** /Bundle\/Application\/([^\/]+)\/([^\/]+\.app)/ *)
Definition bundleRegex : regex :=
  {| body := lits "Bundle/Application/"
             ++ [Open; Plus (Class true [(ch "/", ch "/")]); Close]
             ++ lits "/"
             ++ [Open; Plus (Class true [(ch "/", ch "/")])]
             ++ lits ".app" ++ [Close];
     ignoreCase := false |}.

(** /(\/private\/var\/containers\/Bundle\/Application\/[^\/]+\/[^\/]+\.app)/ *)
Definition pathRegex : regex :=
  {| body := [Open]
             ++ lits "/private/var/containers/Bundle/Application/"
             ++ [Plus (Class true [(ch "/", ch "/")])]
             ++ lits "/"
             ++ [Plus (Class true [(ch "/", ch "/")])]
             ++ lits ".app" ++ [Close];
     ignoreCase := false |}.

(** /^\s*(\d+)/ *)
Definition pidRegex : regex :=
  {| body := [Bol; Star Space; Open; Plus Digit; Close];
     ignoreCase := false |}.

(** [applications.find((app) => app.bundleId === bundleId)], as a test. *)
Definition find_bundle (applications : list ApplicationInfo) (b : str)
  : bool :=
  existsb (fun app => str_eqb (bundleId app) b) applications.

(** The body of the loop over the lines. *)
Definition application_step (applications : list ApplicationInfo)
           (line : str) : list ApplicationInfo :=
  let trimmedLine := trim line in
  if negb (truthy trimmedLine) then applications
  else
    match match_ trimmedLine bundleRegex with
    | Some bundleMatch =>
        let bundleId := group bundleMatch 1 in
        let appName := group bundleMatch 2 in
        let fullPath :=
          match match_ trimmedLine pathRegex with
          | Some pathMatch => Some (group pathMatch 1)
          | None => None
          end in
        let pid :=
          match match_ trimmedLine pidRegex with
          | Some pidMatch => Some (group pidMatch 1)
          | None => None
          end in
        if negb (find_bundle applications bundleId) then
          applications ++ [ {| bundleId := bundleId;
                               displayName := Some appName;
                               pid := pid;
                               fullPath := fullPath |} ]
        else applications
    | None => applications
    end.

Definition parseApplicationOutput (output : str) : list ApplicationInfo :=
  fold_left application_step (split newline output) [].

(** *** getApplications *)

Definition processes_command (deviceIdentifier : str) : str :=
  lit "xcrun devicectl device info processes --device "
  ++ deviceIdentifier ++ lit " | grep 'Bundle/Application'".

Definition getApplications (deviceIdentifier : str)
  : io (list ApplicationInfo) :=
  Print Stdout []
    (ExecSync (processes_command deviceIdentifier) (fun r =>
       match r with
       | Output output => Return (parseApplicationOutput output)
       | Failed message =>
           Print Stderr []
             (Print Stderr [message]
                (if includes message (lit "No matching processes") then
                   Print Stdout [] (Return [])
                 else Throw (ExecFailure message)))
       end)).

(** *** selectApplication *)

Definition application_entry (index : nat) (app : ApplicationInfo)
  : list (list str) :=
  [ [decimal (index + 1); or_else (displayName app) (bundleId app)];
    [bundleId app] ]
  ++ (if truthy_opt (pid app) then [[show (pid app)]] else [])
  ++ [ [] ].

(** The test made on the typed answer by both menus. *)
Definition valid_selection (count : nat) (answer : str) : option Z :=
  match parseInt (trim answer) with
  | None => None                                     (* isNaN(selection) *)
  | Some selection =>
      if ((selection <? 1) || (selection >? Z.of_nat count))%Z then None
      else Some selection
  end.

Definition selectApplication (applications : list ApplicationInfo)
  : io ApplicationInfo :=
  match applications with
  | [] => Throw NoApplicationToSelect
  | [only] =>
      Print Stdout []
        (Print Stdout [or_else (displayName only) (bundleId only);
                       bundleId only]
           (Return only))
  | first :: _ =>
      Print Stdout []
        (print_each application_entry applications 0
           (Question [decimal (length applications)] (fun answer =>
              match valid_selection (length applications) answer with
              | None => Throw (InvalidSelection (length applications))
              | Some selection =>
                  let selectedApp :=
                    nth (Z.to_nat (selection - 1)) applications first in
                  Print Stdout [or_else (displayName selectedApp)
                                        (bundleId selectedApp)]
                    (Print Stdout [bundleId selectedApp]
                       (Return selectedApp))
              end)))
  end.

(** *** launchAppWithMetalHUD *)

Definition launch_command (deviceIdentifier path : str) : str :=
  lit "xcrun devicectl device process launch -e '{"
  ++ [34%N] ++ lit "MTL_HUD_ENABLED" ++ [34%N] ++ lit ": "
  ++ [34%N] ++ lit "1" ++ [34%N]
  ++ lit "}' --console --device " ++ deviceIdentifier ++ lit " "
  ++ [34%N] ++ path ++ [34%N].

Definition launchAppWithMetalHUD (deviceIdentifier : str)
           (app : ApplicationInfo) : io unit :=
  if negb (truthy_opt (fullPath app)) then Throw MissingFullPath
  else
    Print Stdout []
      (Print Stdout [deviceIdentifier]
         (Print Stdout [show (displayName app)]
            (Print Stdout [show (fullPath app)]
               (Print Stdout []
                  (let command :=
                     launch_command deviceIdentifier (show (fullPath app)) in
                   Print Stdout []
                     (Print Stdout [command]
                        (Print Stdout []
                           (ExecSync command (fun r =>
      match r with
      | Output output =>
          Print Stdout []
            (Print Stdout []
               (if truthy (trim output) then
                  Print Stdout [] (Print Stdout [output] (Return tt))
                else Return tt))
      | Failed message =>
          Print Stderr []
            (Print Stderr [message]
               (if includes message (lit "not found") then
                  Print Stderr [] (Throw (ExecFailure message))
                else if includes message (lit "permission") then
                  Print Stderr [] (Throw (ExecFailure message))
                else Throw (ExecFailure message)))
      end))))))))).

(** *** parseDeviceOutput *)

Definition extractPlatformFromModel (model : str) : str :=
  if includes model (lit "iPhone") then lit "iOS"
  else if includes model (lit "iPad") then lit "iPadOS"
  else if includes model (lit "Watch") then lit "watchOS"
  else if includes model (lit "Apple TV") then lit "tvOS"
  else if includes model (lit "Mac") then lit "macOS"
  else lit "Unknown".

(** The five variables set by the search for the header line. *)
Record header : Type := {
  headerLineIndex : Z;
  nameColStart : Z;
  identifierColStart : Z;
  stateColStart : Z;
  modelColStart : Z
}.

Definition no_header : header :=
  {| headerLineIndex := -1; nameColStart := -1; identifierColStart := -1;
     stateColStart := -1; modelColStart := -1 |}.

Definition is_header_line (line : str) : bool :=
  includes line (lit "Name") && includes line (lit "Identifier")
  && includes line (lit "State") && includes line (lit "Model").

(** The first loop, from line [i] on; it stops at the first header line. *)
Fixpoint find_header (lines : list str) (i : Z) : header :=
  match lines with
  | [] => no_header
  | line :: rest =>
      if is_header_line line then
        {| headerLineIndex := i;
           nameColStart := indexOf line (lit "Name");
           identifierColStart := indexOf line (lit "Identifier");
           stateColStart := indexOf line (lit "State");
           modelColStart := indexOf line (lit "Model") |}
      else find_header rest (i + 1)
  end.

(** The body of the second loop. *)
Definition device_step (h : header) (devices : list DeviceInfo) (line : str)
  : list DeviceInfo :=
  if negb (truthy (trim line)) then devices
  else
    let name := trim (substring line (nameColStart h) (identifierColStart h)) in
    let identifier :=
      trim (substring line (identifierColStart h) (stateColStart h)) in
    let state := trim (substring line (stateColStart h) (modelColStart h)) in
    let model := trim (substring_from line (modelColStart h)) in
    if truthy identifier && (10 <? length identifier) then
      devices ++ [ {| identifier := Some identifier;
                      name := if truthy name then Some name else None;
                      platform := Some (extractPlatformFromModel model);
                      connectionType :=
                        Some (if includes state (lit "paired")
                              then lit "paired" else lit "available") |} ]
    else devices.

(** *** parseDeviceOutputLegacy *)

(** /Identifier:\s*([A-F0-9-]+)/i *)
Definition identifierRegex : regex :=
  {| body := lits "Identifier:"
             ++ [Star Space; Open;
                 Plus (Class false [(ch "A", ch "F"); (ch "0", ch "9");
                                    (ch "-", ch "-")]);
                 Close];
     ignoreCase := true |}.

(** /Name:\s*(.+)/i *)
Definition nameRegex : regex :=
  {| body := lits "Name:" ++ [Star Space; Open; Plus Dot; Close];
     ignoreCase := true |}.

(** /Platform:\s*(.+)/i *)
Definition platformRegex : regex :=
  {| body := lits "Platform:" ++ [Star Space; Open; Plus Dot; Close];
     ignoreCase := true |}.

(** /Connection Type:\s*(.+)/i *)
Definition connectionRegex : regex :=
  {| body := lits "Connection Type:" ++ [Star Space; Open; Plus Dot; Close];
     ignoreCase := true |}.

(** [let currentDevice: Partial<DeviceInfo> = {}] *)
Definition empty_device : DeviceInfo :=
  {| identifier := None; name := None; platform := None;
     connectionType := None |}.

(** The state of the loop: the array [devices] and [currentDevice]. *)
Definition legacy_state : Type := (list DeviceInfo * DeviceInfo)%type.

(** [if (currentDevice.identifier) devices.push(currentDevice)] *)
Definition flush (devices : list DeviceInfo) (currentDevice : DeviceInfo)
  : list DeviceInfo :=
  if truthy_opt (identifier currentDevice) then devices ++ [currentDevice]
  else devices.

Definition legacy_step (st : legacy_state) (line : str) : legacy_state :=
  let '(devices, currentDevice) := st in
  let trimmedLine := trim line in
  match match_ trimmedLine identifierRegex with
  | Some identifierMatch =>
      (flush devices currentDevice,
       {| identifier := Some (group identifierMatch 1); name := None;
          platform := None; connectionType := None |})
  | None =>
      if truthy_opt (identifier currentDevice) then
        match match_ trimmedLine nameRegex with
        | Some nameMatch =>
            (devices,
             {| identifier := identifier currentDevice;
                name := Some (group nameMatch 1);
                platform := platform currentDevice;
                connectionType := connectionType currentDevice |})
        | None =>
            match match_ trimmedLine platformRegex with
            | Some platformMatch =>
                (devices,
                 {| identifier := identifier currentDevice;
                    name := name currentDevice;
                    platform := Some (group platformMatch 1);
                    connectionType := connectionType currentDevice |})
            | None =>
                match match_ trimmedLine connectionRegex with
                | Some connectionMatch =>
                    (devices,
                     {| identifier := identifier currentDevice;
                        name := name currentDevice;
                        platform := platform currentDevice;
                        connectionType := Some (group connectionMatch 1) |})
                | None => (devices, currentDevice)
                end
            end
        end
      else (devices, currentDevice)
  end.

Definition parseDeviceOutputLegacy (output : str) : list DeviceInfo :=
  let '(devices, currentDevice) :=
    fold_left legacy_step (split newline output) ([], empty_device) in
  flush devices currentDevice.

Definition parseDeviceOutput (output : str) : list DeviceInfo :=
  let lines := split newline output in
  let h := find_header lines 0 in
  if (headerLineIndex h =? -1)%Z then parseDeviceOutputLegacy output
  else
    fold_left (device_step h)
              (skipn (Z.to_nat (headerLineIndex h + 2)) lines) [].

(** *** selectDevice *)

Definition device_entry (index : nat) (device : DeviceInfo)
  : list (list str) :=
  [ [decimal (index + 1)] ++ (if truthy_opt (name device)
                              then [show (name device)] else []);
    [show (identifier device)] ]
  ++ (if truthy_opt (platform device) then [[show (platform device)]] else [])
  ++ [ [] ].

Definition selectDevice (devices : list DeviceInfo) : io (option str) :=
  match devices with
  | [] => Throw NoDeviceToSelect
  | [only] =>
      Print Stdout []
        (Print Stdout ((if truthy_opt (name only)
                        then [show (name only)] else [])
                       ++ [show (identifier only)])
           (Return (identifier only)))
  | first :: _ =>
      Print Stdout []
        (print_each device_entry devices 0
           (Question [decimal (length devices)] (fun answer =>
              match valid_selection (length devices) answer with
              | None => Throw (InvalidSelection (length devices))
              | Some selection =>
                  let selectedDevice :=
                    nth (Z.to_nat (selection - 1)) devices first in
                  Print Stdout (if truthy_opt (name selectedDevice)
                                then [show (name selectedDevice)] else [])
                    (Print Stdout [show (identifier selectedDevice)]
                       (Return (identifier selectedDevice)))
              end)))
  end.

(** *** getDevices *)

Definition devices_command : str := lit "xcrun devicectl list devices".

Definition getDevices : io (list DeviceInfo) :=
  Print Stdout []
    (ExecSync devices_command (fun r =>
       match r with
       | Output output => Return (parseDeviceOutput output)
       | Failed message =>
           Print Stderr []
             (Print Stderr [message]
                (if includes message (lit "command not found")
                    || includes message (lit "xcrun")
                 then Print Stderr []
                        (Print Stderr [] (Throw (ExecFailure message)))
                 else Throw (ExecFailure message)))
       end)).

(** *** displayApplications, displayDevices, getIdentifiers *)

Definition displayApplications (applications : list ApplicationInfo)
  : io unit :=
  match applications with
  | [] => Print Stdout [] (Return tt)
  | _ :: _ =>
      Print Stdout [decimal (length applications)]
        (print_each application_entry applications 0 (Return tt))
  end.

Definition device_listing_entry (index : nat) (device : DeviceInfo)
  : list (list str) :=
  [ [decimal (index + 1)] ++ (if truthy_opt (name device)
                              then [show (name device)] else []);
    [show (identifier device)] ]
  ++ (if truthy_opt (platform device) then [[show (platform device)]] else [])
  ++ (if truthy_opt (connectionType device)
      then [[show (connectionType device)]] else [])
  ++ [ [] ].

Definition displayDevices (devices : list DeviceInfo) : io unit :=
  match devices with
  | [] => Print Stdout [] (Return tt)
  | _ :: _ =>
      Print Stdout [decimal (length devices)]
        (print_each device_listing_entry devices 0 (Return tt))
  end.

Definition getIdentifiers (devices : list DeviceInfo) : list (option str) :=
  map identifier devices.

End DeviceManager.

(* ===================================================================== *)
(** ** function main                                                      *)
(* ===================================================================== *)

(** The action of the command, with the options as the option parser hands
    them over: [--no-launch] makes [launch] false and [--list] makes [list]
    true.  The value returned is the exit status of the process: 1 where the
    handler calls [process.exit(1)], and 0 where the action comes to its
    end.

    The device identifier chosen is only ever interpolated into template
    literals from there on, so it is passed on as such a literal renders
    it. *)

Module Cli.
Import Js Regex Effects DeviceManager.

(** [options: { launch?: boolean; list?: boolean }] *)
Record options : Type := {
  launch : option bool;
  list_ : option bool
}.

(** What [error.message] interpolates: the message of a failed command, the
    count in the message of a wrong selection, nothing in a fixed message. *)
Definition message_values (e : error) : list str :=
  match e with
  | ExecFailure message => [message]
  | InvalidSelection count => [decimal count]
  | _ => []
  end.

(** The body of the [try] block.  The command shown by [--no-launch] is
    written with the very template of [launchAppWithMetalHUD]; being all
    ASCII it is kept whole. *)
Definition steps (o : options) : io Z :=
  bind getDevices (fun devices =>
    match devices with
    | [] => Print Stdout [] (Return 0%Z)
    | _ :: _ =>
        match list_ o with
        | Some true => bind (displayDevices devices) (fun _ => Return 0%Z)
        | _ =>
            bind (selectDevice devices) (fun selectedIdentifier =>
              Print Stdout []
                (Print Stdout [show selectedIdentifier]
                   (bind (getApplications (show selectedIdentifier))
                      (fun applications =>
                         match applications with
                         | [] =>
                             Print Stdout []
                               (Print Stdout [] (Return 0%Z))
                         | _ :: _ =>
                             bind (selectApplication applications)
                               (fun selectedApp =>
      Print Stdout []
        (Print Stdout [bundleId selectedApp]
           (Print Stdout [show (fullPath selectedApp)]
              (match launch o with
               | Some false =>
                   Print Stdout []
                     (Print Stdout
                        [launch_command (show selectedIdentifier)
                                        (show (fullPath selectedApp))]
                        (Return 0%Z))
               | _ =>
                   bind (launchAppWithMetalHUD (show selectedIdentifier)
                                               selectedApp)
                        (fun _ => Return 0%Z)
               end))))
                         end))))
        end
    end).

Definition main (o : options) : io Z :=
  try_catch (steps o)
            (fun error => Print Stderr (message_values error) (Return 1%Z)).

End Cli.

(* ===================================================================== *)
(** ** Vocabulary of the statements                                       *)
(* ===================================================================== *)

Module Words.
Import Js Regex Effects DeviceManager.

(** [p] occurs in [s]. *)
Definition contains (s p : str) : Prop := exists pre post, s = pre ++ p ++ post.

(** Every character of [s] passes the test [p]. *)
Definition all (p : char -> bool) (s : str) : Prop := forallb p s = true.

(** [s] does not begin with a character passing the test [p]. *)
Definition stops (p : char -> bool) (s : str) : Prop :=
  match s with [] => True | c :: _ => p c = false end.

(** [s] neither begins nor ends with white space. *)
Definition trimmed (s : str) : Prop :=
  stops is_white s /\ stops is_white (rev s).

(** [a] spells the label [l] up to the case of its letters, as the i flag
    compares them. *)
Fixpoint spells (l a : str) : bool :=
  match l, a with
  | [], [] => true
  | p :: l', c :: a' => (upper c =? upper p)%N && spells l' a'
  | _, _ => false
  end.

(** A hexadecimal digit of either case, or a hyphen: what the class
    [A-F0-9-] accepts under the i flag. *)
Definition is_hex_or_hyphen (c : char) : bool :=
  (((48 <=? c) && (c <=? 57)) || ((65 <=? c) && (c <=? 70))
   || ((97 <=? c) && (c <=? 102)) || (c =? 45))%N.

Definition is_slash (c : char) : bool := (c =? 47)%N.
Definition not_slash (c : char) : bool := negb (is_slash c).
Definition not_line_terminator (c : char) : bool :=
  negb (is_line_terminator c).
Definition is_digit (c : char) : bool := ((48 <=? c) && (c <=? 57))%N.
Definition is_colon (c : char) : bool := (c =? 58)%N.
Definition not_newline (c : char) : bool := negb (c =? newline)%N.

(** The class [A-F0-9-] of the identifier expression. *)
Definition hex_class : atom :=
  Class false [(ch "A", ch "F"); (ch "0", ch "9"); (ch "-", ch "-")].

(** The shape shared by the four expressions of the legacy parser: a label,
    optional white space, and one group holding a repeated atom. *)
Definition labelled (l : string) (a : atom) : list node :=
  lits l ++ [Star Space; Open; Plus a; Close].

(** A place of [t], just after [pre], where the label [l] is followed by
    optional white space and then a character passing [p]. *)
Definition label_site (l : string) (p : char -> bool) (t pre : str) : Prop :=
  exists lab ws c rest,
    t = pre ++ lab ++ ws ++ c :: rest
    /\ spells (lit l) lab = true /\ all is_white ws /\ p c = true.

(** [v] is a value of [t] read after the label [l]: it follows the label
    and optional white space, does not begin with white space, and is a run
    of characters passing [p] that cannot be extended. *)
Definition value_after (l : string) (p : char -> bool) (t v : str) : Prop :=
  exists pre lab ws post,
    t = pre ++ lab ++ ws ++ v ++ post
    /\ spells (lit l) lab = true /\ all is_white ws
    /\ v <> [] /\ stops is_white v /\ all p v /\ stops p post.

(** [t] has such a place. *)
Definition has_site (l : string) (p : char -> bool) (t : str) : Prop :=
  exists pre, label_site l p t pre.

(** There is no such place before the one after [pre]. *)
Definition first_site (l : string) (p : char -> bool) (t pre : str) : Prop :=
  forall pre', length pre' < length pre -> ~ label_site l p t pre'.

(** The record opened by an identifier line, and the three updates of the
    open record. *)
Definition opened (v : str) : DeviceInfo :=
  {| identifier := Some v; name := None; platform := None;
     connectionType := None |}.
Definition with_name (d : DeviceInfo) (v : str) : DeviceInfo :=
  {| identifier := identifier d; name := Some v; platform := platform d;
     connectionType := connectionType d |}.
Definition with_platform (d : DeviceInfo) (v : str) : DeviceInfo :=
  {| identifier := identifier d; name := name d; platform := Some v;
     connectionType := connectionType d |}.
Definition with_connectionType (d : DeviceInfo) (v : str) : DeviceInfo :=
  {| identifier := identifier d; name := name d; platform := platform d;
     connectionType := Some v |}.

(** The record read from one data line of a table, the columns being the
    offsets at which the four labels first occur in the header line [hdr]. *)
Definition identifier_slice (hdr line : str) : str :=
  trim (substring line (indexOf hdr (lit "Identifier"))
                  (indexOf hdr (lit "State"))).

Definition row_record (hdr line : str) : DeviceInfo :=
  let name := trim (substring line (indexOf hdr (lit "Name"))
                              (indexOf hdr (lit "Identifier"))) in
  let state := trim (substring line (indexOf hdr (lit "State"))
                               (indexOf hdr (lit "Model"))) in
  let model := trim (substring_from line (indexOf hdr (lit "Model"))) in
  {| identifier := Some (identifier_slice hdr line);
     name := match name with [] => None | _ :: _ => Some name end;
     platform := Some (extractPlatformFromModel model);
     connectionType :=
       Some (if includes state (lit "paired")
             then lit "paired" else lit "available") |}.

(** What one data line contributes: one record when its identifier slice,
    trimmed, has more than 10 characters, and nothing otherwise. *)
Definition tabular_row (hdr line : str) : list DeviceInfo :=
  if 10 <? length (identifier_slice hdr line) then [row_record hdr line]
  else [].

(** The class [^\/] of the bundle expressions. *)
Definition slash_free : atom := Class true [(ch "/", ch "/")].

(** [t] has the path fragment Bundle/Application/b/a.app, where [b] and [a]
    are path segments: not empty and without a slash. *)
Definition fragment (t b a : str) : Prop :=
  exists pre post,
    t = pre ++ lit "Bundle/Application/" ++ b ++ lit "/" ++ a ++ lit ".app"
            ++ post
    /\ b <> [] /\ all not_slash b /\ a <> [] /\ all not_slash a.

Definition has_fragment (t : str) : Prop := exists b a, fragment t b a.

(** Two lines of a process listing for one application. *)
Definition sample_process : str :=
  lit "  123   /private/var/containers/Bundle/Application/com.example.app/MyGame.app/MyGame".
Definition sample_helper : str :=
  lit "  456   /private/var/containers/Bundle/Application/com.example.app/MyGame.app/Helper".

(** What a program returns or throws, and what it does on the way, in a
    world where no question has been asked yet. *)
Definition result {A : Type} (w : world) (p : io A) : error + A :=
  snd (perform w 0 p).
Definition trace {A : Type} (w : world) (p : io A) : list event :=
  fst (perform w 0 p).

(** A world whose every command fails with the given message. *)
Definition failing_world (message : str) : world :=
  {| shell := fun _ => Failed message; typed := fun _ => [] |}.

(** A world whose user types the given answer. *)
Definition typing_world (answer : str) : world :=
  {| shell := fun _ => Output []; typed := fun _ => answer |}.

(** An application record with the given path and nothing else of note. *)
Definition application_at (path : option str) : ApplicationInfo :=
  {| bundleId := lit "com.example.app";
     displayName := Some (lit "MyGame.app");
     pid := Some (lit "123");
     fullPath := path |}.

(** [s] without one leading sign. *)
Definition unsigned (s : str) : str :=
  match s with
  | c :: rest => if ((c =? 45) || (c =? 43))%N then rest else s
  | [] => []
  end.

(** After white space and one optional sign, [s] does not begin with a
    decimal digit: it has no integer to read. *)
Definition no_leading_digit (s : str) : Prop :=
  stops is_digit (unsigned (drop_white s)).

(** The value of a string of decimal digits. *)
Definition digits_value (s : str) : N :=
  fold_left (fun acc c => (acc * 10 + (c - 48))%N) s 0%N.

(** Three applications and three devices to choose from. *)
Definition sample_applications : list ApplicationInfo :=
  [ {| bundleId := lit "com.example.one"; displayName := Some (lit "One.app");
       pid := Some (lit "101"); fullPath := None |};
    {| bundleId := lit "com.example.two"; displayName := Some (lit "Two.app");
       pid := Some (lit "102"); fullPath := None |};
    {| bundleId := lit "com.example.three";
       displayName := Some (lit "Three.app");
       pid := None; fullPath := None |} ].

Definition sample_devices : list DeviceInfo :=
  [ opened (lit "00008030-0001"); opened (lit "00008030-0002");
    opened (lit "00008030-0003") ].

(** A table as the tool prints it: header, separator and one row. *)
Definition sample_header : str :=
  lit "Name       Identifier                            State      Model".
Definition sample_separator : str :=
  lit "---------  ------------------------------------  ---------  -------------".
Definition sample_row : str :=
  lit "My iPhone  9ABF9F72-7AAF-5C9E-BDD3-0A781FD70C58  available  iPhone 15 Pro".

(** A device record whose identifier is a string that is not empty. *)
Definition identified (d : DeviceInfo) : Prop :=
  exists s, identifier d = Some s /\ s <> [].

(** One block of a legacy listing: an identifier line, a name line and a
    platform line. *)
Definition legacy_block (x y z : str) : str :=
  lit "Identifier: " ++ x ++ [newline]
  ++ lit "Name: " ++ y ++ [newline]
  ++ lit "Platform: " ++ z.

(** The record such a block stands for. *)
Definition block_record (x y z : str) : DeviceInfo :=
  {| identifier := Some x; name := Some y; platform := Some z;
     connectionType := None |}.

(** A non-empty run of hexadecimal digits and hyphens. *)
Definition hex_run (x : str) : Prop := x <> [] /\ all is_hex_or_hyphen x.

Definition not_colon (c : char) : bool := negb (is_colon c).

(** A field value as a listing prints it: not empty, no white space around
    it, on one line, and without a colon. *)
Definition plain_value (y : str) : Prop :=
  y <> [] /\ trimmed y /\ all not_line_terminator y /\ all not_colon y.

(** *** Vocabulary of the further properties *)

(** In every world, and however many questions were asked before, the
    program [p] runs at most [e] commands and asks at most [q] questions. *)
Definition at_most {A : Type} (e q : nat) (p : io A) : Prop :=
  forall w n,
    executions (fst (perform w n p)) <= e
    /\ questions (fst (perform w n p)) <= q.

(** In every world, a value returned by [p] satisfies [P] and an error
    thrown by [p] satisfies [Q]. *)
Definition ends {A : Type} (P : A -> Prop) (Q : error -> Prop) (p : io A)
  : Prop :=
  forall w n,
    match snd (perform w n p) with
    | inr a => P a
    | inl e => Q e
    end.

(** In every world, every command run by [p] satisfies [C]. *)
Definition runs_only {A : Type} (C : str -> Prop) (p : io A) : Prop :=
  forall w n command,
    In (Executed command) (fst (perform w n p)) -> C command.

(** The test of the legacy loop for an identifier line. *)
Definition identifier_line (line : str) : bool :=
  match match_ (trim line) identifierRegex with
  | Some _ => true
  | None => false
  end.

(** The six platform names. *)
Definition platform_names : list str :=
  [lit "iOS"; lit "iPadOS"; lit "watchOS"; lit "tvOS"; lit "macOS";
   lit "Unknown"].

(** The shape of a record read from a table. *)
Definition tabular_record (d : DeviceInfo) : Prop :=
  (exists s, identifier d = Some s /\ trimmed s /\ 10 < length s)
  /\ (forall n, name d = Some n -> n <> [] /\ trimmed n)
  /\ (exists p, platform d = Some p /\ In p platform_names)
  /\ (connectionType d = Some (lit "paired")
      \/ connectionType d = Some (lit "available")).

(** A path segment: not empty and without a slash. *)
Definition segment (s : str) : Prop := s <> [] /\ all not_slash s.

(** The path of an installed application bundle. *)
Definition installed_path (p : str) : Prop :=
  exists b a,
    segment b /\ segment a
    /\ p = lit "/private/var/containers/Bundle/Application/" ++ b ++ lit "/"
           ++ a ++ lit ".app".

(** The shape of a record read from a process listing. *)
Definition application_record (app : ApplicationInfo) : Prop :=
  segment (bundleId app)
  /\ (exists a, segment a /\ displayName app = Some (a ++ lit ".app"))
  /\ (forall p, pid app = Some p -> p <> [] /\ all is_digit p)
  /\ (forall p, fullPath app = Some p -> installed_path p).

(** The bundle identifier a line of a process listing stands for, if any. *)
Definition bundle_of_line (line : str) : option str :=
  if negb (truthy (trim line)) then None
  else match match_ (trim line) bundleRegex with
       | Some bundleMatch => Some (group bundleMatch 1)
       | None => None
       end.

(** The commands that only list: the device listing and the process
    listing of some device. *)
Definition listing_command (command : str) : Prop :=
  command = devices_command
  \/ exists deviceIdentifier, command = processes_command deviceIdentifier.

(** In the world [w], a value returned by [p] satisfies [P]. *)
Definition returns_in {A : Type} (w : world) (P : A -> Prop) (p : io A)
  : Prop :=
  forall n,
    match snd (perform w n p) with
    | inr a => P a
    | inl _ => True
    end.

(** In the world [w], every command run by [p] satisfies [C]. *)
Definition runs_in {A : Type} (w : world) (C : str -> Prop) (p : io A)
  : Prop :=
  forall n command,
    In (Executed command) (fst (perform w n p)) -> C command.

(** The commands of the program in the world [w]: the device listing; the
    process listing of a device that the parser reads in what the device
    listing prints in [w], with its identifier, a string that is not empty;
    and the launch, on such a device, of the full path of an application
    that the parser reads in what the process listing of that device prints
    in [w], the path of an installed bundle. *)
Definition program_command (w : world) (command : str) : Prop :=
  command = devices_command
  \/ exists output d deviceIdentifier,
      shell w devices_command = Output output
      /\ In d (parseDeviceOutput output)
      /\ identifier d = Some deviceIdentifier
      /\ deviceIdentifier <> []
      /\ (command = processes_command deviceIdentifier
          \/ exists processes app path,
              shell w (processes_command deviceIdentifier) = Output processes
              /\ In app (parseApplicationOutput processes)
              /\ fullPath app = Some path
              /\ installed_path path
              /\ command = launch_command deviceIdentifier path).

(** A world in which the device listing prints [devices], every process
    listing prints [processes], every other command prints nothing, and the
    user only presses return. *)
Definition listing_world (devices processes : str) : world :=
  {| shell := fun command =>
       if str_eqb command devices_command then Output devices
       else if starts_with (lit "xcrun devicectl device info processes")
                           command
            then Output processes
            else Output [];
     typed := fun _ => [] |}.

End Words.

Unset Implicit Arguments.

(* ===================================================================== *)
(** ** Strings: occurrence, trimming, lines                               *)
(* ===================================================================== *)

Section StringFacts.
Import Js Words.

Lemma starts_with_spec (p s : str) :
  starts_with p s = true <-> exists rest, s = p ++ rest.
Proof.
  revert s; induction p as [|a p IH]; intros s; simpl.
  - split; [intros _; now exists s | reflexivity].
  - destruct s as [|b s].
    + split; [discriminate | intros [rest H]; discriminate].
    + rewrite andb_true_iff, N.eqb_eq, IH. split.
      * intros [-> [rest ->]]. now exists rest.
      * intros [rest H]. injection H as -> ->. split; [reflexivity | now exists rest].
Qed.

Lemma starts_with_app (p rest : str) : starts_with p (p ++ rest) = true.
Proof. apply starts_with_spec. now exists rest. Qed.

Lemma includes_spec (s p : str) : includes s p = true <-> contains s p.
Proof.
  unfold contains. induction s as [|c s IH].
  - simpl. rewrite orb_false_r, starts_with_spec. split.
    + intros [rest H]. exists [], rest. exact H.
    + intros [pre [post H]]. destruct pre; [|discriminate]. now exists post.
  - simpl. rewrite orb_true_iff, starts_with_spec, IH. split.
    + intros [[rest H] | [pre [post H]]].
      * exists [], rest. exact H.
      * exists (c :: pre), post. simpl. now rewrite H.
    + intros [pre [post H]]. destruct pre as [|c' pre].
      * left. now exists post.
      * right. injection H as _ H. now exists pre, post.
Qed.

Lemma includes_false (s p : str) : includes s p = false <-> ~ contains s p.
Proof.
  rewrite <- includes_spec. destruct (includes s p); split; intuition congruence.
Qed.

(** The offset found is the place of the first occurrence. *)
Lemma indexOf_from_first (p s : str) (i : Z) (pre post : str) :
  s = pre ++ p ++ post ->
  (forall pre' post', s = pre' ++ p ++ post' -> length pre <= length pre') ->
  indexOf_from p s i = (i + Z.of_nat (length pre))%Z.
Proof.
  revert i pre; induction s as [|c s IH]; intros i pre Hs Hmin.
  - destruct pre; [|discriminate]. destruct p; [|discriminate]. simpl. lia.
  - simpl. destruct (starts_with p (c :: s)) eqn:E.
    + apply starts_with_spec in E as [rest E].
      specialize (Hmin [] rest E). simpl in Hmin.
      destruct pre; [simpl; lia | simpl in Hmin; lia].
    + destruct pre as [|c' pre].
      * simpl in Hs. rewrite Hs, starts_with_app in E. discriminate.
      * injection Hs as -> Hs. rewrite (IH (i + 1)%Z pre Hs).
        -- simpl length. lia.
        -- intros pre' post' H'. specialize (Hmin (c' :: pre') post').
           simpl in Hmin. rewrite H' in Hmin. specialize (Hmin eq_refl). lia.
Qed.

Lemma all_app (p : char -> bool) (a b : str) :
  all p (a ++ b) <-> all p a /\ all p b.
Proof. unfold all. rewrite forallb_app, andb_true_iff. tauto. Qed.

Lemma all_cons (p : char -> bool) (c : char) (a : str) :
  all p (c :: a) <-> p c = true /\ all p a.
Proof. unfold all. simpl. rewrite andb_true_iff. tauto. Qed.

Lemma all_nil (p : char -> bool) : all p [].
Proof. reflexivity. Qed.

Lemma all_In (p : char -> bool) (a : str) :
  all p a <-> forall c, In c a -> p c = true.
Proof. unfold all. apply forallb_forall. Qed.

Lemma all_impl (p q : char -> bool) (a : str) :
  (forall c, p c = true -> q c = true) -> all p a -> all q a.
Proof. rewrite !all_In. auto. Qed.

(** *** White space and [trim] *)

Lemma drop_white_all (s : str) : all is_white s -> drop_white s = [].
Proof.
  induction s as [|c s IH]; [reflexivity|].
  rewrite all_cons. intros [Hc Hs]. simpl. rewrite Hc. auto.
Qed.

Lemma drop_white_stops (s : str) : stops is_white s -> drop_white s = s.
Proof. destruct s as [|c s]; simpl; [reflexivity | intros ->; reflexivity]. Qed.

Lemma drop_white_app (w s : str) :
  all is_white w -> drop_white (w ++ s) = drop_white s.
Proof.
  induction w as [|c w IH]; [reflexivity|].
  rewrite all_cons. intros [Hc Hw]. simpl. rewrite Hc. auto.
Qed.

Lemma drop_white_is_stopped (s : str) : stops is_white (drop_white s).
Proof.
  induction s as [|c s IH]; simpl; [exact I|].
  destruct (is_white c) eqn:E; [exact IH | exact E].
Qed.

(** What [drop_white] removes is white, and it is a prefix. *)
Lemma drop_white_split (s : str) :
  exists w, s = w ++ drop_white s /\ all is_white w.
Proof.
  induction s as [|c s [w [H1 H2]]]; simpl.
  - exists []. split; [reflexivity | apply all_nil].
  - destruct (is_white c) eqn:E.
    + exists (c :: w). split; [simpl; congruence | apply all_cons; auto].
    + exists []. split; [reflexivity | apply all_nil].
Qed.

Lemma stops_app_l (p : char -> bool) (a b : str) :
  a <> [] -> stops p a -> stops p (a ++ b).
Proof. destruct a; simpl; [congruence | auto]. Qed.

Lemma trim_trimmed (s : str) : trimmed s -> trim s = s.
Proof.
  intros [H1 H2]. unfold trim.
  rewrite (drop_white_stops _ H1), (drop_white_stops _ H2). apply rev_involutive.
Qed.

Lemma trim_is_trimmed (s : str) : trimmed (trim s).
Proof.
  unfold trimmed, trim. rewrite rev_involutive. split.
  - destruct (drop_white_split (rev (drop_white s))) as [w [H1 H2]].
    remember (drop_white (rev (drop_white s))) as d eqn:Hd.
    destruct d as [|c d]; [exact I|].
    assert (Hs : drop_white s = rev (c :: d) ++ rev w).
    { rewrite <- rev_app_distr, <- H1. symmetry. apply rev_involutive. }
    pose proof (drop_white_is_stopped s) as Hst. rewrite Hs in Hst.
    pose proof (drop_white_is_stopped (rev (drop_white s))) as Hc.
    rewrite <- Hd in Hc. simpl in Hc.
    destruct (rev (c :: d)) as [|x r] eqn:Er.
    + apply (f_equal (@length _)) in Er. rewrite length_rev in Er. discriminate.
    + exact Hst.
  - apply drop_white_is_stopped.
Qed.

Lemma trim_all_white (s : str) : all is_white s -> trim s = [].
Proof. intros H. unfold trim. now rewrite (drop_white_all _ H). Qed.

Lemma trim_nil_white (s : str) : trim s = [] -> all is_white s.
Proof.
  unfold trim. intros H.
  assert (H1 : drop_white (rev (drop_white s)) = []).
  { rewrite <- (rev_involutive (drop_white _)), H. reflexivity. }
  destruct (drop_white_split s) as [w [Hs Hw]].
  destruct (drop_white_split (rev (drop_white s))) as [w' [Hs' Hw']].
  rewrite H1, app_nil_r in Hs'.
  rewrite Hs. apply all_app. split; [exact Hw|].
  apply all_In. intros c Hc. apply in_rev in Hc. rewrite Hs' in Hc.
  revert c Hc. now apply all_In.
Qed.

End StringFacts.

Section SplitAndSlice.
Import Js Words.

Lemma split_one_line (a : str) : all not_newline a -> split newline a = [a].
Proof.
  induction a as [|c a IH]; [reflexivity|].
  rewrite all_cons. intros [Hc Ha]. simpl.
  unfold not_newline in Hc. apply negb_true_iff in Hc. rewrite Hc, (IH Ha).
  reflexivity.
Qed.

Lemma split_first_line (a b : str) :
  all not_newline a -> split newline (a ++ newline :: b) = a :: split newline b.
Proof.
  induction a as [|c a IH].
  - intros _. simpl. reflexivity.
  - rewrite all_cons. intros [Hc Ha]. simpl.
    unfold not_newline in Hc. apply negb_true_iff in Hc. rewrite Hc, (IH Ha).
    reflexivity.
Qed.

Lemma clamp_of_nat (len n : nat) : clamp len (Z.of_nat n) = Nat.min n len.
Proof. unfold clamp. now rewrite Nat2Z.id. Qed.

(** The slice between two offsets inside the string. *)
Lemma substring_mid (pre a post : str) :
  substring (pre ++ a ++ post) (Z.of_nat (length pre))
            (Z.of_nat (length pre + length a)) = a.
Proof.
  unfold substring. rewrite !clamp_of_nat, !length_app.
  replace (Nat.min (length pre) (length pre + (length a + length post)))
    with (length pre) by lia.
  replace (Nat.min (length pre + length a)
                   (length pre + (length a + length post)))
    with (length pre + length a) by lia.
  replace (Nat.min (length pre) (length pre + length a)) with (length pre) by lia.
  replace (Nat.max (length pre) (length pre + length a) - length pre)
    with (length a) by lia.
  rewrite skipn_app, skipn_all, Nat.sub_diag. simpl.
  rewrite firstn_app, firstn_all, Nat.sub_diag. simpl. apply app_nil_r.
Qed.

Lemma substring_mid_Z (pre a post : str) (i j : Z) :
  i = Z.of_nat (length pre) -> j = (i + Z.of_nat (length a))%Z ->
  substring (pre ++ a ++ post) i j = a.
Proof.
  intros -> ->. rewrite <- Nat2Z.inj_add. apply substring_mid.
Qed.

(** Two ways of cutting one string: the longer prefix extends the shorter. *)
Lemma app_eq_longer (a b a' b' : str) :
  a ++ b = a' ++ b' -> length a < length a' ->
  exists c t, a' = a ++ c :: t /\ b = c :: t ++ b'.
Proof.
  revert a'; induction a as [|x a IH]; intros a' H Hlen.
  - destruct a' as [|c t]; [simpl in Hlen; lia|]. simpl in H.
    exists c, t. split; [reflexivity | exact H].
  - destruct a' as [|y a']; [simpl in Hlen; lia|].
    simpl in H. injection H as -> H. simpl in Hlen.
    destruct (IH a' H ltac:(lia)) as [c [t [-> ->]]].
    exists c, t. split; reflexivity.
Qed.

Lemma app_eq_same_length (a b a' b' : str) :
  a ++ b = a' ++ b' -> length a = length a' -> a = a' /\ b = b'.
Proof.
  revert a'; induction a as [|x a IH]; intros [|y a'] H Hlen;
    simpl in *; try discriminate.
  - split; [reflexivity | exact H].
  - injection H as -> H. destruct (IH a' H ltac:(lia)) as [-> ->].
    split; reflexivity.
Qed.

End SplitAndSlice.

(* ===================================================================== *)
(** ** The matcher                                                        *)
(* ===================================================================== *)

Section MatcherFacts.
Import Js Regex Words.

Variable R : Type.
Variable p : char -> bool.
Variable k : str -> Z -> option R.

(** A failed repetition: the rest of the pattern fails after every run of
    characters the repetition could take. *)
Lemma greedy_none (s : str) (i : Z) :
  greedy p k s i = None ->
  forall a b, s = a ++ b -> all p a -> k b (i + Z.of_nat (length a))%Z = None.
Proof.
  revert i; induction s as [|c s IH]; intros i H a b Hs Ha.
  - destruct a; [|discriminate]. destruct b; [|discriminate].
    simpl in *. now rewrite Z.add_0_r.
  - simpl in H. destruct a as [|x a].
    + simpl in Hs. subst b. simpl. rewrite Z.add_0_r.
      destruct (p c); [destruct (greedy p k s (i + 1)%Z); [discriminate|]|]; exact H.
    + injection Hs as <- Hs. apply all_cons in Ha as [Hx Ha]. rewrite Hx in H.
      destruct (greedy p k s (i + 1)%Z) eqn:E; [discriminate|].
      rewrite <- (IH (i + 1)%Z E a b Hs Ha). f_equal. simpl length. lia.
Qed.

(** A successful repetition took some run [a]; every longer run failed. *)
Lemma greedy_some (s : str) (i : Z) (r : R) :
  greedy p k s i = Some r ->
  exists a b, s = a ++ b /\ all p a
    /\ k b (i + Z.of_nat (length a))%Z = Some r
    /\ (forall a' b', s = a' ++ b' -> all p a' -> length a < length a' ->
        k b' (i + Z.of_nat (length a'))%Z = None).
Proof.
  revert i; induction s as [|c s IH]; intros i H.
  - simpl in H. exists [], []. repeat split; auto using all_nil.
    + simpl. now rewrite Z.add_0_r.
    + intros a' b' Hs _ Hlen. destruct a'; [simpl in Hlen; lia | discriminate].
  - simpl in H. destruct (p c) eqn:Hc.
    + destruct (greedy p k s (i + 1)%Z) as [r'|] eqn:E.
      * injection H as <-.
        destruct (IH _ E) as [a [b [Hs [Ha [Hk Hmax]]]]].
        exists (c :: a), b. repeat split.
        -- simpl. now rewrite Hs.
        -- apply all_cons. auto.
        -- rewrite <- Hk. f_equal. simpl length. lia.
        -- intros a' b' Hs' Ha' Hlen. destruct a' as [|x a']; [simpl in Hlen; lia|].
           injection Hs' as _ Hs'. apply all_cons in Ha' as [_ Ha'].
           simpl in Hlen.
           rewrite <- (Hmax a' b' Hs' Ha' ltac:(lia)). f_equal. simpl length. lia.
      * exists [], (c :: s). repeat split; auto using all_nil.
        -- simpl. now rewrite Z.add_0_r.
        -- intros a' b' Hs' Ha' Hlen. destruct a' as [|x a']; [simpl in Hlen; lia|].
           injection Hs' as _ Hs'. apply all_cons in Ha' as [_ Ha'].
           rewrite <- (greedy_none s (i + 1)%Z E a' b' Hs' Ha').
           f_equal. simpl length. lia.
    + exists [], (c :: s). repeat split; auto using all_nil.
      * simpl. now rewrite Z.add_0_r.
      * intros a' b' Hs' Ha' Hlen. destruct a' as [|x a']; [simpl in Hlen; lia|].
        injection Hs' as <- _. apply all_cons in Ha' as [Hx _]. congruence.
Qed.

(** The repetition settles on the longest run after which the rest matches. *)
Lemma greedy_longest (s : str) (i : Z) (r : R) (a b : str) :
  s = a ++ b -> all p a ->
  k b (i + Z.of_nat (length a))%Z = Some r ->
  (forall a' b', s = a' ++ b' -> all p a' -> length a < length a' ->
   k b' (i + Z.of_nat (length a'))%Z = None) ->
  greedy p k s i = Some r.
Proof.
  intros Hs Ha Hk Hmax. destruct (greedy p k s i) as [r'|] eqn:E.
  - destruct (greedy_some s i r' E) as [a1 [b1 [Hs1 [Ha1 [Hk1 Hmax1]]]]].
    destruct (Nat.lt_trichotomy (length a) (length a1)) as [Hlt | [Heq | Hgt]].
    + rewrite (Hmax a1 b1 Hs1 Ha1 Hlt) in Hk1. discriminate.
    + rewrite Hs in Hs1. destruct (app_eq_same_length _ _ _ _ Hs1 Heq) as [<- <-].
      congruence.
    + rewrite (Hmax1 a b Hs Ha Hgt) in Hk. discriminate.
  - rewrite (greedy_none s i E a b Hs Ha) in Hk. discriminate.
Qed.

(** When the run cannot be extended it is the one taken. *)
Lemma greedy_maximal (i : Z) (r : R) (a b : str) :
  all p a -> stops p b ->
  k b (i + Z.of_nat (length a))%Z = Some r ->
  greedy p k (a ++ b) i = Some r.
Proof.
  intros Ha Hb Hk. apply (greedy_longest _ i r a b eq_refl Ha Hk).
  intros a' b' Hs Ha' Hlen.
  destruct (app_eq_longer _ _ _ _ Hs Hlen) as [c [t [-> ->]]].
  apply all_app in Ha' as [_ Ha']. apply all_cons in Ha' as [Hc _].
  simpl in Hb. congruence.
Qed.

End MatcherFacts.

Section RunFacts.
Import Js Regex Words.

Variable ic : bool.

Lemma run_lits_cs (l : str) (r : list node) (s : str) (i : Z) (m : list Z)
      (o : outcome) :
  run false (map (fun c => One (Lit c)) l ++ r) s i m = Some o
  <-> exists s', s = l ++ s' /\ run false r s' (i + Z.of_nat (length l))%Z m = Some o.
Proof.
  revert s i; induction l as [|c l IH]; intros s i.
  - simpl. rewrite Z.add_0_r. split; [intros H; now exists s | intros [s' [-> H]]; exact H].
  - simpl map. simpl app. simpl run. destruct s as [|x s].
    + split; [discriminate | intros [s' [H _]]; discriminate].
    + simpl atom_matches. destruct (x =? c)%N eqn:E.
      * apply N.eqb_eq in E. subst x. rewrite IH. split.
        -- intros [s' [-> H]]. exists s'. split; [reflexivity|].
           rewrite <- H. f_equal. simpl length. lia.
        -- intros [s' [Hs H]]. injection Hs as ->. exists s'. split; [reflexivity|].
           rewrite <- H. f_equal. simpl length. lia.
      * split; [discriminate|]. intros [s' [Hs _]]. injection Hs as -> _.
        rewrite N.eqb_refl in E. discriminate.
Qed.

Lemma run_lits_ci (l : str) (r : list node) (s : str) (i : Z) (m : list Z)
      (o : outcome) :
  run true (map (fun c => One (Lit c)) l ++ r) s i m = Some o
  <-> exists a s', s = a ++ s' /\ spells l a = true
                   /\ run true r s' (i + Z.of_nat (length l))%Z m = Some o.
Proof.
  revert s i; induction l as [|c l IH]; intros s i.
  - simpl. rewrite Z.add_0_r. split.
    + intros H. now exists [], s.
    + intros [a [s' [-> [Ha H]]]]. destruct a; [exact H | discriminate].
  - simpl map. simpl app. simpl run. destruct s as [|x s].
    + split; [discriminate|]. intros [a [s' [H [Ha _]]]].
      destruct a; [discriminate Ha | discriminate H].
    + simpl atom_matches. destruct (upper x =? upper c)%N eqn:E.
      * rewrite IH. split.
        -- intros [a [s' [-> [Ha H]]]]. exists (x :: a), s'. repeat split.
           ++ simpl. now rewrite E, Ha.
           ++ rewrite <- H. f_equal. simpl length. lia.
        -- intros [a [s' [Hs [Ha H]]]]. destruct a as [|y a]; [discriminate Ha|].
           injection Hs as <- ->. simpl in Ha. apply andb_true_iff in Ha as [_ Ha].
           exists a, s'. repeat split; auto.
           rewrite <- H. f_equal. simpl length. lia.
      * split; [discriminate|]. intros [a [s' [Hs [Ha _]]]].
        destruct a as [|y a]; [discriminate Ha|]. injection Hs as <- _.
        simpl in Ha. rewrite E in Ha. discriminate.
Qed.

Lemma spells_length (l a : str) : spells l a = true -> length a = length l.
Proof.
  revert a; induction l as [|c l IH]; intros [|x a] H; simpl in *;
    try discriminate; auto.
  apply andb_true_iff in H as [_ H]. f_equal. auto.
Qed.

(** [p+] in front of the rest [r]. *)
Lemma run_plus_some (a : atom) (r : list node) (s : str) (i : Z) (m : list Z)
      (o : outcome) :
  run ic (Plus a :: r) s i m = Some o ->
  exists v b, s = v ++ b /\ v <> [] /\ all (atom_matches ic a) v
    /\ run ic r b (i + Z.of_nat (length v))%Z m = Some o
    /\ (forall v' b', s = v' ++ b' -> all (atom_matches ic a) v' ->
        length v < length v' ->
        run ic r b' (i + Z.of_nat (length v'))%Z m = None).
Proof.
  simpl. destruct s as [|c s]; [discriminate|].
  destruct (atom_matches ic a c) eqn:Hc; [|discriminate].
  intros H. apply greedy_some in H as [v [b [Hs [Hv [Hk Hmax]]]]].
  exists (c :: v), b. repeat split.
  - simpl. now rewrite Hs.
  - discriminate.
  - apply all_cons. auto.
  - rewrite <- Hk. f_equal. simpl length. lia.
  - intros v' b' Hs' Hv' Hlen. destruct v' as [|x v']; [simpl in Hlen; lia|].
    injection Hs' as _ Hs'. apply all_cons in Hv' as [_ Hv']. simpl in Hlen.
    rewrite <- (Hmax v' b' Hs' Hv' ltac:(lia)). f_equal. simpl length. lia.
Qed.

Lemma run_plus_longest (a : atom) (r : list node) (i : Z) (m : list Z)
      (o : outcome) (v b : str) :
  v <> [] -> all (atom_matches ic a) v ->
  run ic r b (i + Z.of_nat (length v))%Z m = Some o ->
  (forall v' b', v ++ b = v' ++ b' -> all (atom_matches ic a) v' ->
   length v < length v' ->
   run ic r b' (i + Z.of_nat (length v'))%Z m = None) ->
  run ic (Plus a :: r) (v ++ b) i m = Some o.
Proof.
  intros Hne Hv Hk Hmax. destruct v as [|c v]; [congruence|].
  apply all_cons in Hv as [Hc Hv]. simpl. rewrite Hc.
  apply (greedy_longest _ _ _ _ (i + 1)%Z o v b eq_refl Hv).
  - rewrite <- Hk. f_equal. simpl length. lia.
  - intros v' b' Hs Hv' Hlen.
    rewrite <- (Hmax (c :: v') b').
    + f_equal. simpl length. lia.
    + simpl. now rewrite Hs.
    + apply all_cons. auto.
    + simpl. lia.
Qed.

Lemma run_plus_maximal (a : atom) (r : list node) (i : Z) (m : list Z)
      (o : outcome) (v b : str) :
  v <> [] -> all (atom_matches ic a) v -> stops (atom_matches ic a) b ->
  run ic r b (i + Z.of_nat (length v))%Z m = Some o ->
  run ic (Plus a :: r) (v ++ b) i m = Some o.
Proof.
  intros Hne Hv Hb Hk. apply run_plus_longest; auto.
  intros v' b' Hs Hv' Hlen.
  destruct (app_eq_longer _ _ _ _ Hs Hlen) as [c [t [-> ->]]].
  apply all_app in Hv' as [_ Hv']. apply all_cons in Hv' as [Hc _].
  simpl in Hb. congruence.
Qed.

(** [p*] in front of the rest [r]. *)
Lemma run_star_some (a : atom) (r : list node) (s : str) (i : Z) (m : list Z)
      (o : outcome) :
  run ic (Star a :: r) s i m = Some o ->
  exists v b, s = v ++ b /\ all (atom_matches ic a) v
    /\ run ic r b (i + Z.of_nat (length v))%Z m = Some o
    /\ (forall v' b', s = v' ++ b' -> all (atom_matches ic a) v' ->
        length v < length v' ->
        run ic r b' (i + Z.of_nat (length v'))%Z m = None).
Proof. simpl. apply greedy_some. Qed.

Lemma run_star_maximal (a : atom) (r : list node) (i : Z) (m : list Z)
      (o : outcome) (v b : str) :
  all (atom_matches ic a) v -> stops (atom_matches ic a) b ->
  run ic r b (i + Z.of_nat (length v))%Z m = Some o ->
  run ic (Star a :: r) (v ++ b) i m = Some o.
Proof.
  intros Hv Hb Hk. simpl.
  apply (greedy_maximal _ _ (fun s1 i1 => run ic r s1 i1 m) i o v b Hv Hb Hk).
Qed.

(** *** The search for the first match *)

Lemma exec_from_none (r : list node) (s : str) (i : Z) :
  exec_from ic r s i = None ->
  forall pre suf, s = pre ++ suf ->
    run ic r suf (i + Z.of_nat (length pre))%Z [] = None.
Proof.
  revert i; induction s as [|c s IH]; intros i H pre suf Hs.
  - destruct pre; [|discriminate]. destruct suf; [|discriminate].
    simpl in *. rewrite Z.add_0_r. destruct (run ic r [] i []); [discriminate | reflexivity].
  - simpl in H. destruct (run ic r (c :: s) i []) eqn:E; [discriminate|].
    destruct pre as [|x pre].
    + simpl in Hs. subst suf. simpl. now rewrite Z.add_0_r.
    + injection Hs as _ Hs. rewrite <- (IH _ H pre suf Hs). f_equal. simpl length. lia.
Qed.

Lemma exec_from_some (r : list node) (s : str) (i st : Z) (o : outcome) :
  exec_from ic r s i = Some (st, o) ->
  exists pre suf, s = pre ++ suf /\ st = (i + Z.of_nat (length pre))%Z
    /\ run ic r suf st [] = Some o
    /\ (forall pre' suf', s = pre' ++ suf' -> length pre' < length pre ->
        run ic r suf' (i + Z.of_nat (length pre'))%Z [] = None).
Proof.
  revert i; induction s as [|c s IH]; intros i H.
  - simpl in H. destruct (run ic r [] i []) eqn:E; [|discriminate].
    injection H as <- <-. exists [], []. simpl. rewrite Z.add_0_r.
    repeat split; auto. intros; lia.
  - simpl in H. destruct (run ic r (c :: s) i []) eqn:E.
    + injection H as <- <-. exists [], (c :: s). simpl. rewrite Z.add_0_r.
      repeat split; auto. intros; lia.
    + destruct (IH _ H) as [pre [suf [Hs [Hst [Hrun Hmin]]]]].
      exists (c :: pre), suf. repeat split.
      * simpl. now rewrite Hs.
      * rewrite Hst. simpl length. lia.
      * exact Hrun.
      * intros pre' suf' Hs' Hlen. destruct pre' as [|x pre'].
        -- simpl in Hs'. subst suf'. simpl. now rewrite Z.add_0_r.
        -- injection Hs' as _ Hs'. simpl in Hlen.
           rewrite <- (Hmin pre' suf' Hs' ltac:(lia)). f_equal. simpl length. lia.
Qed.

Lemma exec_from_first (r : list node) (i : Z) (o : outcome) (pre suf : str) :
  run ic r suf (i + Z.of_nat (length pre))%Z [] = Some o ->
  (forall pre' suf', pre ++ suf = pre' ++ suf' -> length pre' < length pre ->
   run ic r suf' (i + Z.of_nat (length pre'))%Z [] = None) ->
  exec_from ic r (pre ++ suf) i = Some ((i + Z.of_nat (length pre))%Z, o).
Proof.
  intros Hrun Hmin. destruct (exec_from ic r (pre ++ suf) i) as [[st o']|] eqn:E.
  - destruct (exec_from_some _ _ _ _ _ E) as [pre1 [suf1 [Hs [Hst [Hrun1 Hmin1]]]]].
    destruct (Nat.lt_trichotomy (length pre) (length pre1)) as [Hlt | [Heq | Hgt]].
    + rewrite (Hmin1 pre suf eq_refl Hlt) in Hrun. discriminate.
    + destruct (app_eq_same_length _ _ _ _ Hs Heq) as [<- <-]. subst st. congruence.
    + subst st. rewrite (Hmin pre1 suf1 Hs Hgt) in Hrun1. discriminate.
  - rewrite (exec_from_none _ _ _ E pre suf eq_refl) in Hrun. discriminate.
Qed.

(** Some match is found as soon as the pattern matches somewhere. *)
Lemma exec_from_found (r : list node) (i : Z) (o : outcome) (pre suf : str) :
  run ic r suf (i + Z.of_nat (length pre))%Z [] = Some o ->
  exec_from ic r (pre ++ suf) i <> None.
Proof.
  intros Hrun E. rewrite (exec_from_none _ _ _ E pre suf eq_refl) in Hrun.
  discriminate.
Qed.

Lemma exec_from_none_intro (r : list node) (s : str) (i : Z) :
  (forall pre suf, s = pre ++ suf ->
   run ic r suf (i + Z.of_nat (length pre))%Z [] = None) ->
  exec_from ic r s i = None.
Proof.
  intros H. destruct (exec_from ic r s i) as [[st o]|] eqn:E; [|reflexivity].
  destruct (exec_from_some _ _ _ _ _ E) as [pre [suf [Hs [Hst [Hrun _]]]]].
  subst st. rewrite (H pre suf Hs) in Hrun. discriminate.
Qed.

End RunFacts.

Section ClassFacts.
Import Js Regex Words DeviceManager.

Ltac tests_to_props :=
  repeat rewrite ?orb_true_iff, ?andb_true_iff, ?orb_false_iff,
    ?andb_false_iff, ?negb_true_iff, ?negb_false_iff,
    ?N.eqb_eq, ?N.eqb_neq, ?N.leb_le, ?N.leb_gt in *.

Ltac split_case c :=
  destruct (N.leb_spec 97 c), (N.leb_spec c 122), (N.leb_spec 65 c),
    (N.leb_spec c 90); cbn [andb].

(** [A-F0-9-] under the i flag. *)
Lemma class_hex_or_hyphen (c : char) :
  atom_matches true
    (Class false [(ch "A", ch "F"); (ch "0", ch "9"); (ch "-", ch "-")]) c
  = is_hex_or_hyphen c.
Proof.
  unfold atom_matches, in_ranges, existsb, is_hex_or_hyphen, upper, lower.
  change (ch "A") with 65%N. change (ch "F") with 70%N.
  change (ch "0") with 48%N. change (ch "9") with 57%N.
  change (ch "-") with 45%N. cbn [fst snd].
  apply eq_true_iff_eq. split_case c; tests_to_props; lia.
Qed.

(** [^\/] *)
Lemma class_not_slash (ic : bool) (c : char) :
  atom_matches ic (Class true [(ch "/", ch "/")]) c = not_slash c.
Proof.
  unfold atom_matches, in_ranges, existsb, not_slash, is_slash, upper, lower.
  change (ch "/") with 47%N. cbn [fst snd].
  apply eq_true_iff_eq. destruct ic; [split_case c|]; tests_to_props; lia.
Qed.

Lemma hex_not_white (c : char) : is_hex_or_hyphen c = true -> is_white c = false.
Proof.
  unfold is_hex_or_hyphen, is_white, is_line_terminator.
  tests_to_props. lia.
Qed.

Lemma digit_not_white (c : char) : is_digit c = true -> is_white c = false.
Proof.
  unfold is_digit, is_white, is_line_terminator.
  tests_to_props. lia.
Qed.

Lemma line_terminator_white (c : char) :
  is_line_terminator c = true -> is_white c = true.
Proof. unfold is_white. intros ->. now rewrite !orb_true_r. Qed.

Lemma not_white_not_terminator (c : char) :
  is_white c = false -> not_line_terminator c = true.
Proof.
  unfold not_line_terminator. intros H.
  destruct (is_line_terminator c) eqn:E; [|reflexivity].
  apply line_terminator_white in E. congruence.
Qed.

Lemma all_ext (p q : char -> bool) (s : str) :
  (forall c, p c = q c) -> (all p s <-> all q s).
Proof. intros H. split; apply all_impl; intros c; rewrite H; auto. Qed.

Lemma stops_ext (p q : char -> bool) (s : str) :
  (forall c, p c = q c) -> (stops p s <-> stops q s).
Proof. intros H. destruct s; simpl; [tauto | rewrite H; tauto]. Qed.

End ClassFacts.

Section GroupFacts.
Import Js Regex.

Lemma run_open (ic : bool) (r : list node) (s : str) (i : Z) (m : list Z) :
  run ic (Open :: r) s i m = run ic r s i (i :: m).
Proof. reflexivity. Qed.

Lemma run_close (ic : bool) (r : list node) (s : str) (i : Z) (m : list Z) :
  run ic (Close :: r) s i m = run ic r s i (i :: m).
Proof. reflexivity. Qed.

Lemma run_end (ic : bool) (s : str) (i : Z) (m : list Z) :
  run ic [] s i m = Some (m, i).
Proof. reflexivity. Qed.

End GroupFacts.

Section LabelFacts.
Import Js Regex Words DeviceManager.

Variable l : string.
Variable a : atom.

Let p : char -> bool := atom_matches true a.

(** A match of a labelled expression at the head of [s]. *)
Lemma run_labelled_some (s : str) (i : Z) (marks : list Z) (j : Z) :
  run true (labelled l a) s i [] = Some (marks, j) ->
  exists lab ws v post,
    s = lab ++ ws ++ v ++ post
    /\ spells (lit l) lab = true /\ all is_white ws
    /\ v <> [] /\ all p v /\ stops p post
    /\ marks = [(i + Z.of_nat (length lab + length ws + length v))%Z;
                (i + Z.of_nat (length lab + length ws))%Z]
    /\ j = (i + Z.of_nat (length lab + length ws + length v))%Z.
Proof.
  unfold labelled, lits. intros H.
  apply run_lits_ci in H as [lab [s1 [-> [Hlab H]]]].
  apply run_star_some in H as [ws [s2 [-> [Hws [H _]]]]].
  rewrite run_open in H.
  apply run_plus_some in H as [v [post [-> [Hne [Hv [H Hmax]]]]]].
  exists lab, ws, v, post. rewrite <- (spells_length _ _ Hlab) in *.
  rewrite run_close, run_end in H. injection H as <- <-.
  repeat split; auto.
  - destruct post as [|c post]; [exact I|]. simpl.
    destruct (p c) eqn:Hc; [|reflexivity].
    specialize (Hmax (v ++ [c]) post). rewrite <- app_assoc in Hmax.
    specialize (Hmax eq_refl). rewrite run_close, run_end in Hmax.
    assert (Hv' : all p (v ++ [c])).
    { apply all_app. split; [exact Hv|]. apply all_cons. split; [exact Hc | apply all_nil]. }
    specialize (Hmax Hv'). rewrite length_app in Hmax. simpl in Hmax.
    specialize (Hmax ltac:(lia)). discriminate.
  - f_equal; [|f_equal]; lia.
  - lia.
Qed.

Lemma run_labelled_intro (i : Z) (lab ws v post : str) :
  spells (lit l) lab = true -> all is_white ws ->
  v <> [] -> all p v -> stops p post -> stops is_white v ->
  run true (labelled l a) (lab ++ ws ++ v ++ post) i []
  = Some ([(i + Z.of_nat (length lab + length ws + length v))%Z;
           (i + Z.of_nat (length lab + length ws))%Z],
          (i + Z.of_nat (length lab + length ws + length v))%Z).
Proof.
  intros Hlab Hws Hne Hv Hpost Hhead. unfold labelled, lits.
  apply run_lits_ci. exists lab, (ws ++ v ++ post). repeat split; auto.
  rewrite <- (spells_length _ _ Hlab).
  apply run_star_maximal; auto.
  - destruct v; [congruence|]. exact Hhead.
  - rewrite run_open. apply run_plus_maximal; auto.
    rewrite run_close, run_end.
    rewrite !Nat2Z.inj_add, !Z.add_assoc. reflexivity.
Qed.

(** A labelled expression matches at the head of [s] only at a label site. *)
Lemma run_labelled_site (pre s : str) (i : Z) (o : outcome) :
  run true (labelled l a) s i [] = Some o -> label_site l p (pre ++ s) pre.
Proof.
  destruct o as [marks j]. intros H.
  apply run_labelled_some in H
    as [lab [ws [v [post [-> [Hlab [Hws [Hne [Hv _]]]]]]]]].
  destruct v as [|c v]; [congruence|]. apply all_cons in Hv as [Hc _].
  exists lab, ws, c, (v ++ post). repeat split; auto.
Qed.

Variable re : regex.
Hypothesis re_body : body re = labelled l a.
Hypothesis re_flag : ignoreCase re = true.

(** What a successful [match] tells: the line is cut into the text before
    the match, the label, white space, the captured value and the rest. *)
Lemma match_labelled_some (t : str) (m : list str) :
  match_ t re = Some m ->
  exists pre lab ws v post,
    t = pre ++ lab ++ ws ++ v ++ post
    /\ spells (lit l) lab = true /\ all is_white ws
    /\ v <> [] /\ all p v /\ stops p post
    /\ m = [lab ++ ws ++ v; v].
Proof.
  unfold match_. rewrite re_body, re_flag.
  destruct (exec_from true (labelled l a) t 0) as [[st [marks j]]|] eqn:E;
    [|discriminate].
  intros H. injection H as <-.
  apply exec_from_some in E as [pre [suf [-> [-> [H _]]]]].
  apply run_labelled_some in H
    as [lab [ws [v [post [-> [Hlab [Hws [Hne [Hv [Hpost [-> ->]]]]]]]]]]].
  exists pre, lab, ws, v, post. repeat split; auto.
  cbn [rev app groups]. f_equal; [|f_equal].
  - replace (pre ++ lab ++ ws ++ v ++ post)
      with (pre ++ (lab ++ ws ++ v) ++ post) by now rewrite <- !app_assoc.
    apply substring_mid_Z; [lia | rewrite ?length_app; lia].
  - replace (pre ++ lab ++ ws ++ v ++ post)
      with ((pre ++ lab ++ ws) ++ v ++ post) by now rewrite <- !app_assoc.
    apply substring_mid_Z; rewrite ?length_app; lia.
Qed.

(** The first label site of a line is where [match] succeeds. *)
Lemma match_labelled_intro (pre lab ws v post : str) :
  spells (lit l) lab = true -> all is_white ws ->
  v <> [] -> all p v -> stops p post -> stops is_white v ->
  first_site l p (pre ++ lab ++ ws ++ v ++ post) pre ->
  match_ (pre ++ lab ++ ws ++ v ++ post) re = Some [lab ++ ws ++ v; v].
Proof.
  intros Hlab Hws Hne Hv Hpost Hhead Hfirst. unfold match_.
  rewrite re_body, re_flag.
  rewrite (exec_from_first true (labelled l a) 0 _ pre (lab ++ ws ++ v ++ post)
             (run_labelled_intro _ lab ws v post Hlab Hws Hne Hv Hpost Hhead)).
  - cbn [rev app groups]. f_equal. f_equal; [|f_equal].
    + replace (pre ++ lab ++ ws ++ v ++ post)
        with (pre ++ (lab ++ ws ++ v) ++ post) by now rewrite <- !app_assoc.
      apply substring_mid_Z; [lia | rewrite ?length_app; lia].
    + replace (pre ++ lab ++ ws ++ v ++ post)
        with ((pre ++ lab ++ ws) ++ v ++ post) by now rewrite <- !app_assoc.
      apply substring_mid_Z; rewrite ?length_app; lia.
  - intros pre' suf' Hs Hlen.
    destruct (run true (labelled l a) suf' (0 + Z.of_nat (length pre')) [])
      as [o|] eqn:E; [|reflexivity].
    exfalso. apply (Hfirst pre' Hlen). rewrite Hs.
    apply (run_labelled_site pre' suf' _ o E).
Qed.

End LabelFacts.

Section ValueFacts.
Import Js Regex Words DeviceManager.

(** The longest prefix of characters passing a test. *)
Lemma span_exists (p : char -> bool) (s : str) :
  exists v post, s = v ++ post /\ all p v /\ stops p post.
Proof.
  induction s as [|c s [v [post [Hs [Hv Hpost]]]]].
  - exists [], []. repeat split.
  - destruct (p c) eqn:Hc.
    + exists (c :: v), post. repeat split; auto.
      * simpl. now rewrite Hs.
      * apply all_cons. auto.
    + exists [], (c :: s). repeat split. exact Hc.
Qed.

Lemma stops_rev_suffix (p : char -> bool) (a b : str) :
  stops p (rev (a ++ b)) -> b <> [] -> stops p (rev b).
Proof.
  rewrite rev_app_distr. intros H Hb.
  destruct (rev b) as [|c r] eqn:E.
  - apply (f_equal (@rev _)) in E. rewrite rev_involutive in E. simpl in E. congruence.
  - exact H.
Qed.

Lemma all_white_not_trimmed (s : str) :
  all is_white s -> s <> [] -> ~ stops is_white (rev s).
Proof.
  intros Hs Hne Hst. destruct (rev s) as [|c r] eqn:E.
  - apply (f_equal (@rev _)) in E. rewrite rev_involutive in E. simpl in E. congruence.
  - simpl in Hst. assert (Hc : In c s) by (apply in_rev; rewrite E; now left).
    rewrite all_In in Hs. rewrite (Hs c Hc) in Hst. discriminate.
Qed.

Variable l : string.
Variable a : atom.
Let p : char -> bool := atom_matches true a.

(** In a text that does not end with white space, a labelled expression
    whose atom accepts every character that is not white space captures a
    value that does not begin with white space. *)
Lemma run_labelled_wide (s : str) (i : Z) (marks : list Z) (j : Z) :
  (forall c, is_white c = false -> p c = true) ->
  stops is_white (rev s) ->
  run true (labelled l a) s i [] = Some (marks, j) ->
  exists lab ws v post,
    s = lab ++ ws ++ v ++ post
    /\ spells (lit l) lab = true /\ all is_white ws
    /\ v <> [] /\ stops is_white v /\ all p v /\ stops p post
    /\ marks = [(i + Z.of_nat (length lab + length ws + length v))%Z;
                (i + Z.of_nat (length lab + length ws))%Z]
    /\ j = (i + Z.of_nat (length lab + length ws + length v))%Z.
Proof.
  intros Hwide Hend H. pose proof H as H0.
  unfold labelled, lits in H0.
  apply run_lits_ci in H0 as [lab [s1 [-> [Hlab H0]]]].
  destruct (drop_white_split s1) as [w [Hs1 Hw]].
  pose proof (drop_white_is_stopped s1) as Hrest.
  destruct (drop_white s1) as [|c rest] eqn:Erest.
  - rewrite app_nil_r in Hs1. subst w. exfalso.
    destruct s1 as [|x s1].
    + simpl in H0. discriminate.
    + apply (all_white_not_trimmed (x :: s1) Hw); [discriminate|].
      apply (stops_rev_suffix _ lab); [exact Hend | discriminate].
  - simpl in Hrest. pose proof (Hwide c Hrest) as Hc.
    destruct (span_exists p (c :: rest)) as [v [post [Hv0 [Hv Hpost]]]].
    assert (Hne : v <> []).
    { intros ->. simpl in Hv0. subst post. simpl in Hpost. congruence. }
    assert (Hhead : stops is_white v).
    { destruct v as [|x v]; [congruence|]. injection Hv0 as <- _. exact Hrest. }
    subst s1. rewrite Hv0 in H.
    rewrite (run_labelled_intro l a i lab w v post Hlab Hw Hne Hv Hpost Hhead) in H.
    injection H as <- <-.
    exists lab, w, v, post. rewrite Hv0. repeat split; auto.
Qed.

Variable re : regex.
Hypothesis re_body : body re = labelled l a.
Hypothesis re_flag : ignoreCase re = true.

(** The value captured when the atom accepts no white space. *)
Lemma match_labelled_narrow (t : str) (m : list str) :
  (forall c, p c = true -> is_white c = false) ->
  match_ t re = Some m -> value_after l p t (group m 1).
Proof.
  intros Hnarrow H.
  apply (match_labelled_some l a re re_body re_flag) in H
    as [pre [lab [ws [v [post [-> [Hlab [Hws [Hne [Hv [Hpost ->]]]]]]]]]]].
  exists pre, lab, ws, post. repeat split; auto.
  destruct v as [|c v]; [congruence|]. apply all_cons in Hv as [Hc _].
  exact (Hnarrow c Hc).
Qed.

(** The value captured on a trimmed line when the atom accepts every
    character that is not white space. *)
Lemma match_labelled_wide (t : str) (m : list str) :
  (forall c, is_white c = false -> p c = true) ->
  stops is_white (rev t) ->
  match_ t re = Some m -> value_after l p t (group m 1).
Proof.
  intros Hwide Hend. unfold match_. rewrite re_body, re_flag.
  destruct (exec_from true (labelled l a) t 0) as [[st [marks j]]|] eqn:E;
    [|discriminate].
  intros H. injection H as <-.
  apply exec_from_some in E as [pre [suf [-> [-> [H _]]]]].
  assert (Hsuf : stops is_white (rev suf)).
  { destruct suf as [|x suf]; [exact I|].
    apply (stops_rev_suffix _ pre); [exact Hend | discriminate]. }
  apply (run_labelled_wide _ _ _ _ Hwide Hsuf) in H
    as [lab [ws [v [post [-> [Hlab [Hws [Hne [Hhead [Hv [Hpost [-> ->]]]]]]]]]]]].
  exists pre, lab, ws, post. cbn [rev app groups group nth].
  replace (substring (pre ++ lab ++ ws ++ v ++ post)
             (0 + Z.of_nat (length pre) + Z.of_nat (length lab + length ws))
             (0 + Z.of_nat (length pre)
              + Z.of_nat (length lab + length ws + length v))) with v.
  - repeat split; auto.
  - symmetry.
    replace (pre ++ lab ++ ws ++ v ++ post)
      with ((pre ++ lab ++ ws) ++ v ++ post) by now rewrite <- !app_assoc.
    apply substring_mid_Z; rewrite ?length_app; lia.
Qed.

End ValueFacts.

Section SiteFacts.
Import Js Regex Words DeviceManager.

Variable l : string.
Variable a : atom.
Let p : char -> bool := atom_matches true a.
Variable re : regex.
Hypothesis re_body : body re = labelled l a.
Hypothesis re_flag : ignoreCase re = true.

Lemma match_found (pre suf : str) (o : outcome) :
  run true (labelled l a) suf (0 + Z.of_nat (length pre))%Z [] = Some o ->
  match_ (pre ++ suf) re <> None.
Proof.
  intros H. unfold match_. rewrite re_body, re_flag.
  pose proof (exec_from_found true _ 0 o pre suf H) as Hf.
  destruct (exec_from true (labelled l a) (pre ++ suf) 0) as [[st [marks j]]|];
    [discriminate | congruence].
Qed.

(** A match happens at a label site. *)
Lemma match_site (t : str) (m : list str) :
  match_ t re = Some m -> exists pre, label_site l p t pre.
Proof.
  intros H.
  apply (match_labelled_some l a re re_body re_flag) in H
    as [pre [lab [ws [v [post [-> [Hlab [Hws [Hne [Hv _]]]]]]]]]].
  destruct v as [|c v]; [congruence|]. apply all_cons in Hv as [Hc _].
  exists pre, lab, ws, c, (v ++ post). repeat split; auto.
Qed.

Lemma no_site_no_match (t : str) :
  ~ (exists pre, label_site l p t pre) -> match_ t re = None.
Proof.
  intros Hno. destruct (match_ t re) as [m|] eqn:E; [|reflexivity].
  exfalso. apply Hno. exact (match_site t m E).
Qed.

(** A label site gives a match when the atom accepts no white space. *)
Lemma site_match_narrow (t : str) :
  (forall c, p c = true -> is_white c = false) ->
  (exists pre, label_site l p t pre) -> match_ t re <> None.
Proof.
  intros Hnarrow [pre [lab [ws [c [rest [-> [Hlab [Hws Hc]]]]]]]].
  destruct (span_exists p (c :: rest)) as [v [post [Hv0 [Hv Hpost]]]].
  assert (Hne : v <> []).
  { intros ->. simpl in Hv0. subst post. simpl in Hpost. congruence. }
  assert (Hhead : stops is_white v).
  { destruct v as [|x v]; [congruence|]. injection Hv0 as <- _.
    exact (Hnarrow c Hc). }
  rewrite Hv0.
  exact (match_found pre _ _
           (run_labelled_intro l a _ lab ws v post Hlab Hws Hne Hv Hpost Hhead)).
Qed.

(** On a line that does not end with white space, a label site gives a
    match when the atom accepts every character that is not white space. *)
Lemma site_match_wide (t : str) :
  (forall c, is_white c = false -> p c = true) ->
  stops is_white (rev t) ->
  (exists pre, label_site l p t pre) -> match_ t re <> None.
Proof.
  intros Hwide Hend [pre [lab [ws [c [rest [-> [Hlab [Hws Hc]]]]]]]].
  destruct (drop_white_split (ws ++ c :: rest)) as [w [Hs1 Hw]].
  pose proof (drop_white_is_stopped (ws ++ c :: rest)) as Hrest.
  destruct (drop_white (ws ++ c :: rest)) as [|d r1] eqn:Er.
  - exfalso. rewrite app_nil_r in Hs1.
    apply (all_white_not_trimmed (ws ++ c :: rest)).
    + now rewrite Hs1.
    + destruct ws; discriminate.
    + apply (stops_rev_suffix _ (pre ++ lab)).
      * now rewrite <- app_assoc.
      * destruct ws; discriminate.
  - simpl in Hrest. pose proof (Hwide d Hrest) as Hd.
    destruct (span_exists p (d :: r1)) as [v [post [Hv0 [Hv Hpost]]]].
    assert (Hne : v <> []).
    { intros ->. simpl in Hv0. subst post. simpl in Hpost. congruence. }
    assert (Hhead : stops is_white v).
    { destruct v as [|x v]; [congruence|]. injection Hv0 as <- _. exact Hrest. }
    rewrite Hs1, Hv0.
    exact (match_found pre _ _
             (run_labelled_intro l a _ lab w v post Hlab Hw Hne Hv Hpost Hhead)).
Qed.

End SiteFacts.

Section LegacyExpressions.
Import Js Regex Words DeviceManager.

Lemma identifier_body : body identifierRegex = labelled "Identifier:" hex_class.
Proof. reflexivity. Qed.

Lemma name_body : body nameRegex = labelled "Name:" Dot.
Proof. reflexivity. Qed.

Lemma platform_body : body platformRegex = labelled "Platform:" Dot.
Proof. reflexivity. Qed.

Lemma connection_body : body connectionRegex = labelled "Connection Type:" Dot.
Proof. reflexivity. Qed.

Lemma hex_class_test (c : char) :
  atom_matches true hex_class c = is_hex_or_hyphen c.
Proof. apply class_hex_or_hyphen. Qed.

Lemma label_site_ext (l : string) (p q : char -> bool) (t pre : str) :
  (forall c, p c = q c) -> label_site l p t pre -> label_site l q t pre.
Proof.
  intros H [lab [ws [c [rest [Ht [Hlab [Hws Hc]]]]]]].
  exists lab, ws, c, rest. rewrite <- H. auto.
Qed.

Lemma value_after_ext (l : string) (p q : char -> bool) (t v : str) :
  (forall c, p c = q c) -> value_after l p t v -> value_after l q t v.
Proof.
  intros H [pre [lab [ws [post [Ht [Hlab [Hws [Hne [Hhead [Hv Hpost]]]]]]]]]].
  exists pre, lab, ws, post. repeat split; auto.
  - now apply (all_ext p q v H).
  - now apply (stops_ext p q post H).
Qed.

Lemma wide_dot (c : char) :
  is_white c = false -> atom_matches true Dot c = true.
Proof. apply not_white_not_terminator. Qed.

Lemma narrow_hex (c : char) :
  atom_matches true hex_class c = true -> is_white c = false.
Proof. rewrite hex_class_test. apply hex_not_white. Qed.

(** The identifier expression on a line: it matches exactly when the line
    has an identifier site, and then captures a run of hexadecimal digits
    and hyphens read after the label. *)
Lemma identifier_match (t : str) :
  (exists pre, label_site "Identifier:" is_hex_or_hyphen t pre)
  -> exists m, match_ t identifierRegex = Some m
       /\ value_after "Identifier:" is_hex_or_hyphen t (group m 1).
Proof.
  intros [pre Hsite].
  destruct (match_ t identifierRegex) as [m|] eqn:E.
  - exists m. split; [reflexivity|].
    apply (value_after_ext _ _ _ _ _ hex_class_test).
    exact (match_labelled_narrow _ _ _ identifier_body eq_refl t m narrow_hex E).
  - exfalso.
    apply (site_match_narrow _ _ _ identifier_body eq_refl t narrow_hex); [|exact E].
    exists pre. apply (label_site_ext _ is_hex_or_hyphen); [|exact Hsite].
    intros c. symmetry. apply hex_class_test.
Qed.

Lemma identifier_no_match (t : str) :
  ~ (exists pre, label_site "Identifier:" is_hex_or_hyphen t pre)
  -> match_ t identifierRegex = None.
Proof.
  intros Hno. apply (no_site_no_match _ _ _ identifier_body eq_refl).
  intros [pre Hsite]. apply Hno. exists pre.
  exact (label_site_ext _ _ _ _ _ hex_class_test Hsite).
Qed.

(** The same for an expression that captures the rest of the line. *)
Lemma field_match (l : string) (re : regex) (t : str) :
  body re = labelled l Dot -> ignoreCase re = true ->
  stops is_white (rev t) ->
  (exists pre, label_site l not_line_terminator t pre)
  -> exists m, match_ t re = Some m
       /\ value_after l not_line_terminator t (group m 1).
Proof.
  intros Hbody Hflag Hend Hsite.
  destruct (match_ t re) as [m|] eqn:E.
  - exists m. split; [reflexivity|].
    exact (match_labelled_wide _ _ _ Hbody Hflag t m wide_dot Hend E).
  - exfalso.
    exact (site_match_wide _ _ _ Hbody Hflag t wide_dot Hend Hsite E).
Qed.

Lemma field_no_match (l : string) (re : regex) (t : str) :
  body re = labelled l Dot -> ignoreCase re = true ->
  ~ (exists pre, label_site l not_line_terminator t pre)
  -> match_ t re = None.
Proof.
  intros Hbody Hflag Hno. exact (no_site_no_match _ _ _ Hbody Hflag t Hno).
Qed.

End LegacyExpressions.

Section LegacySteps.
Import Js Regex Words DeviceManager.

Lemma exec_from_skip (ic : bool) (r : list node) (c : char) (s : str) (i : Z) :
  run ic r (c :: s) i [] = None ->
  exec_from ic r (c :: s) i = exec_from ic r s (i + 1)%Z.
Proof. intros H. simpl. now rewrite H. Qed.

Lemma upper_colon (c x : char) :
  (upper c =? upper x)%N = true -> is_colon x = true -> is_colon c = true.
Proof.
  unfold upper, is_colon. rewrite !N.eqb_eq. intros H ->. revert H.
  destruct (N.leb_spec 97 c), (N.leb_spec c 122); cbn [andb]; simpl; lia.
Qed.

Lemma spells_colon (l lab : str) :
  spells l lab = true -> existsb is_colon l = true ->
  existsb is_colon lab = true.
Proof.
  revert lab; induction l as [|x l IH]; intros [|c lab] H Hl; simpl in *;
    try discriminate.
  apply andb_true_iff in H as [Hc H]. apply orb_true_iff in Hl as [Hx | Hl].
  - rewrite (upper_colon c x Hc Hx). reflexivity.
  - rewrite (IH lab H Hl). apply orb_true_r.
Qed.

(** A label that has a colon is not found in a text that has none. *)
Lemma exec_labelled_no_colon (l : string) (a : atom) (s : str) (i : Z) :
  existsb is_colon (lit l) = true -> all not_colon s ->
  exec_from true (labelled l a) s i = None.
Proof.
  intros Hl Hs. apply exec_from_none_intro. intros pre suf ->.
  destruct (run true (labelled l a) suf (i + Z.of_nat (length pre)) [])
    as [[marks j]|] eqn:E; [|reflexivity].
  exfalso. apply run_labelled_some in E as [lab [ws [v [post [-> [Hlab _]]]]]].
  pose proof (spells_colon _ _ Hlab Hl) as Hc.
  apply existsb_exists in Hc as [c [Hin Hc]].
  rewrite all_In in Hs.
  assert (Hnc : not_colon c = true).
  { apply Hs. apply in_or_app. right. apply in_or_app. now left. }
  unfold not_colon in Hnc. rewrite Hc in Hnc. discriminate.
Qed.

(** When the search for the identifier expression stops at [pre], there is
    no identifier site before it. *)
Lemma first_site_exec (t pre : str) :
  (exists o, exec_from true (labelled "Identifier:" hex_class) t 0
             = Some (Z.of_nat (length pre), o)) ->
  first_site "Identifier:" is_hex_or_hyphen t pre.
Proof.
  intros [o E] pre' Hlen [lab [ws [c [rest [Ht [Hlab [Hws Hc]]]]]]].
  apply exec_from_some in E as [pre0 [suf0 [Hs [Hst [_ Hmin]]]]].
  assert (Hlen0 : length pre' < length pre0) by lia.
  destruct (span_exists (atom_matches true hex_class) (c :: rest))
    as [v [post [Hv0 [Hv Hpost]]]].
  rewrite <- hex_class_test in Hc.
  assert (Hne : v <> []).
  { intros ->. simpl in Hv0. subst post. cbn [stops] in Hpost. congruence. }
  assert (Hhead : stops is_white v).
  { destruct v as [|x v]; [congruence|]. injection Hv0 as <- _.
    exact (narrow_hex c Hc). }
  rewrite Hv0 in Ht.
  pose proof (run_labelled_intro "Identifier:" hex_class
                (0 + Z.of_nat (length pre')) lab ws v post
                Hlab Hws Hne Hv Hpost Hhead) as Hrun.
  rewrite (Hmin pre' _ Ht Hlen0) in Hrun. discriminate.
Qed.

Lemma first_site_start (l : string) (p : char -> bool) (t : str) :
  first_site l p t [].
Proof. intros pre' Hlen. simpl in Hlen. lia. Qed.

Lemma trimmed_app (a b : str) :
  a <> [] -> stops is_white a -> b <> [] -> stops is_white (rev b) ->
  trimmed (a ++ b).
Proof.
  intros Ha Hsa Hb Hsb. split.
  - now apply stops_app_l.
  - rewrite rev_app_distr. apply stops_app_l; [|exact Hsb].
    intros E. apply (f_equal (@rev _)) in E. rewrite rev_involutive in E.
    simpl in E. congruence.
Qed.

Lemma hex_run_end (x : str) : hex_run x -> stops is_white (rev x).
Proof.
  intros [Hne Hx]. destruct (rev x) as [|c r] eqn:E.
  - exact I.
  - simpl. apply hex_not_white. rewrite all_In in Hx. apply Hx.
    apply in_rev. rewrite E. now left.
Qed.

Lemma hex_not_newline (c : char) :
  is_hex_or_hyphen c = true -> not_newline c = true.
Proof.
  intros H. apply hex_not_white in H. unfold not_newline, newline.
  destruct (N.eqb_spec c 10); [subst c; discriminate H | reflexivity].
Qed.

Lemma terminator_not_newline (c : char) :
  not_line_terminator c = true -> not_newline c = true.
Proof.
  unfold not_line_terminator, is_line_terminator, not_newline, newline.
  destruct (c =? 10)%N; [discriminate | reflexivity].
Qed.

(** The three lines of a block, each on the state it meets. *)
Lemma step_identifier_line (devices : list DeviceInfo) (cur : DeviceInfo)
      (x : str) :
  hex_run x ->
  legacy_step (devices, cur) (lit "Identifier: " ++ x)
  = (flush devices cur, opened x).
Proof.
  intros Hx. pose proof Hx as [Hne Hrun]. unfold legacy_step.
  rewrite (trim_trimmed (lit "Identifier: " ++ x))
    by (apply trimmed_app;
        [discriminate | reflexivity | exact Hne | exact (hex_run_end x Hx)]).
  assert (Hhead : stops is_white x).
  { destruct x as [|c x]; [congruence|]. apply all_cons in Hrun as [Hc _].
    exact (hex_not_white c Hc). }
  pose proof (match_labelled_intro "Identifier:" hex_class identifierRegex
                identifier_body eq_refl [] (lit "Identifier:") [32%N] x []
                eq_refl eq_refl Hne
                (proj2 (all_ext _ _ x hex_class_test) Hrun) I Hhead
                (first_site_start _ _ _)) as Hm.
  rewrite app_nil_r in Hm.
  match type of Hm with
  | match_ ?t _ = _ => change (lit "Identifier: " ++ x) with t
  end.
  rewrite Hm. reflexivity.
Qed.

Lemma step_name_line (devices : list DeviceInfo) (cur : DeviceInfo) (y : str) :
  plain_value y -> truthy_opt (identifier cur) = true ->
  legacy_step (devices, cur) (lit "Name: " ++ y) = (devices, with_name cur y).
Proof.
  intros [Hne [[Hh He] [Hlt Hcol]]] Hopen. unfold legacy_step.
  rewrite (trim_trimmed (lit "Name: " ++ y))
    by (apply trimmed_app; [discriminate | reflexivity | assumption | assumption]).
  assert (Hid : match_ (lit "Name: " ++ y) identifierRegex = None).
  { unfold match_. rewrite identifier_body. cbn [ignoreCase identifierRegex].
    change (lit "Name: " ++ y)
      with (78 :: 97 :: 109 :: 101 :: 58 :: 32 :: y)%N.
    do 6 (rewrite exec_from_skip by reflexivity).
    now rewrite exec_labelled_no_colon. }
  rewrite Hid, Hopen.
  pose proof (match_labelled_intro "Name:" Dot nameRegex name_body eq_refl
                [] (lit "Name:") [32%N] y [] eq_refl eq_refl Hne Hlt I Hh
                (first_site_start _ _ _)) as Hm.
  rewrite app_nil_r in Hm.
  match type of Hm with
  | match_ ?t _ = _ => change (lit "Name: " ++ y) with t
  end.
  rewrite Hm. reflexivity.
Qed.

Lemma step_platform_line (devices : list DeviceInfo) (cur : DeviceInfo)
      (z : str) :
  plain_value z -> truthy_opt (identifier cur) = true ->
  legacy_step (devices, cur) (lit "Platform: " ++ z)
  = (devices, with_platform cur z).
Proof.
  intros [Hne [[Hh He] [Hlt Hcol]]] Hopen. unfold legacy_step.
  rewrite (trim_trimmed (lit "Platform: " ++ z))
    by (apply trimmed_app; [discriminate | reflexivity | assumption | assumption]).
  assert (Hid : match_ (lit "Platform: " ++ z) identifierRegex = None).
  { unfold match_. rewrite identifier_body. cbn [ignoreCase identifierRegex].
    change (lit "Platform: " ++ z)
      with (80 :: 108 :: 97 :: 116 :: 102 :: 111 :: 114 :: 109 :: 58 :: 32 :: z)%N.
    do 10 (rewrite exec_from_skip by reflexivity).
    now rewrite exec_labelled_no_colon. }
  assert (Hname : match_ (lit "Platform: " ++ z) nameRegex = None).
  { unfold match_. rewrite name_body. cbn [ignoreCase nameRegex].
    change (lit "Platform: " ++ z)
      with (80 :: 108 :: 97 :: 116 :: 102 :: 111 :: 114 :: 109 :: 58 :: 32 :: z)%N.
    do 10 (rewrite exec_from_skip by reflexivity).
    now rewrite exec_labelled_no_colon. }
  rewrite Hid, Hopen, Hname.
  pose proof (match_labelled_intro "Platform:" Dot platformRegex platform_body
                eq_refl [] (lit "Platform:") [32%N] z [] eq_refl eq_refl Hne
                Hlt I Hh (first_site_start _ _ _)) as Hm.
  rewrite app_nil_r in Hm.
  match type of Hm with
  | match_ ?t _ = _ => change (lit "Platform: " ++ z) with t
  end.
  rewrite Hm. reflexivity.
Qed.

End LegacySteps.

(* ===================================================================== *)
(** ** Legacy device listings                                             *)
(* ===================================================================== *)

Section LegacyParsing.
Import Js Regex Words DeviceManager.

Lemma truthy_nonempty (s : str) : s <> [] -> truthy s = true.
Proof. destruct s; [congruence | reflexivity]. Qed.

Lemma block_lines (x1 y1 z1 x2 y2 z2 : str) :
  hex_run x1 -> plain_value y1 -> plain_value z1 ->
  hex_run x2 -> plain_value y2 -> plain_value z2 ->
  split newline (legacy_block x1 y1 z1 ++ [newline] ++ legacy_block x2 y2 z2)
  = [lit "Identifier: " ++ x1; lit "Name: " ++ y1; lit "Platform: " ++ z1;
     lit "Identifier: " ++ x2; lit "Name: " ++ y2; lit "Platform: " ++ z2].
Proof.
  intros [_ Hx1] [_ [_ [Hy1 _]]] [_ [_ [Hz1 _]]]
         [_ Hx2] [_ [_ [Hy2 _]]] [_ [_ [Hz2 _]]].
  assert (Hid : forall x, all is_hex_or_hyphen x ->
                          all not_newline (lit "Identifier: " ++ x)).
  { intros x Hx. apply all_app. split; [reflexivity|].
    exact (all_impl _ _ x hex_not_newline Hx). }
  assert (Hfield : forall (l : string) y, all not_newline (lit l) ->
                     all not_line_terminator y -> all not_newline (lit l ++ y)).
  { intros l y Hl Hy. apply all_app. split; [exact Hl|].
    exact (all_impl _ _ y terminator_not_newline Hy). }
  replace (legacy_block x1 y1 z1 ++ [newline] ++ legacy_block x2 y2 z2)
    with ((lit "Identifier: " ++ x1) ++ newline ::
          (lit "Name: " ++ y1) ++ newline ::
          (lit "Platform: " ++ z1) ++ newline ::
          (lit "Identifier: " ++ x2) ++ newline ::
          (lit "Name: " ++ y2) ++ newline :: (lit "Platform: " ++ z2))
    by (unfold legacy_block; repeat rewrite <- app_assoc; reflexivity).
  rewrite !split_first_line, split_one_line; auto.
  all: apply Hfield; auto; reflexivity.
Qed.

(** C3, counterexample: the identifier line [Identifier: 00008030-001A (USB)]
    gives a record whose identifier is [00008030-001A], not the trimmed
    remainder of the line after the colon. *)
Lemma legacy_identifier_not_remainder :
  map identifier
      (parseDeviceOutputLegacy (lit "Identifier: 00008030-001A (USB)"))
  = [Some (lit "00008030-001A")]
  /\ lit "00008030-001A" <> trim (lit " 00008030-001A (USB)").
Proof. split; [vm_compute; reflexivity | vm_compute; discriminate]. Qed.

(** C3, amended: on a line that has an identifier site, what is stored as
    identifier is a run of hexadecimal digits and hyphens read after the
    label and optional white space, cut where the run ends.  On any other
    line, with a record open, the first of the labels [Name:],
    [Platform:], [Connection Type:] that has a site on the line stores the
    rest of the trimmed line after the label and the white space that
    follows it, up to the first line terminator.  Labels are compared without
    regard to case. *)
Theorem legacy_stored_values (devices : list DeviceInfo) (cur : DeviceInfo)
        (line : str) :
  let t := trim line in
  (has_site "Identifier:" is_hex_or_hyphen t ->
   exists v, value_after "Identifier:" is_hex_or_hyphen t v
     /\ legacy_step (devices, cur) line = (flush devices cur, opened v))
  /\ (~ has_site "Identifier:" is_hex_or_hyphen t ->
      truthy_opt (identifier cur) = true ->
      (has_site "Name:" not_line_terminator t ->
       exists v, value_after "Name:" not_line_terminator t v
         /\ legacy_step (devices, cur) line = (devices, with_name cur v))
      /\ (~ has_site "Name:" not_line_terminator t ->
          has_site "Platform:" not_line_terminator t ->
          exists v, value_after "Platform:" not_line_terminator t v
            /\ legacy_step (devices, cur) line
               = (devices, with_platform cur v))
      /\ (~ has_site "Name:" not_line_terminator t ->
          ~ has_site "Platform:" not_line_terminator t ->
          has_site "Connection Type:" not_line_terminator t ->
          exists v, value_after "Connection Type:" not_line_terminator t v
            /\ legacy_step (devices, cur) line
               = (devices, with_connectionType cur v))).
Proof.
  intros t.
  assert (Hend : stops is_white (rev t)) by apply (trim_is_trimmed line).
  split.
  - intros Hs. destruct (identifier_match t Hs) as [m [Hm Hv]].
    exists (group m 1). split; [exact Hv|].
    unfold legacy_step. fold t. rewrite Hm. reflexivity.
  - intros Hno Hopen. pose proof (identifier_no_match t Hno) as Hid.
    split; [|split].
    + intros Hs.
      destruct (field_match "Name:" nameRegex t name_body eq_refl Hend Hs)
        as [m [Hm Hv]].
      exists (group m 1). split; [exact Hv|].
      unfold legacy_step. fold t. rewrite Hid, Hopen, Hm. reflexivity.
    + intros Hn Hs.
      pose proof (field_no_match "Name:" nameRegex t name_body eq_refl Hn) as Hname.
      destruct (field_match "Platform:" platformRegex t platform_body eq_refl
                            Hend Hs) as [m [Hm Hv]].
      exists (group m 1). split; [exact Hv|].
      unfold legacy_step. fold t. rewrite Hid, Hopen, Hname, Hm. reflexivity.
    + intros Hn Hp Hs.
      pose proof (field_no_match "Name:" nameRegex t name_body eq_refl Hn) as Hname.
      pose proof (field_no_match "Platform:" platformRegex t platform_body
                                 eq_refl Hp) as Hplat.
      destruct (field_match "Connection Type:" connectionRegex t
                            connection_body eq_refl Hend Hs) as [m [Hm Hv]].
      exists (group m 1). split; [exact Hv|].
      unfold legacy_step. fold t. rewrite Hid, Hopen, Hname, Hplat, Hm.
      reflexivity.
Qed.

Lemma no_match_no_identifier_site (t : str) :
  match_ t identifierRegex = None ->
  ~ has_site "Identifier:" is_hex_or_hyphen t.
Proof.
  intros E Hs. destruct (identifier_match t Hs) as [m [Hm _]]. congruence.
Qed.

(** The statement above on two lines: an identifier line with text after the
    run, and a name line met with a record open. *)
Lemma legacy_stored_values_witness :
  (exists v,
      value_after "Identifier:" is_hex_or_hyphen
                  (trim (lit "  Identifier: 00008030-001A (USB)")) v
      /\ legacy_step ([], empty_device)
                     (lit "  Identifier: 00008030-001A (USB)")
         = ([], opened v))
  /\ (exists v,
         value_after "Name:" not_line_terminator
                     (trim (lit "Name:   My iPhone ")) v
         /\ legacy_step ([], opened (lit "AB12")) (lit "Name:   My iPhone ")
            = ([], with_name (opened (lit "AB12")) v)).
Proof.
  split.
  - apply (proj1 (legacy_stored_values [] empty_device
                    (lit "  Identifier: 00008030-001A (USB)"))).
    exists [], (lit "Identifier:"), [32%N], 48%N, (lit "0008030-001A (USB)").
    repeat split; reflexivity.
  - apply (proj1 (proj2 (legacy_stored_values [] (opened (lit "AB12"))
                           (lit "Name:   My iPhone "))
                        (no_match_no_identifier_site
                           (trim (lit "Name:   My iPhone ")) eq_refl)
                        eq_refl)).
    exists [], (lit "Name:"), (lit "   "), 77%N, (lit "y iPhone").
    repeat split; reflexivity.
Defined.

(** C7, counterexample: two blocks whose identifier lines read
    [Identifier: 00008030-001A.local] and
    [Identifier: Kims-iPad.coredevice.local] give one record, not two: the
    second line opens nothing, its label being followed by a [K], and the
    name and platform of the second block are written over those of the
    first. *)
Lemma legacy_blocks_merged :
  parseDeviceOutputLegacy
    (legacy_block (lit "00008030-001A.local") (lit "My iPhone") (lit "iOS")
     ++ [newline]
     ++ legacy_block (lit "Kims-iPad.coredevice.local") (lit "iPad Pro")
                     (lit "iPadOS"))
  = [ {| identifier := Some (lit "00008030-001A");
         name := Some (lit "iPad Pro");
         platform := Some (lit "iPadOS");
         connectionType := None |} ].
Proof. vm_compute. reflexivity. Qed.

(** C7, amended: a line is an identifier line when its trimmed text has the
    label [Identifier:] followed by optional white space and a hexadecimal
    digit or a hyphen.  Such a line flushes the open record and opens a
    fresh one; any other line leaves the result array alone, keeps the
    identifier of the open record and does nothing when no record is open;
    the record still open after the last line is flushed.  Hence two blocks
    of an identifier line, a name line and a platform line give two records,
    in order, each with the values of its own block, when each identifier
    is a run of hexadecimal digits and hyphens that is not empty and each
    name and platform is not empty, has no white space at either end, no
    line terminator and no colon. *)
Theorem legacy_record_boundaries :
  (forall devices cur line,
      has_site "Identifier:" is_hex_or_hyphen (trim line) ->
      exists v, v <> []
        /\ legacy_step (devices, cur) line = (flush devices cur, opened v))
  /\ (forall devices cur line,
         ~ has_site "Identifier:" is_hex_or_hyphen (trim line) ->
         fst (legacy_step (devices, cur) line) = devices
         /\ identifier (snd (legacy_step (devices, cur) line)) = identifier cur
         /\ (truthy_opt (identifier cur) = false ->
             legacy_step (devices, cur) line = (devices, cur)))
  /\ (forall output,
         parseDeviceOutputLegacy output
         = flush (fst (fold_left legacy_step (split newline output)
                                 ([], empty_device)))
                 (snd (fold_left legacy_step (split newline output)
                                 ([], empty_device))))
  /\ (forall x1 y1 z1 x2 y2 z2,
         hex_run x1 -> plain_value y1 -> plain_value z1 ->
         hex_run x2 -> plain_value y2 -> plain_value z2 ->
         parseDeviceOutputLegacy
           (legacy_block x1 y1 z1 ++ [newline] ++ legacy_block x2 y2 z2)
         = [block_record x1 y1 z1; block_record x2 y2 z2]).
Proof.
  split; [|split; [|split]].
  - intros devices cur line Hs.
    destruct (identifier_match (trim line) Hs) as [m [Hm Hv]].
    exists (group m 1). split.
    + destruct Hv as [pre [lab [ws [post [_ [_ [_ [Hne _]]]]]]]]. exact Hne.
    + unfold legacy_step. rewrite Hm. reflexivity.
  - intros devices cur line Hno.
    pose proof (identifier_no_match (trim line) Hno) as Hid.
    unfold legacy_step. rewrite Hid.
    destruct (truthy_opt (identifier cur)) eqn:Hopen.
    + destruct (match_ (trim line) nameRegex);
        [|destruct (match_ (trim line) platformRegex);
          [|destruct (match_ (trim line) connectionRegex)]];
        repeat split; try reflexivity; discriminate.
    + repeat split; reflexivity.
  - intros output. unfold parseDeviceOutputLegacy.
    destruct (fold_left legacy_step (split newline output) ([], empty_device)).
    reflexivity.
  - intros x1 y1 z1 x2 y2 z2 Hx1 Hy1 Hz1 Hx2 Hy2 Hz2.
    unfold parseDeviceOutputLegacy.
    rewrite (block_lines x1 y1 z1 x2 y2 z2 Hx1 Hy1 Hz1 Hx2 Hy2 Hz2).
    cbn [fold_left].
    assert (Ht1 : truthy x1 = true) by (apply truthy_nonempty; apply Hx1).
    assert (Ht2 : truthy x2 = true) by (apply truthy_nonempty; apply Hx2).
    rewrite (step_identifier_line _ _ x1 Hx1).
    rewrite (step_name_line _ _ y1 Hy1) by exact Ht1.
    rewrite (step_platform_line _ _ z1 Hz1) by exact Ht1.
    rewrite (step_identifier_line _ _ x2 Hx2).
    rewrite (step_name_line _ _ y2 Hy2) by exact Ht2.
    rewrite (step_platform_line _ _ z2 Hz2) by exact Ht2.
    unfold flush. cbn [identifier with_platform with_name opened truthy_opt
                       empty_device].
    rewrite Ht1, Ht2. reflexivity.
Qed.

(** Two blocks as a listing prints them. *)
Lemma legacy_record_boundaries_witness :
  parseDeviceOutputLegacy
    (legacy_block (lit "00008030-001A") (lit "My iPhone") (lit "iOS")
     ++ [newline]
     ++ legacy_block (lit "AB8A73D5-2572") (lit "iPad Pro") (lit "iPadOS"))
  = [block_record (lit "00008030-001A") (lit "My iPhone") (lit "iOS");
     block_record (lit "AB8A73D5-2572") (lit "iPad Pro") (lit "iPadOS")].
Proof.
  apply (proj2 (proj2 (proj2 legacy_record_boundaries))).
  all: repeat split; try discriminate; reflexivity.
Defined.

End LegacyParsing.

(* ===================================================================== *)
(** ** Tabular device listings                                            *)
(* ===================================================================== *)

Section TabularParsing.
Import Js Regex Words DeviceManager.

(** C6: the platform is the one of the first keyword, in the order iPhone,
    iPad, Watch, Apple TV, Mac, that occurs in the model text, compared code
    unit by code unit, and Unknown when none occurs. *)
Theorem platform_from_model (model : str) :
  (contains model (lit "iPhone") ->
   extractPlatformFromModel model = lit "iOS")
  /\ (~ contains model (lit "iPhone") -> contains model (lit "iPad") ->
      extractPlatformFromModel model = lit "iPadOS")
  /\ (~ contains model (lit "iPhone") -> ~ contains model (lit "iPad") ->
      contains model (lit "Watch") ->
      extractPlatformFromModel model = lit "watchOS")
  /\ (~ contains model (lit "iPhone") -> ~ contains model (lit "iPad") ->
      ~ contains model (lit "Watch") -> contains model (lit "Apple TV") ->
      extractPlatformFromModel model = lit "tvOS")
  /\ (~ contains model (lit "iPhone") -> ~ contains model (lit "iPad") ->
      ~ contains model (lit "Watch") -> ~ contains model (lit "Apple TV") ->
      contains model (lit "Mac") ->
      extractPlatformFromModel model = lit "macOS")
  /\ (~ contains model (lit "iPhone") -> ~ contains model (lit "iPad") ->
      ~ contains model (lit "Watch") -> ~ contains model (lit "Apple TV") ->
      ~ contains model (lit "Mac") ->
      extractPlatformFromModel model = lit "Unknown").
Proof.
  unfold extractPlatformFromModel.
  repeat split; intros;
    repeat match goal with
    | H : contains _ _ |- _ => apply includes_spec in H; rewrite H
    | H : ~ contains _ _ |- _ => apply includes_false in H; rewrite H
    end; reflexivity.
Qed.

(** A model text with two keywords, and one whose keyword is in lower case. *)
Lemma platform_from_model_witness :
  extractPlatformFromModel (lit "Apple Watch for iPad") = lit "iPadOS"
  /\ extractPlatformFromModel (lit "iphone 15 pro") = lit "Unknown".
Proof.
  split.
  - apply (proj1 (proj2 (platform_from_model (lit "Apple Watch for iPad")))).
    + apply includes_false. reflexivity.
    + exists (lit "Apple Watch for "), []. reflexivity.
  - apply (proj2 (proj2 (proj2 (proj2 (proj2
             (platform_from_model (lit "iphone 15 pro")))))));
      apply includes_false; reflexivity.
Defined.

(** *** The search for the header *)

Lemma find_header_first (before after : list str) (hdr : str) (i : Z) :
  Forall (fun l => is_header_line l = false) before ->
  is_header_line hdr = true ->
  find_header (before ++ hdr :: after) i
  = {| headerLineIndex := i + Z.of_nat (length before);
       nameColStart := indexOf hdr (lit "Name");
       identifierColStart := indexOf hdr (lit "Identifier");
       stateColStart := indexOf hdr (lit "State");
       modelColStart := indexOf hdr (lit "Model") |}.
Proof.
  intros Hb Hh. revert i. induction Hb as [|l before Hl Hb IH]; intros i.
  - simpl. rewrite Hh. now rewrite Z.add_0_r.
  - simpl find_header. rewrite Hl, IH. f_equal. simpl length. lia.
Qed.

(** *** The rows *)

Lemma all_firstn (p : char -> bool) (n : nat) (s : str) :
  all p s -> all p (firstn n s).
Proof.
  intros H. rewrite <- (firstn_skipn n s) in H. now apply all_app in H.
Qed.

Lemma all_skipn (p : char -> bool) (n : nat) (s : str) :
  all p s -> all p (skipn n s).
Proof.
  intros H. rewrite <- (firstn_skipn n s) in H. now apply all_app in H.
Qed.

(** A slice of a blank line is blank. *)
Lemma blank_slice (line : str) (a b : Z) :
  trim line = [] -> trim (substring line a b) = [].
Proof.
  intros H. apply trim_all_white. unfold substring.
  apply all_firstn, all_skipn. exact (trim_nil_white line H).
Qed.

Lemma device_step_row (h : header) (hdr : str) (devices : list DeviceInfo)
      (line : str) :
  nameColStart h = indexOf hdr (lit "Name") ->
  identifierColStart h = indexOf hdr (lit "Identifier") ->
  stateColStart h = indexOf hdr (lit "State") ->
  modelColStart h = indexOf hdr (lit "Model") ->
  device_step h devices line = devices ++ tabular_row hdr line.
Proof.
  intros H1 H2 H3 H4. unfold device_step, tabular_row, row_record,
    identifier_slice.
  rewrite H1, H2, H3, H4.
  destruct (trim line) as [|c t] eqn:Et; simpl truthy; cbn [negb].
  - rewrite (blank_slice line _ _ Et). simpl. now rewrite app_nil_r.
  - destruct (trim (substring line (indexOf hdr (lit "Identifier"))
                              (indexOf hdr (lit "State")))) as [|x xs] eqn:Eid.
    + simpl. now rewrite app_nil_r.
    + cbn [truthy andb].
      destruct (10 <? length (x :: xs)); [|now rewrite app_nil_r].
      destruct (trim (substring line (indexOf hdr (lit "Name"))
                                (indexOf hdr (lit "Identifier"))));
        reflexivity.
Qed.

Lemma fold_rows (h : header) (hdr : str) (rows : list str)
      (devices : list DeviceInfo) :
  nameColStart h = indexOf hdr (lit "Name") ->
  identifierColStart h = indexOf hdr (lit "Identifier") ->
  stateColStart h = indexOf hdr (lit "State") ->
  modelColStart h = indexOf hdr (lit "Model") ->
  fold_left (device_step h) rows devices
  = devices ++ flat_map (tabular_row hdr) rows.
Proof.
  intros H1 H2 H3 H4. revert devices.
  induction rows as [|line rows IH]; intros devices; simpl.
  - now rewrite app_nil_r.
  - rewrite (device_step_row h hdr devices line H1 H2 H3 H4), IH.
    now rewrite <- app_assoc.
Qed.

Lemma tabular_output (output : str) (before after : list str) (hdr : str) :
  split newline output = before ++ hdr :: after ->
  Forall (fun l => is_header_line l = false) before ->
  is_header_line hdr = true ->
  parseDeviceOutput output = flat_map (tabular_row hdr) (tl after).
Proof.
  intros Hs Hb Hh. unfold parseDeviceOutput.
  rewrite Hs, (find_header_first before after hdr 0 Hb Hh).
  cbn [headerLineIndex].
  destruct (Z.eqb_spec (0 + Z.of_nat (length before)) (-1)) as [E|_]; [lia|].
  replace (Z.to_nat (0 + Z.of_nat (length before) + 2))
    with (length before + 2) by lia.
  rewrite skipn_app, skipn_all2 by lia.
  replace (length before + 2 - length before) with 2 by lia.
  rewrite (fold_rows _ hdr) by reflexivity.
  destruct after as [|sep rows]; reflexivity.
Qed.

(** C1, counterexample: a header line directly followed by a data row whose
    identifier slice has 36 characters gives no record at all. *)
Lemma tabular_row_below_header_skipped :
  is_header_line sample_header = true
  /\ length (identifier_slice sample_header sample_row) = 36
  /\ parseDeviceOutput (sample_header ++ [newline] ++ sample_row) = [].
Proof. vm_compute. repeat split. Qed.

(** C1, amended: the line just below the header line is skipped, as the
    separator of the table, and every line after it contributes on its own:
    one record, read at the columns where the four labels first occur in the
    header line, when its identifier slice, trimmed, has more than 10
    characters, and nothing otherwise (a blank line has a blank slice).  In
    particular a header line, one more line and one data row whose
    identifier slice has 11 characters or more give exactly the record of
    that row.  The column of a label is the offset of its first occurrence
    in the header line. *)
Theorem tabular_rows_below_separator :
  (forall output before after hdr,
      split newline output = before ++ hdr :: after ->
      Forall (fun l => is_header_line l = false) before ->
      is_header_line hdr = true ->
      parseDeviceOutput output = flat_map (tabular_row hdr) (tl after))
  /\ (forall hdr sep row,
         all not_newline hdr -> all not_newline sep -> all not_newline row ->
         is_header_line hdr = true ->
         11 <= length (identifier_slice hdr row) ->
         parseDeviceOutput (hdr ++ [newline] ++ sep ++ [newline] ++ row)
         = [row_record hdr row])
  /\ (forall hdr label pre post,
         hdr = pre ++ label ++ post ->
         (forall pre' post',
             hdr = pre' ++ label ++ post' -> length pre <= length pre') ->
         indexOf hdr label = Z.of_nat (length pre)).
Proof.
  split; [|split].
  3: { intros hdr label pre post Hh Hmin.
       exact (indexOf_from_first label hdr 0 pre post Hh Hmin). }
  - exact tabular_output.
  - intros hdr sep row Hh Hs Hr Hhdr Hid.
    rewrite (tabular_output _ [] [sep; row] hdr).
    + simpl. unfold tabular_row.
      destruct (Nat.ltb_spec 10 (length (identifier_slice hdr row)));
        [reflexivity | lia].
    + change (hdr ++ [newline] ++ sep ++ [newline] ++ row)
        with (hdr ++ newline :: sep ++ newline :: row).
      now rewrite !split_first_line, split_one_line.
    + constructor.
    + exact Hhdr.
Qed.

(** A table as the tool prints it, the columns of the row being those of the
    header. *)
Lemma tabular_rows_below_separator_witness :
  parseDeviceOutput
    (sample_header
     ++ [newline]
     ++ sample_separator
     ++ [newline]
     ++ sample_row)
  = [ {| identifier := Some (lit "9ABF9F72-7AAF-5C9E-BDD3-0A781FD70C58");
         name := Some (lit "My iPhone");
         platform := Some (lit "iOS");
         connectionType := Some (lit "available") |} ].
Proof.
  apply (proj1 (proj2 tabular_rows_below_separator)
           sample_header sample_separator sample_row).
  - reflexivity.
  - reflexivity.
  - reflexivity.
  - reflexivity.
  - vm_compute. lia.
Defined.

(** *** Every record has an identifier *)

Lemma identified_truthy (d : DeviceInfo) :
  truthy_opt (identifier d) = true <-> identified d.
Proof.
  unfold identified. destruct (identifier d) as [[|c s]|]; simpl; split.
  - discriminate.
  - intros [s [H Hne]]. injection H as <-. congruence.
  - intros _. exists (c :: s). split; [reflexivity | discriminate].
  - reflexivity.
  - discriminate.
  - intros [s [H _]]. discriminate.
Qed.

Lemma flush_identified (devices : list DeviceInfo) (cur : DeviceInfo) :
  Forall identified devices -> Forall identified (flush devices cur).
Proof.
  intros H. unfold flush. destruct (truthy_opt (identifier cur)) eqn:E; [|exact H].
  apply Forall_app. split; [exact H|]. constructor; [|constructor].
  now apply identified_truthy.
Qed.

Lemma legacy_step_identified (st : legacy_state) (line : str) :
  Forall identified (fst st) -> Forall identified (fst (legacy_step st line)).
Proof.
  destruct st as [devices cur]. simpl fst. intros H. unfold legacy_step.
  destruct (match_ (trim line) identifierRegex).
  - simpl. now apply flush_identified.
  - destruct (truthy_opt (identifier cur)); [|exact H].
    destruct (match_ (trim line) nameRegex); [exact H|].
    destruct (match_ (trim line) platformRegex); [exact H|].
    destruct (match_ (trim line) connectionRegex); exact H.
Qed.

Lemma legacy_fold_identified (lines : list str) (st : legacy_state) :
  Forall identified (fst st) ->
  Forall identified (fst (fold_left legacy_step lines st)).
Proof.
  revert st. induction lines as [|line lines IH]; intros st H; simpl.
  - exact H.
  - apply IH. now apply legacy_step_identified.
Qed.

Lemma legacy_identified (output : str) :
  Forall identified (parseDeviceOutputLegacy output).
Proof.
  unfold parseDeviceOutputLegacy.
  pose proof (legacy_fold_identified (split newline output) ([], empty_device)
                                     (Forall_nil _)) as H.
  destruct (fold_left legacy_step (split newline output) ([], empty_device))
    as [devices cur].
  now apply flush_identified.
Qed.

Lemma device_step_identified (h : header) (devices : list DeviceInfo)
      (line : str) :
  Forall identified devices -> Forall identified (device_step h devices line).
Proof.
  intros H. unfold device_step.
  destruct (negb (truthy (trim line))); [exact H|].
  destruct (truthy (trim (substring line (identifierColStart h)
                                    (stateColStart h)))) eqn:E;
    cbn [andb]; [|exact H].
  destruct (10 <? _); [|exact H].
  apply Forall_app. split; [exact H|]. constructor; [|constructor].
  apply identified_truthy. exact E.
Qed.

Lemma device_fold_identified (h : header) (rows : list str)
      (devices : list DeviceInfo) :
  Forall identified devices ->
  Forall identified (fold_left (device_step h) rows devices).
Proof.
  revert devices. induction rows as [|line rows IH]; intros devices H; simpl.
  - exact H.
  - apply IH. now apply device_step_identified.
Qed.

(** C9: every record returned by device parsing, on either path and for any
    text, has an identifier that is a string and is not empty. *)
Theorem device_records_identified (output : str) (d : DeviceInfo) :
  (In d (parseDeviceOutput output) -> identified d)
  /\ (In d (parseDeviceOutputLegacy output) -> identified d).
Proof.
  split; intros H.
  - unfold parseDeviceOutput in H.
    destruct (headerLineIndex (find_header (split newline output) 0) =? -1)%Z.
    + exact (proj1 (Forall_forall _ _) (legacy_identified output) d H).
    + exact (proj1 (Forall_forall _ _)
                   (device_fold_identified _ _ [] (Forall_nil _)) d H).
  - exact (proj1 (Forall_forall _ _) (legacy_identified output) d H).
Qed.

(** A record of the legacy path and the record of a table. *)
Lemma device_records_identified_witness :
  identified (opened (lit "AB12"))
  /\ identified
       (row_record
          sample_header
          sample_row).
Proof.
  split.
  - apply (proj2 (device_records_identified (lit "Identifier: AB12") _)).
    vm_compute. now left.
  - apply (proj1 (device_records_identified
                    (sample_header
                     ++ [newline] ++ sample_separator ++ [newline]
                     ++ sample_row)
                    _)).
    vm_compute. now left.
Defined.

End TabularParsing.

(* ===================================================================== *)
(** ** Process listings                                                   *)
(* ===================================================================== *)

Section ApplicationParsing.
Import Js Regex Words DeviceManager.

Lemma run_plus_found (ic : bool) (a : atom) (r : list node) (i : Z)
      (m : list Z) (v b : str) :
  v <> [] -> all (atom_matches ic a) v ->
  run ic r b (i + Z.of_nat (length v))%Z m <> None ->
  run ic (Plus a :: r) (v ++ b) i m <> None.
Proof.
  intros Hne Hv Hk E. destruct v as [|c v]; [congruence|].
  apply all_cons in Hv as [Hc Hv]. simpl in E. rewrite Hc in E.
  apply Hk. rewrite <- (greedy_none _ _ _ _ _ E v b eq_refl Hv).
  f_equal. simpl length. lia.
Qed.

Lemma bundle_body :
  body bundleRegex
  = map (fun c => One (Lit c)) (lit "Bundle/Application/")
    ++ Open :: Plus slash_free :: Close
       :: map (fun c => One (Lit c)) (lit "/")
       ++ Open :: Plus slash_free
          :: map (fun c => One (Lit c)) (lit ".app") ++ [Close].
Proof. reflexivity. Qed.

Lemma slash_free_all (ic : bool) (s : str) :
  all (atom_matches ic slash_free) s <-> all not_slash s.
Proof. apply all_ext. apply class_not_slash. Qed.

(** A match of the bundle expression at the head of [s]. *)
Lemma run_bundle_some (s : str) (i : Z) (marks : list Z) (j : Z) :
  run false (body bundleRegex) s i [] = Some (marks, j) ->
  exists b a post,
    s = lit "Bundle/Application/" ++ b ++ lit "/" ++ a ++ lit ".app" ++ post
    /\ b <> [] /\ all not_slash b /\ a <> [] /\ all not_slash a
    /\ marks = [(i + 19 + Z.of_nat (length b) + 1 + Z.of_nat (length a) + 4)%Z;
                (i + 19 + Z.of_nat (length b) + 1)%Z;
                (i + 19 + Z.of_nat (length b))%Z;
                (i + 19)%Z]
    /\ j = (i + 19 + Z.of_nat (length b) + 1 + Z.of_nat (length a) + 4)%Z.
Proof.
  rewrite bundle_body. intros H.
  apply run_lits_cs in H as [s1 [-> H]].
  rewrite run_open in H.
  apply run_plus_some in H as [b [s2 [-> [Hb [Hbs [H _]]]]]].
  rewrite run_close in H.
  apply run_lits_cs in H as [s3 [-> H]].
  rewrite run_open in H.
  apply run_plus_some in H as [a [s4 [-> [Ha [Has [H _]]]]]].
  apply run_lits_cs in H as [post [-> H]].
  rewrite run_close, run_end in H. injection H as <- <-.
  exists b, a, post. apply slash_free_all in Hbs, Has.
  repeat split; auto.
Qed.

(** The bundle expression matches at the head of a fragment. *)
Lemma run_bundle_found (i : Z) (b a post : str) :
  b <> [] -> all not_slash b -> a <> [] -> all not_slash a ->
  run false (body bundleRegex)
      (lit "Bundle/Application/" ++ b ++ lit "/" ++ a ++ lit ".app" ++ post)
      i [] <> None.
Proof.
  intros Hb Hbs Ha Has. rewrite bundle_body.
  apply (slash_free_all false) in Hbs, Has.
  assert (Hin : forall i m,
             run false (Plus slash_free
                        :: map (fun c => One (Lit c)) (lit ".app") ++ [Close])
                 (a ++ lit ".app" ++ post) i m <> None).
  { intros i0 m. apply run_plus_found; auto.
    intros E.
    assert (Hsome : run false (map (fun c => One (Lit c)) (lit ".app") ++ [Close])
                        (lit ".app" ++ post) (i0 + Z.of_nat (length a)) m
                    = Some (((i0 + Z.of_nat (length a)
                              + Z.of_nat (length (lit ".app")))%Z :: m),
                            (i0 + Z.of_nat (length a)
                             + Z.of_nat (length (lit ".app")))%Z)).
    { apply run_lits_cs. exists post. split; reflexivity. }
    congruence. }
  destruct (run false (Plus slash_free
                       :: map (fun c => One (Lit c)) (lit ".app") ++ [Close])
                (a ++ lit ".app" ++ post)
                (i + Z.of_nat (length (lit "Bundle/Application/"))
                 + Z.of_nat (length b) + Z.of_nat (length (lit "/")))
                [(i + Z.of_nat (length (lit "Bundle/Application/"))
                  + Z.of_nat (length b) + Z.of_nat (length (lit "/")))%Z;
                 (i + Z.of_nat (length (lit "Bundle/Application/"))
                  + Z.of_nat (length b))%Z;
                 (i + Z.of_nat (length (lit "Bundle/Application/")))%Z])
    as [o|] eqn:E; [|exfalso; exact (Hin _ _ E)].
  assert (Hsome : run false
            (map (fun c => One (Lit c)) (lit "Bundle/Application/")
             ++ Open :: Plus slash_free :: Close
                :: map (fun c => One (Lit c)) (lit "/")
                ++ Open :: Plus slash_free
                   :: map (fun c => One (Lit c)) (lit ".app") ++ [Close])
            (lit "Bundle/Application/" ++ b ++ lit "/" ++ a ++ lit ".app" ++ post)
            i [] = Some o).
  { apply run_lits_cs. eexists. split; [reflexivity|].
    rewrite run_open.
    apply run_plus_maximal; [exact Hb | exact Hbs | reflexivity |].
    rewrite run_close. apply run_lits_cs. eexists. split; [reflexivity|].
    rewrite run_open. exact E. }
  congruence.
Qed.

Lemma match_bundle_some (t : str) (m : list str) :
  match_ t bundleRegex = Some m ->
  exists b a, fragment t b a /\ group m 1 = b /\ group m 2 = a ++ lit ".app".
Proof.
  unfold match_.
  change (ignoreCase bundleRegex) with false.
  destruct (exec_from false (body bundleRegex) t 0) as [[st [marks j]]|] eqn:E;
    [|discriminate].
  intros H. injection H as <-.
  apply exec_from_some in E as [pre [suf [-> [-> [H _]]]]].
  apply run_bundle_some in H
    as [b [a [post [-> [Hb [Hbs [Ha [Has [-> ->]]]]]]]]].
  exists b, a. split; [|split].
  - exists pre, post. repeat split; auto.
  - cbn [rev app groups group nth].
    replace (pre ++ lit "Bundle/Application/" ++ b ++ lit "/" ++ a
                 ++ lit ".app" ++ post)
      with ((pre ++ lit "Bundle/Application/") ++ b
            ++ (lit "/" ++ a ++ lit ".app" ++ post))
      by now rewrite <- !app_assoc.
    apply substring_mid_Z; rewrite ?length_app;
      change (length (lit "Bundle/Application/")) with 19; lia.
  - cbn [rev app groups group nth].
    replace (pre ++ lit "Bundle/Application/" ++ b ++ lit "/" ++ a
                 ++ lit ".app" ++ post)
      with ((pre ++ lit "Bundle/Application/" ++ b ++ lit "/")
            ++ (a ++ lit ".app") ++ post)
      by now rewrite <- !app_assoc.
    apply substring_mid_Z; rewrite ?length_app;
      change (length (lit "Bundle/Application/")) with 19;
      change (length (lit "/")) with 1; change (length (lit ".app")) with 4;
      lia.
Qed.

Lemma match_bundle_found (t : str) :
  has_fragment t -> match_ t bundleRegex <> None.
Proof.
  intros [b [a [pre [post [-> [Hb [Hbs [Ha Has]]]]]]]]. unfold match_.
  change (ignoreCase bundleRegex) with false.
  destruct (run false (body bundleRegex)
                (lit "Bundle/Application/" ++ b ++ lit "/" ++ a ++ lit ".app"
                     ++ post) (0 + Z.of_nat (length pre)) []) as [o|] eqn:E.
  - pose proof (exec_from_found false _ 0 o pre _ E) as Hf.
    destruct (exec_from false (body bundleRegex) _ 0) as [[st [marks j]]|];
      [discriminate | congruence].
  - exfalso. exact (run_bundle_found _ b a post Hb Hbs Ha Has E).
Qed.

Lemma str_eqb_eq (a b : str) : str_eqb a b = true <-> a = b.
Proof.
  unfold str_eqb. destruct (list_eq_dec N.eq_dec a b); split; congruence.
Qed.

Lemma find_bundle_In (applications : list ApplicationInfo) (b : str) :
  find_bundle applications b = true <-> In b (map bundleId applications).
Proof.
  unfold find_bundle. rewrite existsb_exists, in_map_iff. split.
  - intros [app [Hin Heq]]. apply str_eqb_eq in Heq. now exists app.
  - intros [app [Heq Hin]]. exists app. split; [exact Hin|].
    now apply str_eqb_eq.
Qed.

(** A step keeps the bundle identifiers distinct. *)
Lemma application_step_NoDup (applications : list ApplicationInfo)
      (line : str) :
  NoDup (map bundleId applications) ->
  NoDup (map bundleId (application_step applications line)).
Proof.
  intros H. unfold application_step.
  destruct (negb (truthy (trim line))); [exact H|].
  destruct (match_ (trim line) bundleRegex) as [m|]; [|exact H].
  destruct (find_bundle applications (group m 1)) eqn:E; cbn [negb]; [exact H|].
  rewrite map_app. cbn [map bundleId].
  apply NoDup_app; [exact H | constructor; [intros []|constructor] |].
  intros x Hx [<-|[]].
  apply find_bundle_In in Hx. congruence.
Qed.

Lemma application_fold_NoDup (lines : list str)
      (applications : list ApplicationInfo) :
  NoDup (map bundleId applications) ->
  NoDup (map bundleId (fold_left application_step lines applications)).
Proof.
  revert applications.
  induction lines as [|line lines IH]; intros applications H; simpl.
  - exact H.
  - apply IH. now apply application_step_NoDup.
Qed.

(** C5: a line whose trimmed text has a fragment Bundle/Application/b/a.app
    contributes the record of one such fragment of the line, with [b] as
    bundle identifier and [a.app] as display name, unless that bundle
    identifier is already in the result, in which case the result is left as
    it is; a line without a fragment contributes nothing; in every case the
    records already there stay in place, and the bundle identifiers of the
    returned list are pairwise distinct. *)
Theorem application_records :
  (forall applications line,
      has_fragment (trim line) ->
      exists b a p f,
        fragment (trim line) b a
        /\ application_step applications line
           = if find_bundle applications b then applications
             else applications
                  ++ [ {| bundleId := b; displayName := Some (a ++ lit ".app");
                          pid := p; fullPath := f |} ])
  /\ (forall applications line,
         ~ has_fragment (trim line) ->
         application_step applications line = applications)
  /\ (forall applications b,
         find_bundle applications b = true
         <-> In b (map bundleId applications))
  /\ (forall output, NoDup (map bundleId (parseApplicationOutput output))).
Proof.
  split; [|split; [|split]].
  - intros applications line Hf. unfold application_step.
    pose proof (match_bundle_found _ Hf) as Hm.
    destruct (match_ (trim line) bundleRegex) as [m|] eqn:E; [|congruence].
    destruct (match_bundle_some _ _ E) as [b [a [Hfrag [Hb Ha]]]].
    assert (Hne : truthy (trim line) = true).
    { destruct Hfrag as [pre [post [Ht _]]]. rewrite Ht.
      destruct pre; reflexivity. }
    rewrite Hne, Hb, Ha. cbn [negb].
    eexists b, a, _, _. split; [exact Hfrag|].
    destruct (find_bundle applications b); reflexivity.
  - intros applications line Hno. unfold application_step.
    destruct (negb (truthy (trim line))); [reflexivity|].
    destruct (match_ (trim line) bundleRegex) as [m|] eqn:E; [|reflexivity].
    exfalso. apply Hno.
    destruct (match_bundle_some _ _ E) as [b [a [Hfrag _]]]. now exists b, a.
  - exact find_bundle_In.
  - intros output. unfold parseApplicationOutput.
    apply application_fold_NoDup. constructor.
Qed.

(** The first line of a listing gives a record; the line of a second process
    of the same application then leaves the result as it is. *)
Lemma application_records_witness :
  (exists b a p f,
      fragment (trim sample_process) b a
      /\ application_step [] sample_process
         = [ {| bundleId := b; displayName := Some (a ++ lit ".app");
                pid := p; fullPath := f |} ])
  /\ application_step (application_step [] sample_process) sample_helper
     = application_step [] sample_process.
Proof.
  split.
  - apply (proj1 application_records [] sample_process).
    exists (lit "com.example.app"), (lit "MyGame").
    exists (lit "123   /private/var/containers/"), (lit "/MyGame").
    repeat split; try discriminate; reflexivity.
  - vm_compute. reflexivity.
Defined.

(** The two lines together, evaluated. *)
Example application_listing :
  parseApplicationOutput (sample_process ++ [newline] ++ sample_helper)
  = [ {| bundleId := lit "com.example.app";
         displayName := Some (lit "MyGame.app");
         pid := Some (lit "123");
         fullPath :=
           Some (lit "/private/var/containers/Bundle/Application/com.example.app/MyGame.app") |} ].
Proof. vm_compute. reflexivity. Qed.

End ApplicationParsing.

(* ===================================================================== *)
(** ** Programs with effects                                              *)
(* ===================================================================== *)

Section EffectFacts.
Import Js Regex Effects Words DeviceManager.

Context {A : Type}.

Lemma perform_print (w : world) (n : nat) (c : console) (values : list str)
      (k : io A) :
  perform w n (Print c values k)
  = (Printed c values :: fst (perform w n k), snd (perform w n k)).
Proof. simpl. destruct (perform w n k). reflexivity. Qed.

Lemma perform_exec (w : world) (n : nat) (command : str)
      (k : exec_result -> io A) :
  perform w n (ExecSync command k)
  = (Executed command :: fst (perform w n (k (shell w command))),
     snd (perform w n (k (shell w command)))).
Proof. simpl. destruct (perform w n (k (shell w command))). reflexivity. Qed.

Lemma perform_question (w : world) (n : nat) (values : list str)
      (k : str -> io A) :
  perform w n (Question values k)
  = (Asked values :: fst (perform w (S n) (k (typed w n))),
     snd (perform w (S n) (k (typed w n)))).
Proof. simpl. destruct (perform w (S n) (k (typed w n))). reflexivity. Qed.

Lemma perform_prints (w : world) (n : nat)
      (lines : list (list str)) (k : io A) :
  snd (perform w n (fold_right (fun values k' => Print Stdout values k') k lines))
  = snd (perform w n k)
  /\ questions (fst (perform w n
        (fold_right (fun values k' => Print Stdout values k') k lines)))
     = questions (fst (perform w n k)).
Proof.
  induction lines as [|l lines [IH1 IH2]]; [split; reflexivity|].
  cbn [fold_right]. rewrite perform_print. cbn [fst snd]. split; assumption.
Qed.

Lemma perform_print_each {B : Type} (w : world) (n : nat)
      (f : nat -> B -> list (list str)) (l : list B) (index : nat) (k : io A) :
  snd (perform w n (print_each f l index k)) = snd (perform w n k)
  /\ questions (fst (perform w n (print_each f l index k)))
     = questions (fst (perform w n k)).
Proof.
  revert index. induction l as [|x l IH]; intros index; [split; reflexivity|].
  cbn [print_each].
  destruct (perform_prints w n (f index x) (print_each f l (S index) k))
    as [H1 H2].
  destruct (IH (S index)) as [H3 H4]. split; congruence.
Qed.

End EffectFacts.

Section ProcessDiscovery.
Import Js Regex Effects Words DeviceManager.

(** C4, counterexample: a failure whose message is [no matching processes],
    in lower case, is thrown on instead of giving an empty list. *)
Lemma lowercase_message_propagates :
  includes (lit "no matching processes") (lit "no matching processes") = true
  /\ result (failing_world (lit "no matching processes"))
            (getApplications (lit "D1"))
     = inl (ExecFailure (lit "no matching processes")).
Proof. split; vm_compute; reflexivity. Qed.

(** C4, amended: when the process listing fails with a message in which the
    text [No matching processes] occurs, capital N included, the result is
    the empty list, returned as a success; when it fails with any other
    message the failure is thrown on with that message; when it succeeds
    the output is parsed.  One command is run in every case. *)
Theorem process_discovery_failures (w : world) (deviceIdentifier : str) :
  (forall message,
      shell w (processes_command deviceIdentifier) = Failed message ->
      contains message (lit "No matching processes") ->
      result w (getApplications deviceIdentifier) = inr [])
  /\ (forall message,
         shell w (processes_command deviceIdentifier) = Failed message ->
         ~ contains message (lit "No matching processes") ->
         result w (getApplications deviceIdentifier)
         = inl (ExecFailure message))
  /\ (forall output,
         shell w (processes_command deviceIdentifier) = Output output ->
         result w (getApplications deviceIdentifier)
         = inr (parseApplicationOutput output))
  /\ executions (trace w (getApplications deviceIdentifier)) = 1.
Proof.
  unfold result, trace, getApplications.
  rewrite perform_print, perform_exec. cbn [fst snd].
  repeat split.
  - intros message Hs Hc. rewrite Hs.
    apply includes_spec in Hc. rewrite !perform_print, Hc. reflexivity.
  - intros message Hs Hc. rewrite Hs.
    apply includes_false in Hc. rewrite !perform_print, Hc. reflexivity.
  - intros output Hs. rewrite Hs. reflexivity.
  - destruct (shell w (processes_command deviceIdentifier)) as [output|message].
    + reflexivity.
    + rewrite !perform_print.
      destruct (includes message (lit "No matching processes")); reflexivity.
Qed.

(** The message of the tool, and another failure. *)
Lemma process_discovery_failures_witness :
  result (failing_world (lit "ERROR: No matching processes found."))
         (getApplications (lit "D1")) = inr []
  /\ result (failing_world (lit "xcrun: command not found"))
            (getApplications (lit "D1"))
     = inl (ExecFailure (lit "xcrun: command not found")).
Proof.
  split.
  - apply (proj1 (process_discovery_failures
                    (failing_world (lit "ERROR: No matching processes found."))
                    (lit "D1"))
                 (lit "ERROR: No matching processes found.")).
    + reflexivity.
    + exists (lit "ERROR: "), (lit " found."). reflexivity.
  - apply (proj1 (proj2 (process_discovery_failures
                           (failing_world (lit "xcrun: command not found"))
                           (lit "D1")))
                 (lit "xcrun: command not found")).
    + reflexivity.
    + apply includes_false. reflexivity.
Defined.

End ProcessDiscovery.

Section ParsedPaths.
Import Js Regex Effects Words DeviceManager.

Lemma path_body :
  body pathRegex
  = Open
    :: map (fun c => One (Lit c))
           (lit "/private/var/containers/Bundle/Application/")
    ++ Plus slash_free
       :: map (fun c => One (Lit c)) (lit "/")
       ++ Plus slash_free
          :: map (fun c => One (Lit c)) (lit ".app") ++ [Close].
Proof. reflexivity. Qed.

(** The path captured by the path expression is never empty. *)
Lemma match_path_not_empty (t : str) (m : list str) :
  match_ t pathRegex = Some m -> group m 1 <> [].
Proof.
  unfold match_. change (ignoreCase pathRegex) with false.
  destruct (exec_from false (body pathRegex) t 0) as [[st [marks j]]|] eqn:E;
    [|discriminate].
  intros H. injection H as <-.
  apply exec_from_some in E as [pre [suf [-> [-> [H _]]]]].
  rewrite path_body, run_open in H.
  apply run_lits_cs in H as [s1 [-> H]].
  apply run_plus_some in H as [b [s2 [-> [_ [_ [H _]]]]]].
  apply run_lits_cs in H as [s3 [-> H]].
  apply run_plus_some in H as [a [s4 [-> [_ [_ [H _]]]]]].
  apply run_lits_cs in H as [post [-> H]].
  rewrite run_close, run_end in H. injection H as <- <-.
  cbn [rev app groups group nth].
  replace (pre ++ lit "/private/var/containers/Bundle/Application/" ++ b
               ++ lit "/" ++ a ++ lit ".app" ++ post)
    with (pre ++ (lit "/private/var/containers/Bundle/Application/" ++ b
                      ++ lit "/" ++ a ++ lit ".app") ++ post)
    by now rewrite <- !app_assoc.
  rewrite substring_mid_Z.
  - discriminate.
  - lia.
  - rewrite !length_app.
    change (length (lit "/private/var/containers/Bundle/Application/")) with 43.
    change (length (lit "/")) with 1. change (length (lit ".app")) with 4.
    lia.
Qed.

Lemma application_step_paths (applications : list ApplicationInfo)
      (line : str) :
  Forall (fun app => fullPath app <> Some []) applications ->
  Forall (fun app => fullPath app <> Some [])
         (application_step applications line).
Proof.
  intros H. unfold application_step.
  destruct (negb (truthy (trim line))); [exact H|].
  destruct (match_ (trim line) bundleRegex) as [m|]; [|exact H].
  destruct (negb (find_bundle applications (group m 1))); [|exact H].
  apply Forall_app. split; [exact H|]. constructor; [|constructor].
  cbn [fullPath].
  destruct (match_ (trim line) pathRegex) as [pm|] eqn:E; [|discriminate].
  intros Hp. injection Hp as Hp. exact (match_path_not_empty _ _ E Hp).
Qed.

(** A path set by the parser is not the empty string. *)
Lemma parsed_paths_not_empty (output : str) (app : ApplicationInfo) :
  In app (parseApplicationOutput output) -> fullPath app <> Some [].
Proof.
  unfold parseApplicationOutput.
  assert (H : forall lines applications,
             Forall (fun a => fullPath a <> Some []) applications ->
             Forall (fun a => fullPath a <> Some [])
                    (fold_left application_step lines applications)).
  { induction lines as [|line lines IH]; intros applications Ha; simpl.
    - exact Ha.
    - apply IH. now apply application_step_paths. }
  intros Hin.
  exact (proj1 (Forall_forall _ _) (H (split newline output) [] (Forall_nil _))
               app Hin).
Qed.

End ParsedPaths.

Section Launch.
Import Js Regex Effects Words DeviceManager.

(** C8, counterexample: with [fullPath] set to the empty string the launch
    fails with the missing path error. *)
Lemma empty_path_is_missing :
  fullPath (application_at (Some [])) = Some []
  /\ perform (typing_world []) 0
             (launchAppWithMetalHUD (lit "D1") (application_at (Some [])))
     = ([], inl MissingFullPath).
Proof. split; reflexivity. Qed.

(** C8, amended: with [fullPath] unset, or set to the empty string, the
    launch fails with the missing path error before anything is printed or
    run, whatever the other fields are; with [fullPath] set to a string that
    is not empty it never fails with that error, and runs one command, the
    launch command for that path.  A path set by the process parser is never
    the empty string. *)
Theorem launch_requires_path (w : world) (deviceIdentifier : str)
        (app : ApplicationInfo) :
  (fullPath app = None \/ fullPath app = Some [] ->
   perform w 0 (launchAppWithMetalHUD deviceIdentifier app)
   = ([], inl MissingFullPath))
  /\ (forall path,
         fullPath app = Some path -> path <> [] ->
         result w (launchAppWithMetalHUD deviceIdentifier app)
         <> inl MissingFullPath
         /\ filter is_exec (trace w (launchAppWithMetalHUD deviceIdentifier app))
            = [Executed (launch_command deviceIdentifier path)])
  /\ (forall output,
         In app (parseApplicationOutput output) -> fullPath app <> Some []).
Proof.
  unfold result, trace, launchAppWithMetalHUD. split; [|split].
  3: { intros output. apply parsed_paths_not_empty. }
  - intros [H | H]; rewrite H; reflexivity.
  - intros path H Hne. rewrite H. cbn [truthy_opt show].
    rewrite (truthy_nonempty path Hne). cbn [negb].
    rewrite !perform_print, perform_exec. cbn [fst snd filter is_exec].
    destruct (shell w (launch_command deviceIdentifier path))
      as [output|message].
    + rewrite !perform_print. cbn [fst snd filter is_exec].
      destruct (truthy (trim output)).
      * rewrite !perform_print. cbn. split; [discriminate | reflexivity].
      * cbn. split; [discriminate | reflexivity].
    + rewrite !perform_print. cbn [fst snd filter is_exec].
      destruct (includes message (lit "not found")).
      * rewrite !perform_print. cbn. split; [discriminate | reflexivity].
      * destruct (includes message (lit "permission")).
        -- rewrite !perform_print. cbn. split; [discriminate | reflexivity].
        -- cbn. split; [discriminate | reflexivity].
Qed.

(** A record with every other field present and no path, and the same
    record with a path. *)
Lemma launch_requires_path_witness :
  perform (typing_world []) 0
          (launchAppWithMetalHUD (lit "D1") (application_at None))
  = ([], inl MissingFullPath)
  /\ result (typing_world [])
            (launchAppWithMetalHUD (lit "D1")
                                   (application_at (Some (lit "/path/App.app"))))
     <> inl MissingFullPath.
Proof.
  split.
  - apply (proj1 (launch_requires_path (typing_world []) (lit "D1")
                                       (application_at None))).
    left. reflexivity.
  - apply (proj1 (proj2 (launch_requires_path
                           (typing_world []) (lit "D1")
                           (application_at (Some (lit "/path/App.app")))))
                 (lit "/path/App.app")).
    + reflexivity.
    + discriminate.
Defined.

End Launch.

(* ===================================================================== *)
(** ** The two menus                                                      *)
(* ===================================================================== *)

Section IntegerParsing.
Import Js Regex Effects Words DeviceManager.

Lemma digit_value_digit (c : char) :
  is_digit c = true -> digit_value 10 c = Some (c - 48)%N.
Proof.
  unfold is_digit, digit_value. intros H. rewrite H.
  apply andb_true_iff in H as [H1 H2]. apply N.leb_le in H1, H2.
  destruct (N.ltb_spec (c - 48) 10); [reflexivity | lia].
Qed.

Lemma digit_value_other (c : char) :
  is_digit c = false -> digit_value 10 c = None.
Proof.
  unfold is_digit, digit_value. intros H. rewrite H.
  destruct ((97 <=? c) && (c <=? 122))%N eqn:E1.
  - apply andb_true_iff in E1 as [H1 H2]. apply N.leb_le in H1, H2.
    destruct (N.ltb_spec (c - 87) 10); [lia | reflexivity].
  - destruct ((65 <=? c) && (c <=? 90))%N eqn:E2; [|reflexivity].
    apply andb_true_iff in E2 as [H1 H2]. apply N.leb_le in H1, H2.
    destruct (N.ltb_spec (c - 55) 10); [lia | reflexivity].
Qed.

Lemma read_digits_stops (s : str) (acc : N) :
  stops is_digit s -> read_digits 10 s acc false = None.
Proof.
  destruct s as [|c s]; simpl; [reflexivity|].
  intros H. now rewrite (digit_value_other c H).
Qed.

Lemma read_digits_all (s : str) (acc : N) (seen : bool) :
  all is_digit s ->
  read_digits 10 s acc seen
  = if seen || truthy s
    then Some (fold_left (fun a c => (a * 10 + (c - 48))%N) s acc)
    else None.
Proof.
  revert acc seen. induction s as [|c s IH]; intros acc seen H.
  - simpl. now rewrite orb_false_r.
  - apply all_cons in H as [Hc Hs]. simpl read_digits.
    rewrite (digit_value_digit c Hc), (IH _ _ Hs). simpl.
    now rewrite orb_true_r.
Qed.

Lemma digit_not_sign (c : char) :
  is_digit c = true -> (c =? 45)%N = false /\ (c =? 43)%N = false
                       /\ (c =? 120)%N = false /\ (c =? 88)%N = false.
Proof.
  unfold is_digit. intros H. apply andb_true_iff in H as [H1 H2].
  apply N.leb_le in H1, H2. repeat split; apply N.eqb_neq; lia.
Qed.

(** A string of digits is read whole. *)
Lemma parseInt_digits (s : str) :
  s <> [] -> all is_digit s -> parseInt s = Some (Z.of_N (digits_value s)).
Proof.
  intros Hne H. destruct s as [|c s]; [congruence|].
  pose proof H as H0. apply all_cons in H0 as [Hc Hs].
  unfold parseInt.
  rewrite (drop_white_stops (c :: s)) by exact (digit_not_white c Hc).
  destruct (digit_not_sign c Hc) as [E1 [E2 _]]. rewrite E1, E2.
  assert (Hr : (let '(radix, s2) :=
                  match c :: s with
                  | z :: x :: s' =>
                      if ((z =? 48) && ((x =? 120) || (x =? 88)))%N
                      then (16%N, s') else (10%N, c :: s)
                  | _ => (10%N, c :: s)
                  end in
                match read_digits radix s2 0 false with
                | Some n => Some (Z.of_N n)
                | None => None
                end) = Some (Z.of_N (digits_value (c :: s)))).
  { destruct s as [|x s].
    - rewrite (read_digits_all [c] 0 false H). reflexivity.
    - apply all_cons in Hs as [Hx _].
      destruct (digit_not_sign x Hx) as [_ [_ [E3 E4]]].
      rewrite E3, E4, andb_false_r.
      rewrite (read_digits_all (c :: x :: s) 0 false H). reflexivity. }
  exact Hr.
Qed.

(** Without a leading digit nothing is read. *)
Lemma parse_unsigned_none (t : str) (negative : bool) :
  stops is_digit t ->
  (let '(radix, s2) :=
     match t with
     | z :: x :: s' =>
         if ((z =? 48) && ((x =? 120) || (x =? 88)))%N then (16%N, s')
         else (10%N, t)
     | _ => (10%N, t)
     end in
   match read_digits radix s2 0%N false with
   | Some n => Some (if negative then (- Z.of_N n)%Z else Z.of_N n)
   | None => None
   end) = None.
Proof.
  intros Ht. destruct t as [|z [|x t]].
  - reflexivity.
  - cbv beta iota. now rewrite (read_digits_stops [z] 0 Ht).
  - assert (Ez : (z =? 48)%N = false).
    { simpl in Ht. unfold is_digit in Ht. apply N.eqb_neq. intros ->.
      discriminate Ht. }
    rewrite Ez. cbn [andb]. cbv beta iota.
    now rewrite (read_digits_stops (z :: x :: t) 0 Ht).
Qed.

Lemma parseInt_no_leading_digit (s : str) :
  no_leading_digit s -> parseInt s = None.
Proof.
  unfold no_leading_digit, parseInt, unsigned.
  destruct (drop_white s) as [|c r]; [reflexivity|].
  destruct (c =? 45)%N eqn:E1; cbn [orb].
  - intros Hst. exact (parse_unsigned_none r true Hst).
  - destruct (c =? 43)%N eqn:E2.
    + intros Hst. exact (parse_unsigned_none r false Hst).
    + intros Hst. exact (parse_unsigned_none (c :: r) false Hst).
Qed.

(** *** Decimal rendering *)

Lemma decimal_digit (n : nat) :
  is_digit (48 + N.of_nat (n mod 10))%N = true.
Proof.
  pose proof (Nat.mod_upper_bound n 10 ltac:(lia)) as H.
  unfold is_digit. apply andb_true_iff. split; apply N.leb_le; lia.
Qed.

Lemma decimal_aux_S (fuel n : nat) (acc : str) :
  decimal_aux (S fuel) n acc
  = if n / 10 =? 0 then (48 + N.of_nat (n mod 10))%N :: acc
    else decimal_aux fuel (n / 10) ((48 + N.of_nat (n mod 10))%N :: acc).
Proof. reflexivity. Qed.

Lemma decimal_aux_digits (fuel n : nat) (acc : str) :
  all is_digit acc -> all is_digit (decimal_aux fuel n acc).
Proof.
  revert n acc. induction fuel as [|fuel IH]; intros n acc H; [exact H|].
  rewrite decimal_aux_S.
  assert (H' : all is_digit ((48 + N.of_nat (n mod 10))%N :: acc)).
  { apply all_cons. split; [apply decimal_digit | exact H]. }
  destruct (n / 10 =? 0); [exact H' | apply IH; exact H'].
Qed.

Lemma decimal_aux_not_nil (fuel n : nat) (acc : str) :
  decimal_aux (S fuel) n acc <> [].
Proof.
  revert n acc. induction fuel as [|fuel IH]; intros n acc;
    rewrite decimal_aux_S.
  - destruct (n / 10 =? 0); discriminate.
  - destruct (n / 10 =? 0); [discriminate | apply IH].
Qed.

Lemma decimal_aux_value (fuel n : nat) (acc : str) :
  n < fuel ->
  fold_left (fun a c => (a * 10 + (c - 48))%N) (decimal_aux fuel n acc) 0%N
  = fold_left (fun a c => (a * 10 + (c - 48))%N) acc (N.of_nat n).
Proof.
  revert n acc. induction fuel as [|fuel IH]; intros n acc Hn; [lia|].
  rewrite decimal_aux_S.
  pose proof (Nat.div_mod_eq n 10) as Hdm.
  pose proof (Nat.mod_upper_bound n 10 ltac:(lia)) as Hm.
  destruct (Nat.eqb_spec (n / 10) 0) as [E|E].
  - cbn [fold_left]. f_equal. lia.
  - rewrite IH by (assert (n / 10 < n) by (apply Nat.div_lt; lia); lia).
    cbn [fold_left]. f_equal. lia.
Qed.

Lemma decimal_digits (n : nat) : decimal n <> [] /\ all is_digit (decimal n).
Proof.
  unfold decimal. split.
  - apply decimal_aux_not_nil.
  - apply decimal_aux_digits. apply all_nil.
Qed.

Lemma decimal_value (n : nat) : digits_value (decimal n) = N.of_nat n.
Proof. unfold digits_value, decimal. now rewrite decimal_aux_value by lia. Qed.

Lemma digits_trimmed (s : str) : all is_digit s -> trimmed s.
Proof.
  intros H. rewrite all_In in H. split.
  - destruct s as [|c s]; [exact I|]. simpl. apply digit_not_white, H. now left.
  - destruct (rev s) as [|c r] eqn:E; [exact I|]. simpl.
    apply digit_not_white, H. apply in_rev. rewrite E. now left.
Qed.

(** The decimal rendering of a number is read back as that number. *)
Lemma parseInt_decimal (n : nat) :
  parseInt (trim (decimal n)) = Some (Z.of_nat n).
Proof.
  destruct (decimal_digits n) as [Hne Hd].
  rewrite (trim_trimmed _ (digits_trimmed _ Hd)).
  rewrite (parseInt_digits _ Hne Hd), decimal_value. f_equal. lia.
Qed.

End IntegerParsing.

Section Selection.
Import Js Regex Effects Words DeviceManager.

Lemma valid_selection_in (count : nat) (answer : str) (k : Z) :
  parseInt (trim answer) = Some k -> (1 <= k <= Z.of_nat count)%Z ->
  valid_selection count answer = Some k.
Proof.
  intros H Hk. unfold valid_selection. rewrite H.
  destruct (Z.ltb_spec k 1); [lia|].
  destruct (Z.gtb_spec k (Z.of_nat count)); [lia | reflexivity].
Qed.

Lemma valid_selection_out (count : nat) (answer : str) (k : Z) :
  parseInt (trim answer) = Some k -> ~ (1 <= k <= Z.of_nat count)%Z ->
  valid_selection count answer = None.
Proof.
  intros H Hk. unfold valid_selection. rewrite H.
  destruct (Z.ltb_spec k 1); [reflexivity|].
  destruct (Z.gtb_spec k (Z.of_nat count)); [reflexivity | lia].
Qed.

Lemma valid_selection_nan (count : nat) (answer : str) :
  parseInt (trim answer) = None -> valid_selection count answer = None.
Proof. intros H. unfold valid_selection. now rewrite H. Qed.

Lemma nth_in_range {B : Type} (items : list B) (k : Z) (d : B) :
  (1 <= k <= Z.of_nat (length items))%Z ->
  nth_error items (Z.to_nat (k - 1)) = Some (nth (Z.to_nat (k - 1)) items d).
Proof. intros Hk. apply nth_error_nth'. lia. Qed.

Lemma questions_printed (c : console) (values : list str) (t : list event) :
  questions (Printed c values :: t) = questions t.
Proof. reflexivity. Qed.

Lemma questions_asked (values : list str) (t : list event) :
  questions (Asked values :: t) = S (questions t).
Proof. reflexivity. Qed.

(** The menu of devices, with two records or more. *)
Lemma selectDevice_menu (w : world) (d1 d2 : DeviceInfo)
      (rest : list DeviceInfo) :
  let devices := d1 :: d2 :: rest in
  questions (trace w (selectDevice devices)) = 1
  /\ result w (selectDevice devices)
     = match valid_selection (length devices) (typed w 0) with
       | None => inl (InvalidSelection (length devices))
       | Some k => inr (identifier (nth (Z.to_nat (k - 1)) devices d1))
       end.
Proof.
  intros devices. subst devices. unfold result, trace, selectDevice.
  rewrite perform_print. cbn [fst snd]. rewrite questions_printed.
  match goal with
  | |- context [print_each device_entry ?l 0 ?K] =>
      destruct (perform_print_each w 0 device_entry l 0 K) as [H1 H2];
      rewrite H1, H2
  end.
  rewrite perform_question. cbn [fst snd]. rewrite questions_asked.
  destruct (valid_selection (length (d1 :: d2 :: rest)) (typed w 0)) as [k|].
  - rewrite !perform_print. cbn [fst snd]. rewrite !questions_printed.
    split; reflexivity.
  - split; reflexivity.
Qed.

(** The menu of applications, with two records or more. *)
Lemma selectApplication_menu (w : world) (a1 a2 : ApplicationInfo)
      (rest : list ApplicationInfo) :
  let applications := a1 :: a2 :: rest in
  questions (trace w (selectApplication applications)) = 1
  /\ result w (selectApplication applications)
     = match valid_selection (length applications) (typed w 0) with
       | None => inl (InvalidSelection (length applications))
       | Some k => inr (nth (Z.to_nat (k - 1)) applications a1)
       end.
Proof.
  intros applications. subst applications.
  unfold result, trace, selectApplication.
  rewrite perform_print. cbn [fst snd]. rewrite questions_printed.
  match goal with
  | |- context [print_each application_entry ?l 0 ?K] =>
      destruct (perform_print_each w 0 application_entry l 0 K) as [H1 H2];
      rewrite H1, H2
  end.
  rewrite perform_question. cbn [fst snd]. rewrite questions_asked.
  destruct (valid_selection (length (a1 :: a2 :: rest)) (typed w 0)) as [k|].
  - rewrite !perform_print. cbn [fst snd]. rewrite !questions_printed.
    split; reflexivity.
  - split; reflexivity.
Qed.

(** C2, counterexample: with three records, the answer [2abc], which is not
    a number, selects the second record in both menus; the device menu
    returns the identifier of the record, not the record. *)
Lemma suffixed_answer_selects :
  forallb is_digit (lit "2abc") = false
  /\ result (typing_world (lit "2abc")) (selectApplication sample_applications)
     = inr {| bundleId := lit "com.example.two";
              displayName := Some (lit "Two.app");
              pid := Some (lit "102"); fullPath := None |}
  /\ result (typing_world (lit "2abc")) (selectDevice sample_devices)
     = inr (Some (lit "00008030-0002")).
Proof. repeat split; vm_compute; reflexivity. Qed.

(** C2, amended: with no record both menus fail with their nothing to select
    error; with one record they return it without asking, the device menu
    returning the identifier of the record and the application menu the
    record; with N records, N at least 2, they ask one question and read the
    answer as [parseInt] reads the trimmed line: an optional sign, then the
    longest run of digits, whatever follows being ignored.  They fail with
    the error naming the range from 1 to N when no integer is read or the
    integer read is not in that range, and otherwise select the record at
    that position, counted from 1.  The decimal rendering of k is read as k,
    and a line that has no digit after white space and an optional sign is
    read as no integer. *)
Theorem selection_contract (w : world) :
  (result w (selectDevice []) = inl NoDeviceToSelect
   /\ result w (selectApplication []) = inl NoApplicationToSelect)
  /\ (forall d,
         result w (selectDevice [d]) = inr (identifier d)
         /\ questions (trace w (selectDevice [d])) = 0)
  /\ (forall a,
         result w (selectApplication [a]) = inr a
         /\ questions (trace w (selectApplication [a])) = 0)
  /\ (forall devices,
         2 <= length devices ->
         questions (trace w (selectDevice devices)) = 1
         /\ (forall k,
                parseInt (trim (typed w 0)) = Some k ->
                (1 <= k <= Z.of_nat (length devices))%Z ->
                exists d,
                  nth_error devices (Z.to_nat (k - 1)) = Some d
                  /\ result w (selectDevice devices) = inr (identifier d))
         /\ (forall k,
                parseInt (trim (typed w 0)) = Some k ->
                ~ (1 <= k <= Z.of_nat (length devices))%Z ->
                result w (selectDevice devices)
                = inl (InvalidSelection (length devices)))
         /\ (parseInt (trim (typed w 0)) = None ->
             result w (selectDevice devices)
             = inl (InvalidSelection (length devices))))
  /\ (forall applications,
         2 <= length applications ->
         questions (trace w (selectApplication applications)) = 1
         /\ (forall k,
                parseInt (trim (typed w 0)) = Some k ->
                (1 <= k <= Z.of_nat (length applications))%Z ->
                exists a,
                  nth_error applications (Z.to_nat (k - 1)) = Some a
                  /\ result w (selectApplication applications) = inr a)
         /\ (forall k,
                parseInt (trim (typed w 0)) = Some k ->
                ~ (1 <= k <= Z.of_nat (length applications))%Z ->
                result w (selectApplication applications)
                = inl (InvalidSelection (length applications)))
         /\ (parseInt (trim (typed w 0)) = None ->
             result w (selectApplication applications)
             = inl (InvalidSelection (length applications))))
  /\ (forall n, parseInt (trim (decimal n)) = Some (Z.of_nat n))
  /\ (forall s, no_leading_digit (trim s) -> parseInt (trim s) = None).
Proof.
  split; [split; reflexivity|].
  split; [intros d; split; reflexivity|].
  split; [intros a; split; reflexivity|].
  split; [|split; [|split]].
  - intros [|d1 [|d2 rest]] Hlen; try (simpl in Hlen; lia).
    destruct (selectDevice_menu w d1 d2 rest) as [Hq Hr].
    split; [exact Hq|]. rewrite Hr. repeat split.
    + intros k Hp Hk. rewrite (valid_selection_in _ _ k Hp Hk).
      exists (nth (Z.to_nat (k - 1)) (d1 :: d2 :: rest) d1).
      split; [apply nth_in_range; exact Hk | reflexivity].
    + intros k Hp Hk. now rewrite (valid_selection_out _ _ k Hp Hk).
    + intros Hp. now rewrite (valid_selection_nan _ _ Hp).
  - intros [|a1 [|a2 rest]] Hlen; try (simpl in Hlen; lia).
    destruct (selectApplication_menu w a1 a2 rest) as [Hq Hr].
    split; [exact Hq|]. rewrite Hr. repeat split.
    + intros k Hp Hk. rewrite (valid_selection_in _ _ k Hp Hk).
      exists (nth (Z.to_nat (k - 1)) (a1 :: a2 :: rest) a1).
      split; [apply nth_in_range; exact Hk | reflexivity].
    + intros k Hp Hk. now rewrite (valid_selection_out _ _ k Hp Hk).
    + intros Hp. now rewrite (valid_selection_nan _ _ Hp).
  - exact parseInt_decimal.
  - intros s. apply parseInt_no_leading_digit.
Qed.

(** Three devices: the answer 2 with spaces around it, the answers 0 and 4,
    and an answer without a digit. *)
Lemma selection_contract_witness :
  (exists d,
      nth_error sample_devices 1 = Some d
      /\ result (typing_world (lit " 2 ")) (selectDevice sample_devices)
         = inr (identifier d))
  /\ result (typing_world (lit "0")) (selectDevice sample_devices)
     = inl (InvalidSelection 3)
  /\ result (typing_world (decimal 4)) (selectDevice sample_devices)
     = inl (InvalidSelection 3)
  /\ result (typing_world (lit "two")) (selectDevice sample_devices)
     = inl (InvalidSelection 3).
Proof.
  split; [|split; [|split]].
  - apply (proj1 (proj2 (proj1 (proj2 (proj2 (proj2
             (selection_contract (typing_world (lit " 2 "))))))
             sample_devices ltac:(simpl; lia))) 2%Z).
    + reflexivity.
    + simpl. lia.
  - apply (proj1 (proj2 (proj2 (proj1 (proj2 (proj2 (proj2
             (selection_contract (typing_world (lit "0"))))))
             sample_devices ltac:(simpl; lia)))) 0%Z).
    + reflexivity.
    + simpl. lia.
  - apply (proj1 (proj2 (proj2 (proj1 (proj2 (proj2 (proj2
             (selection_contract (typing_world (decimal 4))))))
             sample_devices ltac:(simpl; lia)))) 4%Z).
    + reflexivity.
    + simpl. lia.
  - apply (proj2 (proj2 (proj2 (proj1 (proj2 (proj2 (proj2
             (selection_contract (typing_world (lit "two"))))))
             sample_devices ltac:(simpl; lia))))).
    reflexivity.
Defined.

End Selection.

(* ===================================================================== *)
(** ** Further properties: device listings                                *)
(* ===================================================================== *)

Section DeviceListings.
Import Js Regex Words DeviceManager.

Lemma find_header_none (lines : list str) (i : Z) :
  Forall (fun l => is_header_line l = false) lines ->
  find_header lines i = no_header.
Proof.
  intros H. revert i. induction H as [|l lines Hl H IH]; intros i.
  - reflexivity.
  - simpl. now rewrite Hl.
Qed.

(** X1: without a line that has the four labels the text is read as a legacy
    listing.  With such a line, the lines above the first one are ignored,
    whatever they are, identifier lines of a legacy listing included: the
    text gives the records of the text that begins at that line; and when
    that line is the last line of the text, or the last but one, no record
    is returned. *)
Theorem header_decides_the_path (output : str) :
  (Forall (fun l => is_header_line l = false) (split newline output) ->
   parseDeviceOutput output = parseDeviceOutputLegacy output)
  /\ (forall before hdr after,
         split newline output = before ++ hdr :: after ->
         Forall (fun l => is_header_line l = false) before ->
         is_header_line hdr = true ->
         (forall below,
             split newline below = hdr :: after ->
             parseDeviceOutput output = parseDeviceOutput below)
         /\ (length after <= 1 -> parseDeviceOutput output = [])).
Proof.
  split.
  - intros H. unfold parseDeviceOutput.
    now rewrite (find_header_none _ 0 H).
  - intros before hdr after Hs Hb Hh. split.
    + intros below Hbelow.
      rewrite (tabular_output output before after hdr Hs Hb Hh).
      now rewrite (tabular_output below [] after hdr Hbelow (Forall_nil _) Hh).
    + intros Hlen.
      rewrite (tabular_output output before after hdr Hs Hb Hh).
      destruct after as [|sep [|row after]]; [reflexivity | reflexivity|].
      simpl in Hlen. lia.
Qed.

(** A legacy listing; a table below an identifier line; identifier lines
    followed by a header line. *)
Lemma header_decides_the_path_witness :
  parseDeviceOutput (lit "Identifier: AB12")
  = parseDeviceOutputLegacy (lit "Identifier: AB12")
  /\ parseDeviceOutput
       (lit "Identifier: AB12" ++ [newline] ++ sample_header ++ [newline]
        ++ sample_separator ++ [newline] ++ sample_row)
     = parseDeviceOutput
         (sample_header ++ [newline] ++ sample_separator ++ [newline]
          ++ sample_row)
  /\ parseDeviceOutput
       (lit "Identifier: AB12" ++ [newline] ++ sample_header) = [].
Proof.
  split; [|split].
  - apply (proj1 (header_decides_the_path (lit "Identifier: AB12"))).
    repeat constructor.
  - refine (proj1 (proj2 (header_decides_the_path
                            (lit "Identifier: AB12" ++ [newline]
                             ++ sample_header ++ [newline]
                             ++ sample_separator ++ [newline] ++ sample_row))
                         [lit "Identifier: AB12"] sample_header
                         [sample_separator; sample_row] _ _ _) _ _).
    + reflexivity.
    + repeat constructor.
    + reflexivity.
    + reflexivity.
  - refine (proj2 (proj2 (header_decides_the_path
                            (lit "Identifier: AB12" ++ [newline]
                             ++ sample_header))
                         [lit "Identifier: AB12"] sample_header [] _ _ _) _).
    + reflexivity.
    + repeat constructor.
    + reflexivity.
    + simpl. lia.
Defined.

Lemma platform_is_named (model : str) :
  In (extractPlatformFromModel model) platform_names.
Proof.
  unfold extractPlatformFromModel, platform_names.
  destruct (includes model (lit "iPhone")); [simpl; tauto|].
  destruct (includes model (lit "iPad")); [simpl; tauto|].
  destruct (includes model (lit "Watch")); [simpl; tauto|].
  destruct (includes model (lit "Apple TV")); [simpl; tauto|].
  destruct (includes model (lit "Mac")); simpl; tauto.
Qed.

Lemma device_step_shape (h : header) (devices : list DeviceInfo)
      (line : str) :
  Forall tabular_record devices ->
  Forall tabular_record (device_step h devices line).
Proof.
  intros H. unfold device_step.
  destruct (negb (truthy (trim line))); [exact H|].
  destruct (truthy (trim (substring line (identifierColStart h)
                                    (stateColStart h)))); cbn [andb];
    [|exact H].
  destruct (Nat.ltb_spec 10
              (length (trim (substring line (identifierColStart h)
                                       (stateColStart h))))) as [Hlen|_];
    [|exact H].
  apply Forall_app. split; [exact H|]. constructor; [|constructor].
  unfold tabular_record. cbn [identifier name platform connectionType].
  split; [|split; [|split]].
  - eexists. split; [reflexivity|]. split; [apply trim_is_trimmed | exact Hlen].
  - intros n Hn.
    destruct (truthy (trim (substring line (nameColStart h)
                                      (identifierColStart h)))) eqn:E;
      [|discriminate].
    injection Hn as <-. split; [|apply trim_is_trimmed].
    intros E0. rewrite E0 in E. discriminate.
  - eexists. split; [reflexivity | apply platform_is_named].
  - destruct (includes _ (lit "paired")); [left | right]; reflexivity.
Qed.

(** X2: when the text has a header line, every record returned has an
    identifier of more than 10 characters without white space around it, a
    name that is absent or not empty, one of the six platform names, and
    [paired] or [available] as connection type. *)
Theorem tabular_records_shape (output : str) (d : DeviceInfo) :
  headerLineIndex (find_header (split newline output) 0) <> (-1)%Z ->
  In d (parseDeviceOutput output) -> tabular_record d.
Proof.
  intros Hh Hin. unfold parseDeviceOutput in Hin.
  destruct (Z.eqb_spec (headerLineIndex (find_header (split newline output) 0))
                       (-1)) as [E|_]; [congruence|].
  assert (H : forall rows devices,
             Forall tabular_record devices ->
             Forall tabular_record
                    (fold_left (device_step
                                  (find_header (split newline output) 0))
                               rows devices)).
  { induction rows as [|line rows IH]; intros devices Hd; simpl.
    - exact Hd.
    - apply IH. now apply device_step_shape. }
  exact (proj1 (Forall_forall _ _) (H _ [] (Forall_nil _)) d Hin).
Qed.

(** The record of the sample table. *)
Lemma tabular_records_shape_witness :
  tabular_record (row_record sample_header sample_row).
Proof.
  apply (tabular_records_shape
           (sample_header ++ [newline] ++ sample_separator ++ [newline]
            ++ sample_row)).
  - vm_compute. discriminate.
  - vm_compute. now left.
Defined.

End DeviceListings.

Section LegacyListings.
Import Js Regex Words DeviceManager.

Lemma split_not_nil (s : str) : split newline s <> [].
Proof.
  induction s as [|c s IH]; simpl; [discriminate|].
  destruct (c =? newline)%N; [discriminate|].
  destruct (split newline s); [congruence | discriminate].
Qed.

(** The lines of two texts joined by a line feed. *)
Lemma split_app (a b : str) :
  split newline (a ++ newline :: b) = split newline a ++ split newline b.
Proof.
  induction a as [|c a IH]; [reflexivity|].
  simpl. destruct (c =? newline)%N.
  - now rewrite IH.
  - rewrite IH. pose proof (split_not_nil a) as Hne.
    destruct (split newline a); [congruence | reflexivity].
Qed.

(** Every line of a text keeps what holds of all its characters. *)
Lemma split_all (p : char -> bool) (s : str) :
  all p s -> Forall (all p) (split newline s).
Proof.
  induction s as [|c s IH]; intros H.
  - repeat constructor.
  - apply all_cons in H as [Hc Hs]. specialize (IH Hs). simpl.
    destruct (c =? newline)%N.
    + constructor; [apply all_nil | exact IH].
    + destruct (split newline s) as [|l ls]; [repeat constructor; now apply all_cons|].
      inversion IH as [|? ? Hl Hls]; subst.
      constructor; [apply all_cons; auto | exact Hls].
Qed.

Lemma trim_all (p : char -> bool) (s : str) : all p s -> all p (trim s).
Proof.
  intros H. unfold trim.
  assert (Hd : forall t, all p t -> all p (drop_white t)).
  { intros t Ht. destruct (drop_white_split t) as [w [Ht' _]].
    rewrite Ht' in Ht. now apply all_app in Ht. }
  assert (Hr : forall t, all p t -> all p (rev t)).
  { intros t Ht. apply all_In. intros c Hc. apply in_rev in Hc.
    revert c Hc. now apply all_In. }
  auto.
Qed.

Lemma identifier_line_site (line : str) :
  identifier_line line = true
  <-> has_site "Identifier:" is_hex_or_hyphen (trim line).
Proof.
  unfold identifier_line. split.
  - destruct (match_ (trim line) identifierRegex) as [m|] eqn:E; [|discriminate].
    intros _. destruct (match_site _ _ _ identifier_body eq_refl _ _ E)
      as [pre Hs].
    exists pre. exact (label_site_ext _ _ _ _ _ hex_class_test Hs).
  - intros Hs. destruct (identifier_match _ Hs) as [m [Hm _]]. now rewrite Hm.
Qed.

(** The identifier captured by the identifier expression is not empty. *)
Lemma identifier_not_empty (t : str) (m : list str) :
  match_ t identifierRegex = Some m -> truthy (group m 1) = true.
Proof.
  intros H.
  apply (match_labelled_some _ _ _ identifier_body eq_refl) in H
    as [pre [lab [ws [v [post [_ [_ [_ [Hne [_ [_ ->]]]]]]]]]]].
  now apply truthy_nonempty.
Qed.

(** One step of the loop, seen from the number of records begun so far. *)
Lemma legacy_step_count (st : legacy_state) (line : str) :
  length (flush (fst (legacy_step st line)) (snd (legacy_step st line)))
  = length (flush (fst st) (snd st))
    + (if identifier_line line then 1 else 0).
Proof.
  destruct st as [devices cur]. unfold legacy_step, identifier_line.
  destruct (match_ (trim line) identifierRegex) as [m|] eqn:E.
  - cbn [fst snd]. unfold flush at 1. cbn [identifier].
    cbn [truthy_opt]. rewrite (identifier_not_empty _ _ E).
    now rewrite length_app.
  - destruct (truthy_opt (identifier cur)) eqn:Hopen.
    + destruct (match_ (trim line) nameRegex);
        [|destruct (match_ (trim line) platformRegex);
          [|destruct (match_ (trim line) connectionRegex)]];
        cbn [fst snd]; unfold flush; cbn [identifier]; rewrite Hopen;
        rewrite !length_app; simpl; lia.
    + cbn [fst snd]. lia.
Qed.

Lemma legacy_fold_count (lines : list str) (st : legacy_state) :
  length (flush (fst (fold_left legacy_step lines st))
                (snd (fold_left legacy_step lines st)))
  = length (flush (fst st) (snd st))
    + length (filter identifier_line lines).
Proof.
  revert st. induction lines as [|line lines IH]; intros st; simpl.
  - lia.
  - rewrite IH, legacy_step_count.
    destruct (identifier_line line); simpl; lia.
Qed.

Lemma legacy_unfold (output : str) :
  parseDeviceOutputLegacy output
  = flush (fst (fold_left legacy_step (split newline output)
                          ([], empty_device)))
          (snd (fold_left legacy_step (split newline output)
                          ([], empty_device))).
Proof.
  unfold parseDeviceOutputLegacy.
  now destruct (fold_left legacy_step (split newline output) ([], empty_device)).
Qed.

(** X3: a legacy listing gives exactly as many records as it has identifier
    lines, an identifier line being one whose trimmed text has the label
    followed by optional white space and a hexadecimal digit or a hyphen;
    a repeated identifier gives a record each time. *)
Theorem legacy_record_count (output : str) :
  length (parseDeviceOutputLegacy output)
  = length (filter identifier_line (split newline output))
  /\ (forall line,
         identifier_line line = true
         <-> has_site "Identifier:" is_hex_or_hyphen (trim line)).
Proof.
  split; [|exact identifier_line_site].
  rewrite legacy_unfold, legacy_fold_count. reflexivity.
Qed.

(** A line that is not an identifier line leaves a state with no open record
    as it is. *)
Lemma legacy_step_closed (devices : list DeviceInfo) (line : str) :
  identifier_line line = false ->
  legacy_step (devices, empty_device) line = (devices, empty_device).
Proof.
  unfold identifier_line, legacy_step.
  destruct (match_ (trim line) identifierRegex); [discriminate | reflexivity].
Qed.

Lemma legacy_fold_closed (lines : list str) (devices : list DeviceInfo) :
  Forall (fun line => identifier_line line = false) lines ->
  fold_left legacy_step lines (devices, empty_device)
  = (devices, empty_device).
Proof.
  intros H. induction H as [|line lines Hl H IH]; [reflexivity|].
  cbn [fold_left]. now rewrite (legacy_step_closed devices line Hl).
Qed.

(** X4: the lines that come before the first identifier line are ignored:
    a listing that begins with lines none of which is an identifier line
    gives the records of what follows them. *)
Theorem legacy_preamble_ignored (preamble rest : str) :
  Forall (fun line => identifier_line line = false) (split newline preamble) ->
  parseDeviceOutputLegacy (preamble ++ newline :: rest)
  = parseDeviceOutputLegacy rest.
Proof.
  intros H. rewrite !legacy_unfold, split_app, fold_left_app.
  now rewrite (legacy_fold_closed _ [] H).
Qed.

(** Name and platform lines before the first identifier. *)
Lemma legacy_preamble_ignored_witness :
  parseDeviceOutputLegacy
    (lit "Devices:" ++ [newline] ++ lit "Name: stray" ++ newline
     :: lit "Identifier: AB12")
  = parseDeviceOutputLegacy (lit "Identifier: AB12").
Proof.
  apply (legacy_preamble_ignored
           (lit "Devices:" ++ [newline] ++ lit "Name: stray")
           (lit "Identifier: AB12")).
  repeat constructor.
Defined.

(** X5: a text without any colon gives no record on the legacy path. *)
Theorem legacy_needs_colon (output : str) :
  all not_colon output -> parseDeviceOutputLegacy output = [].
Proof.
  intros H. apply length_zero_iff_nil.
  rewrite legacy_unfold, legacy_fold_count. cbn [fst snd flush].
  cbn [identifier empty_device truthy_opt length].
  assert (Hlines : Forall (fun line => identifier_line line = false)
                          (split newline output)).
  { pose proof (split_all not_colon output H) as Hs.
    remember (split newline output) as lines eqn:El. clear El.
    induction Hs as [|line lines Hl Hs IH]; constructor; [|exact IH].
    unfold identifier_line, match_. rewrite identifier_body.
    cbn [ignoreCase identifierRegex].
    now rewrite (exec_labelled_no_colon "Identifier:" hex_class (trim line) 0
                   eq_refl (trim_all _ _ Hl)). }
  remember (split newline output) as lines eqn:El. clear El.
  induction Hlines as [|line lines Hl _ IH]; [reflexivity|].
  simpl. rewrite Hl. exact IH.
Qed.

(** A table read on the legacy path. *)
Lemma legacy_needs_colon_witness :
  parseDeviceOutputLegacy
    (sample_header ++ [newline] ++ sample_separator ++ [newline] ++ sample_row)
  = [].
Proof. apply legacy_needs_colon. reflexivity. Defined.

End LegacyListings.

(* ===================================================================== *)
(** ** The identifier label anywhere on a line                            *)
(* ===================================================================== *)

Section LegacyTriggers.
Import Js Regex Words DeviceManager.

(** A line either opens a record, or leaves the result array and the
    identifier of the open record as they are. *)
Lemma legacy_step_cases (devices : list DeviceInfo) (cur : DeviceInfo)
      (line : str) :
  (exists m, match_ (trim line) identifierRegex = Some m
             /\ legacy_step (devices, cur) line
                = (flush devices cur, opened (group m 1)))
  \/ (fst (legacy_step (devices, cur) line) = devices
      /\ identifier (snd (legacy_step (devices, cur) line))
         = identifier cur).
Proof.
  unfold legacy_step.
  destruct (match_ (trim line) identifierRegex) as [m|] eqn:E.
  - left. exists m. split; reflexivity.
  - right. destruct (truthy_opt (identifier cur)).
    + destruct (match_ (trim line) nameRegex);
        [|destruct (match_ (trim line) platformRegex);
          [|destruct (match_ (trim line) connectionRegex)]];
        split; reflexivity.
    + split; reflexivity.
Qed.

(** A record that has been opened is in the result when the loop ends, just
    after the records that were there when it was opened. *)
Lemma legacy_fold_keeps (lines : list str) (earlier : list DeviceInfo)
      (v : str) :
  truthy v = true ->
  forall devices cur,
    (devices = earlier /\ identifier cur = Some v)
    \/ (exists d rest, devices = earlier ++ d :: rest
                       /\ identifier d = Some v) ->
    exists d later,
      flush (fst (fold_left legacy_step lines (devices, cur)))
            (snd (fold_left legacy_step lines (devices, cur)))
      = earlier ++ d :: later
      /\ identifier d = Some v.
Proof.
  intros Hv. induction lines as [|line lines IH]; intros devices cur H.
  - cbn [fold_left fst snd]. unfold flush.
    destruct H as [[-> Hc] | [d [rest [-> Hd]]]].
    + rewrite Hc. cbn [truthy_opt]. rewrite Hv. now exists cur, [].
    + destruct (truthy_opt (identifier cur)).
      * exists d, (rest ++ [cur]). split; [|exact Hd].
        now rewrite <- app_assoc.
      * now exists d, rest.
  - cbn [fold_left].
    destruct (legacy_step (devices, cur) line) as [devices' cur'] eqn:E.
    apply IH.
    destruct (legacy_step_cases devices cur line)
      as [[m [_ Hs]] | [Hd Hc]]; rewrite E in *.
    + injection Hs as -> ->. right. unfold flush.
      destruct H as [[-> Hc] | [d [rest [-> Hd]]]].
      * rewrite Hc. cbn [truthy_opt]. rewrite Hv. now exists cur, [].
      * destruct (truthy_opt (identifier cur)).
        -- exists d, (rest ++ [cur]). split; [|exact Hd].
           now rewrite <- app_assoc.
        -- now exists d, rest.
    + cbn [fst snd] in Hd, Hc. subst devices'.
      destruct H as [[-> Hcur] | H]; [left | right; exact H].
      split; [reflexivity | congruence].
Qed.

(** The record opened by an identifier line of a text is a record of the
    result, after one record for each identifier line above it. *)
Lemma legacy_opened_recorded (output : str) (before after : list str)
      (line : str) (m : list str) :
  split newline output = before ++ line :: after ->
  match_ (trim line) identifierRegex = Some m ->
  exists earlier d later,
    parseDeviceOutputLegacy output = earlier ++ d :: later
    /\ identifier d = Some (group m 1)
    /\ length earlier = length (filter identifier_line before).
Proof.
  intros Hs Hm. rewrite legacy_unfold, Hs, fold_left_app.
  cbn [fold_left].
  pose proof (legacy_fold_count before ([], empty_device)) as Hcount.
  destruct (fold_left legacy_step before ([], empty_device))
    as [devices cur].
  cbn [fst snd] in Hcount.
  assert (Hstep : legacy_step (devices, cur) line
                  = (flush devices cur, opened (group m 1))).
  { unfold legacy_step. now rewrite Hm. }
  rewrite Hstep.
  destruct (legacy_fold_keeps after (flush devices cur) (group m 1)
                              (identifier_not_empty _ _ Hm)
                              (flush devices cur) (opened (group m 1)))
    as [d [later [H Hd]]]; [now left|].
  exists (flush devices cur), d, later.
  split; [exact H | split; [exact Hd | exact Hcount]].
Qed.

(** C10: in a text read as a legacy listing, a line whose trimmed text has,
    anywhere, the label [Identifier:] in any case followed by optional white
    space and a hexadecimal digit or a hyphen opens a record: the loop
    flushes the record that was open and opens one whose identifier is a run
    of such characters read after the label, and the parser returns a record
    with that identifier, placed after one record for each identifier line
    above it.  When the trimmed line reads [pre], the label, white space, a
    run that cannot be extended, then [post], and no such place comes earlier
    on the line, the identifier is that very run, whatever [pre] and [post]
    are: the label may end a longer word and other text may surround it. *)
Theorem identifier_label_anywhere (output : str) (before after : list str)
        (line : str) :
  split newline output = before ++ line :: after ->
  (has_site "Identifier:" is_hex_or_hyphen (trim line) ->
   exists v,
     value_after "Identifier:" is_hex_or_hyphen (trim line) v
     /\ (forall devices cur,
            legacy_step (devices, cur) line = (flush devices cur, opened v))
     /\ exists earlier d later,
         parseDeviceOutputLegacy output = earlier ++ d :: later
         /\ identifier d = Some v
         /\ length earlier = length (filter identifier_line before))
  /\ (forall pre lab ws run post,
         trim line = pre ++ lab ++ ws ++ run ++ post ->
         spells (lit "Identifier:") lab = true -> all is_white ws ->
         hex_run run -> stops is_hex_or_hyphen post ->
         first_site "Identifier:" is_hex_or_hyphen (trim line) pre ->
         (forall devices cur,
             legacy_step (devices, cur) line
             = (flush devices cur, opened run))
         /\ exists earlier d later,
             parseDeviceOutputLegacy output = earlier ++ d :: later
             /\ identifier d = Some run
             /\ length earlier = length (filter identifier_line before)).
Proof.
  intros Hsplit. split.
  - intros Hs. destruct (identifier_match (trim line) Hs) as [m [Hm Hv]].
    exists (group m 1). split; [exact Hv|]. split.
    + intros devices cur. unfold legacy_step. rewrite Hm. reflexivity.
    + exact (legacy_opened_recorded output before after line m Hsplit Hm).
  - intros pre lab ws run post Ht Hlab Hws [Hne Hrun] Hpost Hfirst.
    assert (Hm : match_ (trim line) identifierRegex
                 = Some [lab ++ ws ++ run; run]).
    { rewrite Ht in *.
      apply (match_labelled_intro "Identifier:" hex_class identifierRegex
               identifier_body eq_refl pre lab ws run post Hlab Hws Hne).
      - apply (all_ext _ _ _ hex_class_test). exact Hrun.
      - apply (stops_ext _ _ _ hex_class_test). exact Hpost.
      - destruct run as [|c run]; [congruence|].
        apply all_cons in Hrun as [Hc _]. exact (hex_not_white c Hc).
      - intros pre' Hlen Hsite. apply (Hfirst pre' Hlen).
        exact (label_site_ext _ _ _ _ _ hex_class_test Hsite). }
    split.
    + intros devices cur. unfold legacy_step. rewrite Hm. reflexivity.
    + exact (legacy_opened_recorded output before after line _ Hsplit Hm).
Qed.

(** The label inside a longer word, with text after the run, on the second
    line of a listing. *)
Lemma identifier_label_anywhere_witness :
  (forall devices cur,
      legacy_step (devices, cur)
                  (lit "  serialIdentifier:  00008030-001A;usb ")
      = (flush devices cur, opened (lit "00008030-001A")))
  /\ exists earlier d later,
      parseDeviceOutputLegacy
        (lit "Identifier: AB12" ++ [newline]
         ++ lit "  serialIdentifier:  00008030-001A;usb " ++ [newline]
         ++ lit "Name: My iPhone")
      = earlier ++ d :: later
      /\ identifier d = Some (lit "00008030-001A")
      /\ length earlier
         = length (filter identifier_line [lit "Identifier: AB12"]).
Proof.
  apply (proj2 (identifier_label_anywhere
                  (lit "Identifier: AB12" ++ [newline]
                   ++ lit "  serialIdentifier:  00008030-001A;usb "
                   ++ [newline] ++ lit "Name: My iPhone")
                  [lit "Identifier: AB12"] [lit "Name: My iPhone"]
                  (lit "  serialIdentifier:  00008030-001A;usb ")
                  eq_refl)
               (lit "serial") (lit "Identifier:") (lit "  ")
               (lit "00008030-001A") (lit ";usb")).
  - reflexivity.
  - reflexivity.
  - reflexivity.
  - split; [discriminate | reflexivity].
  - reflexivity.
  - apply first_site_exec. eexists. vm_compute. reflexivity.
Defined.

End LegacyTriggers.


(* ===================================================================== *)
(** ** Further properties: process listings                               *)
(* ===================================================================== *)

Section ProcessListings.
Import Js Regex Words DeviceManager.

Lemma run_bol (ic : bool) (r : list node) (s : str) (i : Z) (m : list Z) :
  run ic (Bol :: r) s i m = if (i =? 0)%Z then run ic r s i m else None.
Proof. reflexivity. Qed.

(** The process id captured is a string of digits that is not empty. *)
Lemma match_pid_digits (t : str) (m : list str) :
  match_ t pidRegex = Some m -> group m 1 <> [] /\ all is_digit (group m 1).
Proof.
  unfold match_. change (ignoreCase pidRegex) with false.
  change (body pidRegex) with [Bol; Star Space; Open; Plus Digit; Close].
  destruct (exec_from false [Bol; Star Space; Open; Plus Digit; Close] t 0)
    as [[st [marks j]]|] eqn:E; [|discriminate].
  intros H. injection H as <-.
  apply exec_from_some in E as [pre [suf [-> [-> [H _]]]]].
  rewrite run_bol in H.
  destruct (Z.eqb_spec (0 + Z.of_nat (length pre)) 0) as [E0|]; [|discriminate].
  destruct pre as [|x pre]; [|simpl in E0; lia]. clear E0.
  cbn [app length] in *.
  apply run_star_some in H as [ws [s1 [-> [_ [H _]]]]].
  rewrite run_open in H.
  apply run_plus_some in H as [v [post [-> [Hne [Hv [H _]]]]]].
  rewrite run_close, run_end in H. injection H as <- <-.
  cbn [rev app groups group nth].
  rewrite (substring_mid_Z ws v post) by lia.
  split; [exact Hne | exact Hv].
Qed.

(** The path captured is the path of an installed bundle. *)
Lemma match_path_installed (t : str) (m : list str) :
  match_ t pathRegex = Some m -> installed_path (group m 1).
Proof.
  unfold match_. change (ignoreCase pathRegex) with false.
  destruct (exec_from false (body pathRegex) t 0) as [[st [marks j]]|] eqn:E;
    [|discriminate].
  intros H. injection H as <-.
  apply exec_from_some in E as [pre [suf [-> [-> [H _]]]]].
  rewrite path_body, run_open in H.
  apply run_lits_cs in H as [s1 [-> H]].
  apply run_plus_some in H as [b [s2 [-> [Hb [Hbs [H _]]]]]].
  apply run_lits_cs in H as [s3 [-> H]].
  apply run_plus_some in H as [a [s4 [-> [Ha [Has [H _]]]]]].
  apply run_lits_cs in H as [post [-> H]].
  rewrite run_close, run_end in H. injection H as <- <-.
  cbn [rev app groups group nth].
  replace (pre ++ lit "/private/var/containers/Bundle/Application/" ++ b
               ++ lit "/" ++ a ++ lit ".app" ++ post)
    with (pre ++ (lit "/private/var/containers/Bundle/Application/" ++ b
                      ++ lit "/" ++ a ++ lit ".app") ++ post)
    by now rewrite <- !app_assoc.
  rewrite substring_mid_Z.
  - exists b, a. apply slash_free_all in Hbs, Has. repeat split; auto.
  - lia.
  - rewrite !length_app.
    change (length (lit "/private/var/containers/Bundle/Application/")) with 43.
    change (length (lit "/")) with 1. change (length (lit ".app")) with 4.
    lia.
Qed.

Lemma application_step_shape (applications : list ApplicationInfo)
      (line : str) :
  Forall application_record applications ->
  Forall application_record (application_step applications line).
Proof.
  intros H. unfold application_step.
  destruct (negb (truthy (trim line))); [exact H|].
  destruct (match_ (trim line) bundleRegex) as [m|] eqn:E; [|exact H].
  destruct (negb (find_bundle applications (group m 1))); [|exact H].
  apply Forall_app. split; [exact H|]. constructor; [|constructor].
  destruct (match_bundle_some _ _ E)
    as [b [a [[pre [post [_ [Hb [Hbs [Ha Has]]]]]] [Eb Ea]]]].
  unfold application_record. cbn [bundleId displayName pid fullPath].
  rewrite Eb, Ea. split; [|split; [|split]].
  - split; assumption.
  - exists a. split; [split; assumption | reflexivity].
  - intros p Hp.
    destruct (match_ (trim line) pidRegex) as [pm|] eqn:Ep; [|discriminate].
    injection Hp as <-. exact (match_pid_digits _ _ Ep).
  - intros p Hp.
    destruct (match_ (trim line) pathRegex) as [pm|] eqn:Ep; [|discriminate].
    injection Hp as <-. exact (match_path_installed _ _ Ep).
Qed.

Lemma application_fold_shape (lines : list str)
      (applications : list ApplicationInfo) :
  Forall application_record applications ->
  Forall application_record (fold_left application_step lines applications).
Proof.
  revert applications.
  induction lines as [|line lines IH]; intros applications H; simpl.
  - exact H.
  - apply IH. now apply application_step_shape.
Qed.

(** X6: every record read from a process listing, whatever the text, has a
    bundle identifier that is a path segment, a display name that is a path
    segment ending in [.app], a process id that is absent or a string of
    digits, and a full path that is absent or reads
    [/private/var/containers/Bundle/Application/], a segment, a slash, a
    segment and [.app]. *)
Theorem application_records_shape (output : str) (app : ApplicationInfo) :
  In app (parseApplicationOutput output) -> application_record app.
Proof.
  intros Hin.
  exact (proj1 (Forall_forall _ _)
               (application_fold_shape (split newline output) []
                                       (Forall_nil _)) app Hin).
Qed.

(** The record of the sample line. *)
Lemma application_records_shape_witness :
  application_record
    {| bundleId := lit "com.example.app";
       displayName := Some (lit "MyGame.app");
       pid := Some (lit "123");
       fullPath :=
         Some (lit "/private/var/containers/Bundle/Application/com.example.app/MyGame.app") |}.
Proof.
  apply (application_records_shape sample_process). vm_compute. now left.
Defined.

(** *** Lines and what they contain *)

Lemma contains_refl (s : str) : contains s s.
Proof. exists [], []. now rewrite app_nil_r. Qed.

Lemma contains_trans (s l p : str) :
  contains s l -> contains l p -> contains s p.
Proof.
  intros [a [b ->]] [c [d ->]]. exists (a ++ c), (d ++ b).
  now rewrite <- !app_assoc.
Qed.

Lemma contains_cons (c : char) (s l : str) :
  contains s l -> contains (c :: s) l.
Proof. intros [a [b ->]]. now exists (c :: a), b. Qed.

(** The first line of a text begins the text, and every line occurs in it. *)
Lemma split_lines_occur (s : str) :
  (exists rest, s = hd [] (split newline s) ++ rest)
  /\ (forall l, In l (split newline s) -> contains s l).
Proof.
  induction s as [|c s [[rest Hrest] IH]].
  - split; [now exists [] |]. intros l [<- | []]. apply contains_refl.
  - simpl. destruct (c =? newline)%N.
    + split; [now exists (c :: s) |].
      intros l [<- | Hl]; [now exists [], (c :: s) |].
      apply contains_cons, IH, Hl.
    + pose proof (split_not_nil s) as Hne.
      destruct (split newline s) as [|l0 ls]; [congruence|]. simpl in Hrest.
      split; [exists rest; simpl; now rewrite Hrest |].
      intros l [<- | Hl].
      * exists [], rest. simpl. now rewrite Hrest.
      * apply contains_cons, IH. now right.
Qed.

Lemma trim_contained (s : str) : contains s (trim s).
Proof.
  unfold trim.
  destruct (drop_white_split s) as [l [Hs _]].
  destruct (drop_white_split (rev (drop_white s))) as [w [Hr _]].
  exists l, (rev w).
  rewrite <- rev_app_distr, <- Hr, rev_involutive. exact Hs.
Qed.

Lemma fragment_contains (t b a : str) :
  fragment t b a -> contains t (lit "Bundle/Application/").
Proof.
  intros [pre [post [-> _]]]. exists pre. eexists. reflexivity.
Qed.

Lemma application_step_cases (applications : list ApplicationInfo)
      (line : str) :
  match bundle_of_line line with
  | None => application_step applications line = applications
  | Some b =>
      if find_bundle applications b
      then application_step applications line = applications
      else exists app,
          bundleId app = b
          /\ application_step applications line = applications ++ [app]
  end.
Proof.
  unfold bundle_of_line, application_step.
  destruct (negb (truthy (trim line))); [reflexivity|].
  destruct (match_ (trim line) bundleRegex) as [m|]; [|reflexivity].
  destruct (find_bundle applications (group m 1)); cbn [negb]; [reflexivity|].
  eexists. split; [|reflexivity]. reflexivity.
Qed.

(** X7: a text in which [Bundle/Application/] does not occur gives no
    record. *)
Theorem applications_need_bundle_path (output : str) :
  ~ contains output (lit "Bundle/Application/") ->
  parseApplicationOutput output = [].
Proof.
  intros Hno. unfold parseApplicationOutput.
  assert (Hlines : forall line, In line (split newline output) ->
                                forall applications,
                                  application_step applications line
                                  = applications).
  { intros line Hin applications.
    unfold application_step.
    destruct (negb (truthy (trim line))); [reflexivity|].
    destruct (match_ (trim line) bundleRegex) as [m|] eqn:E; [|reflexivity].
    destruct (match_bundle_some _ _ E) as [b [a [Hf _]]].
    exfalso. apply Hno.
    apply (contains_trans _ line);
      [exact (proj2 (split_lines_occur output) line Hin)|].
    apply (contains_trans _ (trim line)); [apply trim_contained|].
    exact (fragment_contains _ _ _ Hf). }
  revert Hlines. generalize (split newline output) as lines.
  induction lines as [|line lines IH]; intros Hlines; [reflexivity|].
  cbn [fold_left]. rewrite (Hlines line (or_introl eq_refl)).
  apply IH. intros l Hl. apply Hlines. now right.
Qed.

(** A text too short to hold a bundle path. *)
Lemma applications_need_bundle_path_witness :
  parseApplicationOutput (lit "no processes") = [].
Proof.
  apply (applications_need_bundle_path (lit "no processes")).
  intros [pre [post H]]. apply (f_equal (@length char)) in H.
  rewrite !length_app in H.
  change (length (lit "no processes")) with 12 in H.
  change (length (lit "Bundle/Application/")) with 19 in H. lia.
Defined.

Lemma application_step_bundles (applications : list ApplicationInfo)
      (line b : str) :
  In b (map bundleId (application_step applications line))
  <-> In b (map bundleId applications) \/ bundle_of_line line = Some b.
Proof.
  pose proof (application_step_cases applications line) as H.
  destruct (bundle_of_line line) as [b0|].
  - destruct (find_bundle applications b0) eqn:F.
    + rewrite H. split; [now left|]. intros [Hin | Hb]; [exact Hin|].
      injection Hb as <-. now apply find_bundle_In.
    + destruct H as [app [Hb ->]]. rewrite map_app, in_app_iff. simpl.
      rewrite Hb. split.
      * intros [Hin | [<- | []]]; [now left | now right].
      * intros [Hin | Hb0]; [now left|]. injection Hb0 as <-.
        right. now left.
  - rewrite H. split; [now left|]. now intros [Hin | Hb].
Qed.

Lemma application_fold_bundles (lines : list str)
      (applications : list ApplicationInfo) (b : str) :
  In b (map bundleId (fold_left application_step lines applications))
  <-> In b (map bundleId applications)
      \/ exists line, In line lines /\ bundle_of_line line = Some b.
Proof.
  revert applications.
  induction lines as [|line lines IH]; intros applications; cbn [fold_left].
  - split; [now left|]. now intros [H | [line [[] _]]].
  - rewrite IH, application_step_bundles. split.
    + intros [[H | H] | [l [Hl Hb]]].
      * now left.
      * right. exists line. split; [now left | exact H].
      * right. exists l. split; [now right | exact Hb].
    + intros [H | [l [[<- | Hl] Hb]]].
      * left. now left.
      * left. now right.
      * right. now exists l.
Qed.

Lemma application_fold_seen (lines : list str)
      (applications : list ApplicationInfo) :
  (forall line b, In line lines -> bundle_of_line line = Some b ->
                  In b (map bundleId applications)) ->
  fold_left application_step lines applications = applications.
Proof.
  induction lines as [|line lines IH]; intros H; cbn [fold_left];
    [reflexivity|].
  assert (E : application_step applications line = applications).
  { pose proof (application_step_cases applications line) as Hc.
    destruct (bundle_of_line line) as [b|] eqn:Eb; [|exact Hc].
    pose proof (H line b (or_introl eq_refl) Eb) as Hin.
    apply find_bundle_In in Hin. now rewrite Hin in Hc. }
  rewrite E. apply IH. intros l b Hl. apply H. now right.
Qed.

Lemma application_fold_grows (lines : list str)
      (applications : list ApplicationInfo) :
  exists more,
    fold_left application_step lines applications = applications ++ more.
Proof.
  revert applications.
  induction lines as [|line lines IH]; intros applications; cbn [fold_left].
  - exists []. now rewrite app_nil_r.
  - destruct (IH (application_step applications line)) as [more ->].
    pose proof (application_step_cases applications line) as Hc.
    destruct (bundle_of_line line) as [b|].
    + destruct (find_bundle applications b).
      * rewrite Hc. now exists more.
      * destruct Hc as [app [_ ->]]. exists (app :: more).
        now rewrite <- app_assoc.
    + rewrite Hc. now exists more.
Qed.

(** X8: the bundle identifiers reported for a process listing are those,
    and only those, that some line of the listing names: no bundle that a
    line names is lost, whatever the lines around it. *)
Theorem applications_cover_the_listing (output b : str) :
  In b (map bundleId (parseApplicationOutput output))
  <-> exists line,
      In line (split newline output) /\ bundle_of_line line = Some b.
Proof.
  unfold parseApplicationOutput. rewrite application_fold_bundles.
  split; [now intros [[] | H] | now right].
Qed.

(** X9: text added after a process listing, on lines of its own, keeps the
    records already read, in their order, and only ever adds records at the
    end. *)
Theorem applications_only_grow (output added : str) :
  exists more,
    parseApplicationOutput (output ++ newline :: added)
    = parseApplicationOutput output ++ more.
Proof.
  unfold parseApplicationOutput. rewrite split_app, fold_left_app.
  apply application_fold_grows.
Qed.

(** X10: a process listing read twice over gives the records of the listing
    read once. *)
Theorem applications_listing_repeated (output : str) :
  parseApplicationOutput (output ++ newline :: output)
  = parseApplicationOutput output.
Proof.
  unfold parseApplicationOutput. rewrite split_app, fold_left_app.
  apply application_fold_seen. intros line b Hin Hb.
  apply application_fold_bundles. right. now exists line.
Qed.

End ProcessListings.

(* ===================================================================== *)
(** ** Further properties: how programs run                               *)
(* ===================================================================== *)

Section ProgramRuns.
Import Js Regex Effects Words DeviceManager.

Lemma executions_app (t u : list event) :
  executions (t ++ u) = executions t + executions u.
Proof. unfold executions. now rewrite filter_app, length_app. Qed.

Lemma questions_app (t u : list event) :
  questions (t ++ u) = questions t + questions u.
Proof. unfold questions. now rewrite filter_app, length_app. Qed.

(** A program followed by another: the trace of the first, then, when the
    first returns, the trace and the result of the second. *)
Lemma perform_bind {A B : Type} (w : world) (p : io A) (f : A -> io B) :
  forall n,
    match snd (perform w n p) with
    | inl e => perform w n (bind p f) = (fst (perform w n p), inl e)
    | inr a =>
        exists n',
          perform w n (bind p f)
          = (fst (perform w n p) ++ fst (perform w n' (f a)),
             snd (perform w n' (f a)))
    end.
Proof.
  induction p as [a|e|c values k IH|command k IH|values k IH]; intros n;
    cbn [bind].
  - exists n. cbn. now destruct (perform w n (f a)).
  - reflexivity.
  - rewrite !perform_print. cbn [fst snd]. specialize (IH n).
    destruct (snd (perform w n k)) as [e|a].
    + now rewrite IH.
    + destruct IH as [n' ->]. now exists n'.
  - rewrite !perform_exec. cbn [fst snd].
    specialize (IH (shell w command) n).
    destruct (snd (perform w n (k (shell w command)))) as [e|a].
    + now rewrite IH.
    + destruct IH as [n' ->]. now exists n'.
  - rewrite !perform_question. cbn [fst snd].
    specialize (IH (typed w n) (S n)).
    destruct (snd (perform w (S n) (k (typed w n)))) as [e|a].
    + now rewrite IH.
    + destruct IH as [n' ->]. now exists n'.
Qed.

(** A guarded program: the trace of the body, then, when the body throws,
    the trace and the result of the handler. *)
Lemma perform_try_catch {A : Type} (w : world) (p : io A)
      (h : error -> io A) :
  forall n,
    match snd (perform w n p) with
    | inr a => perform w n (try_catch p h) = (fst (perform w n p), inr a)
    | inl e =>
        exists n',
          perform w n (try_catch p h)
          = (fst (perform w n p) ++ fst (perform w n' (h e)),
             snd (perform w n' (h e)))
    end.
Proof.
  induction p as [a|e|c values k IH|command k IH|values k IH]; intros n;
    cbn [try_catch].
  - reflexivity.
  - exists n. cbn. now destruct (perform w n (h e)).
  - rewrite !perform_print. cbn [fst snd]. specialize (IH n).
    destruct (snd (perform w n k)) as [e|a].
    + destruct IH as [n' ->]. now exists n'.
    + now rewrite IH.
  - rewrite !perform_exec. cbn [fst snd].
    specialize (IH (shell w command) n).
    destruct (snd (perform w n (k (shell w command)))) as [e|a].
    + destruct IH as [n' ->]. now exists n'.
    + now rewrite IH.
  - rewrite !perform_question. cbn [fst snd].
    specialize (IH (typed w n) (S n)).
    destruct (snd (perform w (S n) (k (typed w n)))) as [e|a].
    + destruct IH as [n' ->]. now exists n'.
    + now rewrite IH.
Qed.

(** *** Bounds on commands and questions *)

Lemma at_most_return {A : Type} (e q : nat) (a : A) : at_most e q (Return a).
Proof. intros w n. cbn. lia. Qed.

Lemma at_most_throw {A : Type} (e q : nat) (x : error) :
  at_most e q (@Throw A x).
Proof. intros w n. cbn. lia. Qed.

Lemma at_most_print {A : Type} (e q : nat) (c : console)
      (values : list str) (k : io A) :
  at_most e q k -> at_most e q (Print c values k).
Proof. intros H w n. rewrite perform_print. exact (H w n). Qed.

Lemma at_most_exec {A : Type} (e q : nat) (command : str)
      (k : exec_result -> io A) :
  (forall r, at_most e q (k r)) -> at_most (S e) q (ExecSync command k).
Proof.
  intros H w n. rewrite perform_exec. cbn [fst].
  destruct (H (shell w command) w n) as [He Hq].
  unfold executions, questions in *. cbn. lia.
Qed.

Lemma at_most_question {A : Type} (e q : nat) (values : list str)
      (k : str -> io A) :
  (forall answer, at_most e q (k answer)) ->
  at_most e (S q) (Question values k).
Proof.
  intros H w n. rewrite perform_question. cbn [fst].
  destruct (H (typed w n) w (S n)) as [He Hq].
  unfold executions, questions in *. cbn. lia.
Qed.

Lemma at_most_prints {A : Type} (e q : nat) (lines : list (list str))
      (k : io A) :
  at_most e q k ->
  at_most e q (fold_right (fun values k' => Print Stdout values k') k lines).
Proof.
  intros H. induction lines as [|l lines IH]; [exact H|].
  cbn [fold_right]. now apply at_most_print.
Qed.

Lemma at_most_print_each {A B : Type} (e q : nat)
      (f : nat -> B -> list (list str)) (l : list B) (index : nat)
      (k : io A) :
  at_most e q k -> at_most e q (print_each f l index k).
Proof.
  intros H. revert index. induction l as [|x l IH]; intros index; [exact H|].
  cbn [print_each]. apply at_most_prints, IH.
Qed.

Lemma at_most_bind {A B : Type} (e1 q1 e2 q2 : nat) (p : io A)
      (f : A -> io B) :
  at_most e1 q1 p -> (forall a, at_most e2 q2 (f a)) ->
  at_most (e1 + e2) (q1 + q2) (bind p f).
Proof.
  intros Hp Hf w n. pose proof (perform_bind w p f n) as H.
  destruct (Hp w n) as [He Hq].
  destruct (snd (perform w n p)) as [x|a].
  - rewrite H. cbn [fst]. lia.
  - destruct H as [n' ->]. cbn [fst].
    destruct (Hf a w n') as [He' Hq'].
    rewrite executions_app, questions_app. lia.
Qed.

Lemma at_most_try_catch {A : Type} (e1 q1 e2 q2 : nat) (p : io A)
      (h : error -> io A) :
  at_most e1 q1 p -> (forall x, at_most e2 q2 (h x)) ->
  at_most (e1 + e2) (q1 + q2) (try_catch p h).
Proof.
  intros Hp Hh w n. pose proof (perform_try_catch w p h n) as H.
  destruct (Hp w n) as [He Hq].
  destruct (snd (perform w n p)) as [x|a].
  - destruct H as [n' ->]. cbn [fst].
    destruct (Hh x w n') as [He' Hq'].
    rewrite executions_app, questions_app. lia.
  - rewrite H. cbn [fst]. lia.
Qed.

(** *** Results *)

Lemma ends_return {A : Type} (P : A -> Prop) (Q : error -> Prop) (a : A) :
  P a -> ends P Q (Return a).
Proof. intros H w n. exact H. Qed.

Lemma ends_throw {A : Type} (P : A -> Prop) (Q : error -> Prop)
      (x : error) :
  Q x -> ends P Q (@Throw A x).
Proof. intros H w n. exact H. Qed.

Lemma ends_print {A : Type} (P : A -> Prop) (Q : error -> Prop)
      (c : console) (values : list str) (k : io A) :
  ends P Q k -> ends P Q (Print c values k).
Proof. intros H w n. rewrite perform_print. exact (H w n). Qed.

Lemma ends_exec {A : Type} (P : A -> Prop) (Q : error -> Prop)
      (command : str) (k : exec_result -> io A) :
  (forall r, ends P Q (k r)) -> ends P Q (ExecSync command k).
Proof. intros H w n. rewrite perform_exec. exact (H _ w n). Qed.

Lemma ends_question {A : Type} (P : A -> Prop) (Q : error -> Prop)
      (values : list str) (k : str -> io A) :
  (forall answer, ends P Q (k answer)) -> ends P Q (Question values k).
Proof. intros H w n. rewrite perform_question. exact (H _ w (S n)). Qed.

Lemma ends_print_each {A B : Type} (P : A -> Prop) (Q : error -> Prop)
      (f : nat -> B -> list (list str)) (l : list B) (index : nat)
      (k : io A) :
  ends P Q k -> ends P Q (print_each f l index k).
Proof.
  intros H w n. rewrite (proj1 (perform_print_each w n f l index k)).
  exact (H w n).
Qed.

Lemma ends_bind {A B : Type} (P : A -> Prop) (P' : B -> Prop)
      (Q : error -> Prop) (p : io A) (f : A -> io B) :
  ends P Q p -> (forall a, P a -> ends P' Q (f a)) -> ends P' Q (bind p f).
Proof.
  intros Hp Hf w n. pose proof (perform_bind w p f n) as H.
  specialize (Hp w n).
  destruct (snd (perform w n p)) as [x|a].
  - rewrite H. exact Hp.
  - destruct H as [n' ->]. exact (Hf a Hp w n').
Qed.

(** *** Commands *)

Lemma runs_only_return {A : Type} (C : str -> Prop) (a : A) :
  runs_only C (Return a).
Proof. intros w n command []. Qed.

Lemma runs_only_throw {A : Type} (C : str -> Prop) (x : error) :
  runs_only C (@Throw A x).
Proof. intros w n command []. Qed.

Lemma runs_only_print {A : Type} (C : str -> Prop) (c : console)
      (values : list str) (k : io A) :
  runs_only C k -> runs_only C (Print c values k).
Proof.
  intros H w n command. rewrite perform_print. cbn [fst].
  intros [E | Hin]; [discriminate | exact (H w n command Hin)].
Qed.

Lemma runs_only_exec {A : Type} (C : str -> Prop) (command : str)
      (k : exec_result -> io A) :
  C command -> (forall r, runs_only C (k r)) ->
  runs_only C (ExecSync command k).
Proof.
  intros Hc H w n c. rewrite perform_exec. cbn [fst].
  intros [E | Hin]; [now injection E as <- | exact (H _ w n c Hin)].
Qed.

Lemma runs_only_question {A : Type} (C : str -> Prop) (values : list str)
      (k : str -> io A) :
  (forall answer, runs_only C (k answer)) -> runs_only C (Question values k).
Proof.
  intros H w n c. rewrite perform_question. cbn [fst].
  intros [E | Hin]; [discriminate | exact (H _ w (S n) c Hin)].
Qed.

Lemma runs_only_prints {A : Type} (C : str -> Prop)
      (lines : list (list str)) (k : io A) :
  runs_only C k ->
  runs_only C (fold_right (fun values k' => Print Stdout values k') k lines).
Proof.
  intros H. induction lines as [|l lines IH]; [exact H|].
  cbn [fold_right]. now apply runs_only_print.
Qed.

Lemma runs_only_print_each {A B : Type} (C : str -> Prop)
      (f : nat -> B -> list (list str)) (l : list B) (index : nat)
      (k : io A) :
  runs_only C k -> runs_only C (print_each f l index k).
Proof.
  intros H. revert index. induction l as [|x l IH]; intros index; [exact H|].
  cbn [print_each]. apply runs_only_prints, IH.
Qed.

Lemma runs_only_bind {A B : Type} (C : str -> Prop) (P : A -> Prop)
      (p : io A) (f : A -> io B) :
  ends P (fun _ => True) p -> runs_only C p ->
  (forall a, P a -> runs_only C (f a)) -> runs_only C (bind p f).
Proof.
  intros He Hp Hf w n c. pose proof (perform_bind w p f n) as H.
  specialize (He w n). specialize (Hp w n c).
  destruct (snd (perform w n p)) as [x|a].
  - rewrite H. exact Hp.
  - destruct H as [n' ->]. cbn [fst]. rewrite in_app_iff.
    intros [Hin | Hin]; [exact (Hp Hin) | exact (Hf a He w n' c Hin)].
Qed.

Lemma runs_only_try_catch {A : Type} (C : str -> Prop) (p : io A)
      (h : error -> io A) :
  runs_only C p -> (forall x, runs_only C (h x)) ->
  runs_only C (try_catch p h).
Proof.
  intros Hp Hh w n c. pose proof (perform_try_catch w p h n) as H.
  specialize (Hp w n c).
  destruct (snd (perform w n p)) as [x|a].
  - destruct H as [n' ->]. cbn [fst]. rewrite in_app_iff.
    intros [Hin | Hin]; [exact (Hp Hin) | exact (Hh x w n' c Hin)].
  - rewrite H. exact Hp.
Qed.

Lemma ends_impl {A : Type} (P P' : A -> Prop) (Q Q' : error -> Prop)
      (p : io A) :
  (forall a, P a -> P' a) -> (forall x, Q x -> Q' x) ->
  ends P Q p -> ends P' Q' p.
Proof.
  intros HP HQ H w n. specialize (H w n).
  destruct (snd (perform w n p)); auto.
Qed.

End ProgramRuns.

(** Steps through the prints, commands, questions and tests of a program. *)
Ltac bound_step :=
  lazymatch goal with
  | |- Words.at_most _ _ (Effects.Return _) => apply at_most_return
  | |- Words.at_most _ _ (Effects.Throw _) => apply at_most_throw
  | |- Words.at_most _ _ (Effects.Print _ _ _) => apply at_most_print
  | |- Words.at_most _ _ (Effects.print_each _ _ _ _) => apply at_most_print_each
  | |- Words.at_most _ _ (Effects.ExecSync _ _) => apply at_most_exec; intros [?|?]
  | |- Words.at_most _ _ (Effects.Question _ _) => apply at_most_question; intros ?
  end.

Ltac ends_step :=
  lazymatch goal with
  | |- Words.ends _ _ (Effects.Print _ _ _) => apply ends_print
  | |- Words.ends _ _ (Effects.print_each _ _ _ _) => apply ends_print_each
  | |- Words.ends _ _ (Effects.ExecSync _ _) => apply ends_exec; intros [?|?]
  | |- Words.ends _ _ (Effects.Question _ _) => apply ends_question; intros ?
  end.

Ltac runs_step :=
  lazymatch goal with
  | |- Words.runs_only _ (Effects.Return _) => apply runs_only_return
  | |- Words.runs_only _ (Effects.Throw _) => apply runs_only_throw
  | |- Words.runs_only _ (Effects.Print _ _ _) => apply runs_only_print
  | |- Words.runs_only _ (Effects.print_each _ _ _ _) => apply runs_only_print_each
  | |- Words.runs_only _ (Effects.Question _ _) => apply runs_only_question; intros ?
  end.

Ltac split_test :=
  match goal with
  | |- context [if ?b then _ else _] => destruct b
  end.

(* ===================================================================== *)
(** ** Further properties: the steps of the tool                          *)
(* ===================================================================== *)

Section ToolSteps.
Import Js Regex Effects Words DeviceManager.

(** *** getDevices *)

Lemma getDevices_result (w : world) (n : nat) :
  snd (perform w n getDevices)
  = match shell w devices_command with
    | Output output => inr (parseDeviceOutput output)
    | Failed message => inl (ExecFailure message)
    end.
Proof.
  unfold getDevices. rewrite perform_print, perform_exec. cbn [snd].
  destruct (shell w devices_command) as [output|message]; [reflexivity|].
  rewrite !perform_print. cbn [snd].
  destruct (includes message (lit "command not found")
            || includes message (lit "xcrun")); [|reflexivity].
  rewrite !perform_print. reflexivity.
Qed.

(** X11: device discovery runs one command, the device listing, and asks
    nothing; it returns what the parser reads in the output of the command,
    and when the command fails it throws the failure on with its message,
    whatever the message is: a failed listing is never taken for a list
    without devices. *)
Theorem device_discovery_outcome (w : world) (n : nat) :
  snd (perform w n getDevices)
  = match shell w devices_command with
    | Output output => inr (parseDeviceOutput output)
    | Failed message => inl (ExecFailure message)
    end
  /\ filter is_exec (fst (perform w n getDevices)) = [Executed devices_command]
  /\ questions (fst (perform w n getDevices)) = 0.
Proof.
  split; [apply getDevices_result|].
  unfold getDevices. rewrite perform_print, perform_exec. cbn [fst].
  destruct (shell w devices_command) as [output|message];
    [split; reflexivity|].
  rewrite !perform_print. cbn [fst].
  destruct (includes message (lit "command not found")
            || includes message (lit "xcrun")); [|split; reflexivity].
  rewrite !perform_print. split; reflexivity.
Qed.

Lemma parsed_devices_identified (output : str) :
  Forall identified (parseDeviceOutput output).
Proof.
  unfold parseDeviceOutput.
  destruct (headerLineIndex (find_header (split newline output) 0) =? -1)%Z.
  - apply legacy_identified.
  - apply device_fold_identified. constructor.
Qed.

Lemma getDevices_bound : at_most 1 0 getDevices.
Proof. unfold getDevices. repeat (try split_test; bound_step). Qed.

Lemma getDevices_ends :
  ends (fun devices => Forall identified devices) (fun _ => True) getDevices.
Proof.
  intros w n. rewrite getDevices_result.
  destruct (shell w devices_command); [|exact I].
  apply parsed_devices_identified.
Qed.

Lemma getDevices_runs (C : str -> Prop) :
  C devices_command -> runs_only C getDevices.
Proof.
  intros HC. unfold getDevices. apply runs_only_print.
  apply runs_only_exec; [exact HC|]. intros [?|?];
    repeat (try split_test; runs_step).
Qed.

(** *** getApplications *)

Lemma getApplications_bound (deviceIdentifier : str) :
  at_most 1 0 (getApplications deviceIdentifier).
Proof. unfold getApplications. repeat (try split_test; bound_step). Qed.

Lemma getApplications_ends (deviceIdentifier : str) :
  ends (fun applications => Forall application_record applications)
       (fun _ => True) (getApplications deviceIdentifier).
Proof.
  unfold getApplications. repeat ends_step.
  - apply ends_return. apply application_fold_shape. constructor.
  - split_test.
    + apply ends_print, ends_return. constructor.
    + now apply ends_throw.
Qed.

Lemma getApplications_runs (C : str -> Prop) (deviceIdentifier : str) :
  C (processes_command deviceIdentifier) ->
  runs_only C (getApplications deviceIdentifier).
Proof.
  intros HC. unfold getApplications. apply runs_only_print.
  apply runs_only_exec; [exact HC|]. intros [?|?];
    repeat (try split_test; runs_step).
Qed.

(** *** The two menus *)

Lemma valid_selection_range (count : nat) (answer : str) (k : Z) :
  valid_selection count answer = Some k -> (1 <= k <= Z.of_nat count)%Z.
Proof.
  unfold valid_selection. destruct (parseInt (trim answer)) as [s|];
    [|discriminate].
  destruct (Z.ltb_spec s 1); [discriminate|].
  destruct (Z.gtb_spec s (Z.of_nat count)); [discriminate|].
  cbn [orb]. intros E. injection E as <-. lia.
Qed.

Lemma selected_member {B : Type} (items : list B) (answer : str) (k : Z)
      (d : B) :
  valid_selection (length items) answer = Some k ->
  In (nth (Z.to_nat (k - 1)) items d) items.
Proof.
  intros H. apply valid_selection_range in H. apply nth_In. lia.
Qed.

Lemma selectDevice_bound (devices : list DeviceInfo) :
  at_most 0 1 (selectDevice devices).
Proof.
  unfold selectDevice. destruct devices as [|d1 [|d2 rest]];
    repeat bound_step.
  match goal with |- context [valid_selection ?c ?a] =>
    destruct (valid_selection c a) end; repeat bound_step.
Qed.

Lemma selectApplication_bound (applications : list ApplicationInfo) :
  at_most 0 1 (selectApplication applications).
Proof.
  unfold selectApplication. destruct applications as [|a1 [|a2 rest]];
    repeat bound_step.
  match goal with |- context [valid_selection ?c ?a] =>
    destruct (valid_selection c a) end; repeat bound_step.
Qed.

Lemma selectDevice_runs (C : str -> Prop) (devices : list DeviceInfo) :
  runs_only C (selectDevice devices).
Proof.
  unfold selectDevice. destruct devices as [|d1 [|d2 rest]];
    repeat runs_step.
  match goal with |- context [valid_selection ?c ?a] =>
    destruct (valid_selection c a) end; repeat runs_step.
Qed.

Lemma selectApplication_runs (C : str -> Prop)
      (applications : list ApplicationInfo) :
  runs_only C (selectApplication applications).
Proof.
  unfold selectApplication. destruct applications as [|a1 [|a2 rest]];
    repeat runs_step.
  match goal with |- context [valid_selection ?c ?a] =>
    destruct (valid_selection c a) end; repeat runs_step.
Qed.

Lemma selectDevice_ends (devices : list DeviceInfo) :
  ends (fun selected => exists d, In d devices /\ selected = identifier d)
       (fun e => (devices = [] /\ e = NoDeviceToSelect)
                 \/ (2 <= length devices
                     /\ e = InvalidSelection (length devices)))
       (selectDevice devices).
Proof.
  unfold selectDevice. destruct devices as [|d1 [|d2 rest]].
  - apply ends_throw. now left.
  - repeat ends_step. apply ends_return. exists d1. split; [now left|].
    reflexivity.
  - repeat ends_step.
    match goal with |- context [valid_selection ?c ?a] =>
      destruct (valid_selection c a) as [k|] eqn:E end.
    + repeat ends_step. apply ends_return. eexists. split; [|reflexivity].
      exact (selected_member _ _ _ _ E).
    + apply ends_throw. right. split; [simpl; lia | reflexivity].
Qed.

Lemma selectApplication_ends (applications : list ApplicationInfo) :
  ends (fun selected => In selected applications)
       (fun e => (applications = [] /\ e = NoApplicationToSelect)
                 \/ (2 <= length applications
                     /\ e = InvalidSelection (length applications)))
       (selectApplication applications).
Proof.
  unfold selectApplication. destruct applications as [|a1 [|a2 rest]].
  - apply ends_throw. now left.
  - repeat ends_step. apply ends_return. now left.
  - repeat ends_step.
    match goal with |- context [valid_selection ?c ?a] =>
      destruct (valid_selection c a) as [k|] eqn:E end.
    + repeat ends_step. apply ends_return.
      exact (selected_member _ _ _ _ E).
    + apply ends_throw. right. split; [simpl; lia | reflexivity].
Qed.

(** X12: whatever is typed, a menu that returns returns a record of the list
    it was given, the device menu the identifier of such a record, and a menu
    that fails had nothing to choose from or, with two records or more, an
    answer out of range; neither menu runs a command, and neither asks more
    than one question. *)
Theorem menus_select_members (devices : list DeviceInfo)
        (applications : list ApplicationInfo) :
  (ends (fun selected => In selected (getIdentifiers devices))
        (fun e => (devices = [] /\ e = NoDeviceToSelect)
                  \/ (2 <= length devices
                      /\ e = InvalidSelection (length devices)))
        (selectDevice devices)
   /\ at_most 0 1 (selectDevice devices))
  /\ (ends (fun selected => In selected applications)
           (fun e => (applications = [] /\ e = NoApplicationToSelect)
                     \/ (2 <= length applications
                         /\ e = InvalidSelection (length applications)))
           (selectApplication applications)
      /\ at_most 0 1 (selectApplication applications)).
Proof.
  split; split.
  - eapply ends_impl; [| |apply selectDevice_ends].
    + intros selected [d [Hin ->]]. unfold getIdentifiers. now apply in_map.
    + intros x H. exact H.
  - apply selectDevice_bound.
  - apply selectApplication_ends.
  - apply selectApplication_bound.
Qed.

End ToolSteps.

Section ToolListings.
Import Js Regex Effects Words DeviceManager.

Lemma prints_only {A : Type} (w : world) (n : nat)
      (lines : list (list str)) (k : io A) (P : event -> Prop) :
  (forall values, P (Printed Stdout values)) ->
  Forall P (fst (perform w n k)) ->
  Forall P (fst (perform w n
     (fold_right (fun values k' => Print Stdout values k') k lines))).
Proof.
  intros HP Hk. induction lines as [|l lines IH]; [exact Hk|].
  cbn [fold_right]. rewrite perform_print. cbn [fst].
  constructor; [apply HP | exact IH].
Qed.

Lemma print_each_only {A B : Type} (w : world) (n : nat)
      (f : nat -> B -> list (list str)) (l : list B) (index : nat)
      (k : io A) (P : event -> Prop) :
  (forall values, P (Printed Stdout values)) ->
  Forall P (fst (perform w n k)) ->
  Forall P (fst (perform w n (print_each f l index k))).
Proof.
  intros HP Hk. revert index.
  induction l as [|x l IH]; intros index; [exact Hk|].
  cbn [print_each]. apply prints_only; [exact HP | apply IH].
Qed.

(** X13: showing a list of devices or of applications only prints: every
    event of the run is a line on standard output, so that no command is
    run and nothing is asked, and the run returns, whatever the list. *)
Theorem listings_only_print (w : world) (n : nat)
        (devices : list DeviceInfo) (applications : list ApplicationInfo) :
  (Forall (fun e => exists values, e = Printed Stdout values)
          (fst (perform w n (displayDevices devices)))
   /\ snd (perform w n (displayDevices devices)) = inr tt)
  /\ (Forall (fun e => exists values, e = Printed Stdout values)
             (fst (perform w n (displayApplications applications)))
      /\ snd (perform w n (displayApplications applications)) = inr tt).
Proof.
  split; split.
  - unfold displayDevices. destruct devices as [|d devices].
    + repeat constructor. now eexists.
    + rewrite perform_print. cbn [fst]. constructor; [now eexists|].
      apply print_each_only; [intros values; now eexists | constructor].
  - unfold displayDevices. destruct devices as [|d devices]; [reflexivity|].
    rewrite perform_print. cbn [snd].
    now rewrite (proj1 (perform_print_each w n _ _ _ _)).
  - unfold displayApplications. destruct applications as [|a applications].
    + repeat constructor. now eexists.
    + rewrite perform_print. cbn [fst]. constructor; [now eexists|].
      apply print_each_only; [intros values; now eexists | constructor].
  - unfold displayApplications.
    destruct applications as [|a applications]; [reflexivity|].
    rewrite perform_print. cbn [snd].
    now rewrite (proj1 (perform_print_each w n _ _ _ _)).
Qed.

Lemma displayDevices_bound (devices : list DeviceInfo) :
  at_most 0 0 (displayDevices devices).
Proof.
  unfold displayDevices. destruct devices; repeat bound_step.
Qed.

Lemma displayDevices_runs (C : str -> Prop) (devices : list DeviceInfo) :
  runs_only C (displayDevices devices).
Proof.
  unfold displayDevices. destruct devices; repeat runs_step.
Qed.

(** *** launchAppWithMetalHUD *)

Lemma launch_bound (deviceIdentifier : str) (app : ApplicationInfo) :
  at_most 1 0 (launchAppWithMetalHUD deviceIdentifier app).
Proof.
  unfold launchAppWithMetalHUD.
  destruct (negb (truthy_opt (fullPath app))); [bound_step|].
  cbv zeta. repeat (try split_test; bound_step).
Qed.

Lemma launch_runs (C : str -> Prop) (deviceIdentifier : str)
      (app : ApplicationInfo) :
  (forall path, fullPath app = Some path -> path <> [] ->
                C (launch_command deviceIdentifier path)) ->
  runs_only C (launchAppWithMetalHUD deviceIdentifier app).
Proof.
  intros HC. unfold launchAppWithMetalHUD.
  destruct (fullPath app) as [[|c path]|] eqn:E;
    cbn [truthy_opt truthy negb show]; try runs_step.
  cbv zeta. repeat runs_step.
  apply runs_only_exec; [apply (HC (c :: path) eq_refl); discriminate|].
  intros [?|?]; repeat (try split_test; runs_step).
Qed.

(** X14: once the path is there, the launch ends as its command ends: it
    returns when the command succeeds, whatever the command prints, and
    throws the failure of the command on, with its message, when it
    fails. *)
Theorem launch_outcome (w : world) (n : nat) (deviceIdentifier : str)
        (app : ApplicationInfo) (path : str) :
  fullPath app = Some path -> path <> [] ->
  snd (perform w n (launchAppWithMetalHUD deviceIdentifier app))
  = match shell w (launch_command deviceIdentifier path) with
    | Output _ => inr tt
    | Failed message => inl (ExecFailure message)
    end.
Proof.
  intros H Hne. unfold launchAppWithMetalHUD. rewrite H.
  cbn [truthy_opt show]. rewrite (truthy_nonempty path Hne). cbn [negb].
  rewrite !perform_print, perform_exec. cbn [snd].
  destruct (shell w (launch_command deviceIdentifier path))
    as [output|message]; rewrite !perform_print; cbn [snd].
  - destruct (truthy (trim output)); [|reflexivity].
    now rewrite !perform_print.
  - destruct (includes message (lit "not found"));
      [now rewrite !perform_print|].
    destruct (includes message (lit "permission"));
      [now rewrite !perform_print | reflexivity].
Qed.

(** A launch that fails with the message [denied]. *)
Lemma launch_outcome_witness :
  snd (perform (failing_world (lit "denied")) 0
               (launchAppWithMetalHUD (lit "D1")
                                      (application_at (Some (lit "/p")))))
  = inl (ExecFailure (lit "denied")).
Proof.
  apply (launch_outcome (failing_world (lit "denied")) 0 (lit "D1")
                        (application_at (Some (lit "/p"))) (lit "/p"));
    [reflexivity | discriminate].
Defined.

(** *** From the listing to the selection *)

Lemma selectDevice_identified (devices : list DeviceInfo) :
  Forall identified devices ->
  ends (fun selected => exists s, selected = Some s /\ s <> [])
       (fun _ => True) (selectDevice devices).
Proof.
  intros H. eapply ends_impl; [| |apply selectDevice_ends].
  - intros selected [d [Hin ->]].
    exact (proj1 (Forall_forall _ _) H d Hin).
  - intros x _. exact I.
Qed.

(** X15: the device parser and the device menu put together: whatever the
    device listing holds and whatever is typed, every identifier listed for
    the parsed devices is a string that is not empty, and so is the
    identifier the menu returns, which is never [undefined]. *)
Theorem parsed_selection_identified (output : str) :
  Forall (fun listed => exists s, listed = Some s /\ s <> [])
         (getIdentifiers (parseDeviceOutput output))
  /\ ends (fun selected => exists s, selected = Some s /\ s <> [])
          (fun _ => True) (selectDevice (parseDeviceOutput output)).
Proof.
  split.
  - unfold getIdentifiers. apply Forall_map.
    exact (parsed_devices_identified output).
  - apply selectDevice_identified, parsed_devices_identified.
Qed.

End ToolListings.

(* ===================================================================== *)
(** ** Further properties: the command line                               *)
(* ===================================================================== *)

Section CommandLine.
Import Js Regex Effects Words DeviceManager Cli.

Lemma ends_any {A : Type} (p : io A) :
  ends (fun _ => True) (fun _ => True) p.
Proof. intros w n. now destruct (snd (perform w n p)). Qed.

Lemma steps_ends (o : options) :
  ends (fun code => code = 0%Z) (fun _ => True) (steps o).
Proof.
  unfold steps.
  apply (ends_bind (fun _ => True)); [apply ends_any|].
  intros [|d devices] _; [now apply ends_print, ends_return|].
  assert (Hl : ends (fun code => code = 0%Z) (fun _ => True)
                    (bind (displayDevices (d :: devices))
                          (fun _ => Return 0%Z))).
  { apply (ends_bind (fun _ => True)); [apply ends_any|].
    intros _ _. now apply ends_return. }
  destruct (list_ o) as [[|]|]; [exact Hl| |].
  all: apply (ends_bind (fun _ => True)); [apply ends_any|];
    intros selectedIdentifier _; repeat ends_step;
    apply (ends_bind (fun _ => True)); [apply ends_any|];
    intros [|a applications] _;
    [repeat ends_step; now apply ends_return|];
    apply (ends_bind (fun _ => True)); [apply ends_any|];
    intros selectedApp _; repeat ends_step;
    destruct (launch o) as [[|]|];
    try (repeat ends_step; now apply ends_return);
    (apply (ends_bind (fun _ => True)); [apply ends_any|];
     intros _ _; now apply ends_return).
Qed.

(** X16: the command line never lets an error out.  It runs the steps; when
    they return it ends with status 0 and prints nothing more; when they
    throw, it prints the message of the error on standard error, as its
    last line, and ends with status 1. *)
Theorem main_exit_status (o : options) (w : world) (n : nat) :
  perform w n (main o)
  = match snd (perform w n (steps o)) with
    | inr _ => (fst (perform w n (steps o)), inr 0%Z)
    | inl e =>
        (fst (perform w n (steps o)) ++ [Printed Stderr (message_values e)],
         inr 1%Z)
    end.
Proof.
  unfold main.
  pose proof (perform_try_catch
                w (steps o)
                (fun error => Print Stderr (message_values error)
                                    (Return 1%Z)) n) as H.
  pose proof (steps_ends o w n) as Hs.
  destruct (snd (perform w n (steps o))) as [e|code].
  - destruct H as [n' ->]. reflexivity.
  - rewrite H. now rewrite Hs.
Qed.

Lemma handler_bound (x : error) :
  at_most 0 0 (Print Stderr (message_values x) (Return 1%Z)).
Proof. repeat bound_step. Qed.

Lemma listing_bound (devices : list DeviceInfo) (e q : nat) :
  at_most e q (bind (displayDevices devices) (fun _ => Return 0%Z)).
Proof.
  intros w n.
  destruct (at_most_bind 0 0 0 0 _ (fun _ : unit => Return 0%Z)
                         (displayDevices_bound devices)
                         (fun _ => at_most_return 0 0 0%Z) w n).
  lia.
Qed.

Lemma flow_bound (o : options) (devices : list DeviceInfo) :
  at_most 2 2
    (bind (selectDevice devices) (fun selectedIdentifier =>
       Print Stdout []
         (Print Stdout [show selectedIdentifier]
            (bind (getApplications (show selectedIdentifier))
               (fun applications =>
                  match applications with
                  | [] => Print Stdout [] (Print Stdout [] (Return 0%Z))
                  | _ :: _ =>
                      bind (selectApplication applications)
                        (fun selectedApp =>
      Print Stdout []
        (Print Stdout [bundleId selectedApp]
           (Print Stdout [show (fullPath selectedApp)]
              (match launch o with
               | Some false =>
                   Print Stdout []
                     (Print Stdout
                        [launch_command (show selectedIdentifier)
                                        (show (fullPath selectedApp))]
                        (Return 0%Z))
               | _ =>
                   bind (launchAppWithMetalHUD (show selectedIdentifier)
                                               selectedApp)
                        (fun _ => Return 0%Z)
               end))))
                  end))))).
Proof.
  apply (at_most_bind 0 1 2 1); [apply selectDevice_bound|].
  intros selectedIdentifier. repeat bound_step.
  apply (at_most_bind 1 0 1 1); [apply getApplications_bound|].
  intros [|a applications]; [repeat bound_step|].
  apply (at_most_bind 0 1 1 0); [apply selectApplication_bound|].
  intros selectedApp. repeat bound_step.
  destruct (launch o) as [[|]|]; try (repeat bound_step);
    (apply (at_most_bind 1 0 0 0); [apply launch_bound|]);
    intros _; bound_step.
Qed.

(** X17: whatever the options, the devices, the applications and what is
    typed, one run of the command line runs three commands at most and asks
    two questions at most. *)
Theorem main_bounds (o : options) : at_most 3 2 (main o).
Proof.
  unfold main.
  apply (at_most_try_catch 3 2 0 0); [|apply handler_bound].
  unfold steps. apply (at_most_bind 1 0 2 2); [apply getDevices_bound|].
  intros [|d devices]; [repeat bound_step|].
  destruct (list_ o) as [[|]|];
    [apply listing_bound | apply flow_bound | apply flow_bound].
Qed.

End CommandLine.

Section CommandLineRuns.
Import Js Regex Effects Words DeviceManager Cli.

Lemma handler_runs (C : str -> Prop) (x : error) :
  runs_only C (Print Stderr (message_values x) (Return 1%Z)).
Proof. repeat runs_step. Qed.

(** The commands of the steps: the device listing, the process listing of a
    device that has an identifier and, unless the launch is turned off, the
    launch of an installed path. *)
Lemma steps_runs (o : options) (C : str -> Prop) :
  C devices_command ->
  (forall deviceIdentifier,
      deviceIdentifier <> [] -> C (processes_command deviceIdentifier)) ->
  (launch o <> Some false ->
   forall deviceIdentifier path,
     deviceIdentifier <> [] -> installed_path path ->
     C (launch_command deviceIdentifier path)) ->
  runs_only C (steps o).
Proof.
  intros Hd Hp Hl. unfold steps.
  apply (runs_only_bind C (fun devices => Forall identified devices));
    [apply getDevices_ends | now apply getDevices_runs |].
  intros [|d devices] Hid; [repeat runs_step|].
  assert (Hlist : runs_only C (bind (displayDevices (d :: devices))
                                    (fun _ => Return 0%Z))).
  { apply (runs_only_bind C (fun _ => True));
      [apply ends_any | apply displayDevices_runs |].
    intros _ _. runs_step. }
  destruct (list_ o) as [[|]|]; [exact Hlist| |].
  all: apply (runs_only_bind
                C (fun selected => exists s, selected = Some s /\ s <> []));
    [now apply selectDevice_identified | apply selectDevice_runs |];
    intros selected [s [-> Hs]]; cbn [show]; repeat runs_step;
    apply (runs_only_bind
             C (fun applications => Forall application_record applications));
    [apply getApplications_ends | now apply getApplications_runs, Hp |];
    intros [|a applications] Happs; [repeat runs_step|];
    apply (runs_only_bind C (fun app => In app (a :: applications)));
    [eapply ends_impl; [| |apply selectApplication_ends]; auto
    | apply selectApplication_runs |];
    intros app Hin; repeat runs_step;
    pose proof (proj1 (Forall_forall _ _) Happs app Hin)
      as [_ [_ [_ Hpath]]];
    destruct (launch o) as [[|]|];
    try (repeat runs_step; fail);
    (apply (runs_only_bind C (fun _ => True));
     [apply ends_any
     | apply launch_runs; intros path Hf _;
       apply Hl; [discriminate | exact Hs | exact (Hpath path Hf)]
     | intros _ _; runs_step]).
Qed.

(** X19: with the launch turned off the command line only lists: every
    command it runs is the device listing or a process listing, there are
    two of them at most, and no launch command is run. *)
Theorem dry_run (o : options) :
  launch o = Some false ->
  at_most 2 2 (main o) /\ runs_only listing_command (main o).
Proof.
  intros H. split.
  - unfold main.
    apply (at_most_try_catch 2 2 0 0); [|apply handler_bound].
    unfold steps. apply (at_most_bind 1 0 1 2); [apply getDevices_bound|].
    intros [|d devices]; [repeat bound_step|].
    destruct (list_ o) as [[|]|]; [apply listing_bound| |].
    all: rewrite H;
      apply (at_most_bind 0 1 1 1); [apply selectDevice_bound|];
      intros selectedIdentifier; repeat bound_step;
      apply (at_most_bind 1 0 0 1); [apply getApplications_bound|];
      intros [|a applications]; [repeat bound_step|];
      apply (at_most_bind 0 1 0 0); [apply selectApplication_bound|];
      intros selectedApp; repeat bound_step.
  - unfold main. apply runs_only_try_catch; [|apply handler_runs].
    apply steps_runs.
    + now left.
    + intros deviceIdentifier _. right. now exists deviceIdentifier.
    + intros Hl. congruence.
Qed.

(** The launch turned off, the list option unset. *)
Lemma dry_run_witness :
  at_most 2 2 (main {| launch := Some false; list_ := None |})
  /\ runs_only listing_command
               (main {| launch := Some false; list_ := None |}).
Proof.
  apply (dry_run {| launch := Some false; list_ := None |}). reflexivity.
Defined.

(** X21: when the device listing gives no device, the command line says so
    and ends with status 0: the listing is the one command run, nothing is
    asked, and no menu is shown. *)
Theorem no_devices_run (o : options) (w : world) (n : nat) (output : str) :
  shell w devices_command = Output output ->
  parseDeviceOutput output = [] ->
  perform w n (main o)
  = ([Printed Stdout []; Executed devices_command; Printed Stdout []],
     inr 0%Z).
Proof.
  intros Hs Hp. unfold main, steps, getDevices.
  cbn [bind try_catch perform]. rewrite Hs.
  cbn [bind try_catch perform]. rewrite Hp. reflexivity.
Qed.

(** A listing that prints nothing. *)
Lemma no_devices_run_witness :
  perform (typing_world []) 0 (main {| launch := None; list_ := None |})
  = ([Printed Stdout []; Executed devices_command; Printed Stdout []],
     inr 0%Z).
Proof.
  apply (no_devices_run {| launch := None; list_ := None |}
                        (typing_world []) 0 []); reflexivity.
Defined.

(** X22: when the device listing fails, the command line ends with status 1
    after printing the message of the failure on standard error as its last
    line; the listing is the one command run and nothing is asked. *)
Theorem discovery_failure_run (o : options) (w : world) (n : nat)
        (message : str) :
  shell w devices_command = Failed message ->
  snd (perform w n (main o)) = inr 1%Z
  /\ filter is_exec (fst (perform w n (main o))) = [Executed devices_command]
  /\ questions (fst (perform w n (main o))) = 0
  /\ exists t,
      fst (perform w n (main o)) = t ++ [Printed Stderr [message]].
Proof.
  intros Hs. unfold main, steps, getDevices.
  cbn [bind try_catch perform]. rewrite Hs.
  cbn [bind try_catch perform].
  destruct (includes message (lit "command not found")
            || includes message (lit "xcrun"));
    cbn [bind try_catch perform message_values fst snd];
    (split; [reflexivity|]); (split; [reflexivity|]);
    (split; [reflexivity|]).
  - now exists [Printed Stdout []; Executed devices_command;
                Printed Stderr []; Printed Stderr [message];
                Printed Stderr []; Printed Stderr []].
  - now exists [Printed Stdout []; Executed devices_command;
                Printed Stderr []; Printed Stderr [message]].
Qed.

(** Every command fails with the message [denied]. *)
Lemma discovery_failure_run_witness :
  snd (perform (failing_world (lit "denied")) 0
               (main {| launch := None; list_ := None |})) = inr 1%Z
  /\ filter is_exec
       (fst (perform (failing_world (lit "denied")) 0
                     (main {| launch := None; list_ := None |})))
     = [Executed devices_command]
  /\ questions
       (fst (perform (failing_world (lit "denied")) 0
                     (main {| launch := None; list_ := None |}))) = 0
  /\ exists t,
      fst (perform (failing_world (lit "denied")) 0
                   (main {| launch := None; list_ := None |}))
      = t ++ [Printed Stderr [lit "denied"]].
Proof.
  apply (discovery_failure_run {| launch := None; list_ := None |}
                               (failing_world (lit "denied")) 0
                               (lit "denied")).
  reflexivity.
Defined.

End CommandLineRuns.

(* ===================================================================== *)
(** ** Runs in a given world                                              *)
(* ===================================================================== *)

Section WorldRuns.
Import Js Regex Effects Words DeviceManager Cli.

Lemma ends_returns_in {A : Type} (w : world) (P : A -> Prop)
      (Q : error -> Prop) (p : io A) :
  ends P Q p -> returns_in w P p.
Proof.
  intros H n. specialize (H w n). now destruct (snd (perform w n p)).
Qed.

Lemma runs_only_in {A : Type} (w : world) (C : str -> Prop) (p : io A) :
  runs_only C p -> runs_in w C p.
Proof. intros H n command. exact (H w n command). Qed.

Lemma runs_in_print {A : Type} (w : world) (C : str -> Prop) (c : console)
      (values : list str) (k : io A) :
  runs_in w C k -> runs_in w C (Print c values k).
Proof.
  intros H n command. rewrite perform_print. cbn [fst].
  intros [E | Hin]; [discriminate | exact (H n command Hin)].
Qed.

Lemma runs_in_bind {A B : Type} (w : world) (C : str -> Prop)
      (P : A -> Prop) (p : io A) (f : A -> io B) :
  returns_in w P p -> runs_in w C p ->
  (forall a, P a -> runs_in w C (f a)) -> runs_in w C (bind p f).
Proof.
  intros Hr Hp Hf n c. pose proof (perform_bind w p f n) as H.
  specialize (Hr n). specialize (Hp n c).
  destruct (snd (perform w n p)) as [x|a].
  - rewrite H. exact Hp.
  - destruct H as [n' ->]. cbn [fst]. rewrite in_app_iff.
    intros [Hin | Hin]; [exact (Hp Hin) | exact (Hf a Hr n' c Hin)].
Qed.

Lemma runs_in_try_catch {A : Type} (w : world) (C : str -> Prop)
      (p : io A) (h : error -> io A) :
  runs_in w C p -> (forall x, runs_in w C (h x)) ->
  runs_in w C (try_catch p h).
Proof.
  intros Hp Hh n c. pose proof (perform_try_catch w p h n) as H.
  specialize (Hp n c).
  destruct (snd (perform w n p)) as [x|a].
  - destruct H as [n' ->]. cbn [fst]. rewrite in_app_iff.
    intros [Hin | Hin]; [exact (Hp Hin) | exact (Hh x n' c Hin)].
  - rewrite H. exact Hp.
Qed.

(** A program that runs no command and asks nothing adds neither to a
    trace. *)
Lemma quiet_trace {A : Type} (w : world) (n : nat) (p : io A) :
  at_most 0 0 p ->
  filter is_exec (fst (perform w n p)) = []
  /\ questions (fst (perform w n p)) = 0.
Proof.
  intros H. destruct (H w n) as [He Hq]. unfold executions in He. split.
  - destruct (filter is_exec (fst (perform w n p))); [reflexivity|].
    simpl in He. lia.
  - lia.
Qed.

Lemma quiet_bind {A B : Type} (w : world) (n : nat) (p : io A)
      (f : A -> io B) :
  (forall a, at_most 0 0 (f a)) ->
  filter is_exec (fst (perform w n (bind p f)))
  = filter is_exec (fst (perform w n p))
  /\ questions (fst (perform w n (bind p f)))
     = questions (fst (perform w n p)).
Proof.
  intros Hf. pose proof (perform_bind w p f n) as H.
  destruct (snd (perform w n p)) as [x|a].
  - rewrite H. split; reflexivity.
  - destruct H as [n' ->]. cbn [fst].
    destruct (quiet_trace w n' (f a) (Hf a)) as [He Hq].
    rewrite filter_app, questions_app, He, Hq, app_nil_r.
    split; [reflexivity | lia].
Qed.

Lemma quiet_try_catch {A : Type} (w : world) (n : nat) (p : io A)
      (h : error -> io A) :
  (forall x, at_most 0 0 (h x)) ->
  filter is_exec (fst (perform w n (try_catch p h)))
  = filter is_exec (fst (perform w n p))
  /\ questions (fst (perform w n (try_catch p h)))
     = questions (fst (perform w n p)).
Proof.
  intros Hh. pose proof (perform_try_catch w p h n) as H.
  destruct (snd (perform w n p)) as [x|a].
  - destruct H as [n' ->]. cbn [fst].
    destruct (quiet_trace w n' (h x) (Hh x)) as [He Hq].
    rewrite filter_app, questions_app, He, Hq, app_nil_r.
    split; [reflexivity | lia].
  - rewrite H. split; reflexivity.
Qed.

Lemma getDevices_executed (w : world) (n : nat) :
  filter is_exec (fst (perform w n getDevices)) = [Executed devices_command]
  /\ questions (fst (perform w n getDevices)) = 0.
Proof.
  unfold getDevices. rewrite perform_print, perform_exec. cbn [fst].
  destruct (shell w devices_command) as [output|message];
    [split; reflexivity|].
  rewrite !perform_print. cbn [fst].
  destruct (includes message (lit "command not found")
            || includes message (lit "xcrun")); [|split; reflexivity].
  rewrite !perform_print. split; reflexivity.
Qed.

(** X18: with the list option the command line runs the device listing,
    once, and nothing else, and asks nothing, whatever the listing prints
    and whether it succeeds or fails. *)
Theorem list_mode (o : options) (w : world) (n : nat) :
  list_ o = Some true ->
  filter is_exec (fst (perform w n (main o))) = [Executed devices_command]
  /\ questions (fst (perform w n (main o))) = 0.
Proof.
  intros H. unfold main.
  destruct (quiet_try_catch
              w n (steps o)
              (fun error => Print Stderr (message_values error)
                                  (Return 1%Z)) handler_bound) as [-> ->].
  unfold steps. rewrite H.
  match goal with
  | |- context [bind getDevices ?f] =>
      destruct (quiet_bind w n getDevices f) as [-> ->]
  end.
  - intros [|d devices]; [repeat bound_step | apply listing_bound].
  - apply getDevices_executed.
Qed.

(** The list option alone, in a world in which every command fails. *)
Lemma list_mode_witness :
  filter is_exec
    (fst (perform (failing_world (lit "denied")) 0
                  (main {| launch := None; list_ := Some true |})))
  = [Executed devices_command]
  /\ questions
       (fst (perform (failing_world (lit "denied")) 0
                     (main {| launch := None; list_ := Some true |}))) = 0.
Proof.
  apply (list_mode {| launch := None; list_ := Some true |}
                   (failing_world (lit "denied")) 0).
  reflexivity.
Defined.

(** *** The commands of a run, tied to what the listings print *)

Lemma getDevices_returns_in (w : world) :
  returns_in w
    (fun devices =>
       exists output,
         shell w devices_command = Output output
         /\ devices = parseDeviceOutput output)
    getDevices.
Proof.
  intros n. rewrite getDevices_result.
  destruct (shell w devices_command) as [output|message]; [|exact I].
  now exists output.
Qed.

Lemma getApplications_returns_in (w : world) (deviceIdentifier : str) :
  returns_in w
    (fun applications =>
       applications = []
       \/ exists processes,
           shell w (processes_command deviceIdentifier) = Output processes
           /\ applications = parseApplicationOutput processes)
    (getApplications deviceIdentifier).
Proof.
  intros n. unfold getApplications. rewrite perform_print, perform_exec.
  cbn [snd].
  destruct (shell w (processes_command deviceIdentifier))
    as [processes|message].
  - right. now exists processes.
  - rewrite !perform_print. cbn [snd].
    destruct (includes message (lit "No matching processes")).
    + rewrite perform_print. now left.
    + exact I.
Qed.

(** The steps that follow the choice of a device read by the parser. *)
Lemma flow_runs_in (o : options) (w : world) (output : str)
      (d : DeviceInfo) :
  shell w devices_command = Output output ->
  In d (parseDeviceOutput output) ->
  runs_in w (program_command w)
    (Print Stdout []
       (Print Stdout [show (identifier d)]
          (bind (getApplications (show (identifier d)))
             (fun applications =>
                match applications with
                | [] => Print Stdout [] (Print Stdout [] (Return 0%Z))
                | _ :: _ =>
                    bind (selectApplication applications)
                      (fun selectedApp =>
      Print Stdout []
        (Print Stdout [bundleId selectedApp]
           (Print Stdout [show (fullPath selectedApp)]
              (match launch o with
               | Some false =>
                   Print Stdout []
                     (Print Stdout
                        [launch_command (show (identifier d))
                                        (show (fullPath selectedApp))]
                        (Return 0%Z))
               | _ =>
                   bind (launchAppWithMetalHUD (show (identifier d))
                                               selectedApp)
                        (fun _ => Return 0%Z)
               end))))
                end)))).
Proof.
  intros Hshell Hd.
  destruct (proj1 (Forall_forall _ _) (parsed_devices_identified output)
                  d Hd) as [s [Hs Hne]].
  assert (Hdevice :
    forall command,
      (command = processes_command s
       \/ exists processes app path,
           shell w (processes_command s) = Output processes
           /\ In app (parseApplicationOutput processes)
           /\ fullPath app = Some path
           /\ installed_path path
           /\ command = launch_command s path) ->
      program_command w command).
  { intros command H. right. exists output, d, s.
    split; [exact Hshell|]. split; [exact Hd|]. split; [exact Hs|].
    split; [exact Hne | exact H]. }
  rewrite Hs. cbn [show]. do 2 apply runs_in_print.
  apply (runs_in_bind w _ _ _ _ (getApplications_returns_in w s));
    [apply runs_only_in, getApplications_runs, Hdevice; now left|].
  intros [|a applications] Happs; [apply runs_only_in; repeat runs_step|].
  destruct Happs as [Happs | [processes [Hp Happs]]]; [discriminate|].
  apply (runs_in_bind w _ _ _ _
           (ends_returns_in w _ _ _
                            (selectApplication_ends (a :: applications))));
    [apply runs_only_in, selectApplication_runs|].
  intros app Hin. do 3 apply runs_in_print.
  assert (Hlaunch :
    runs_in w (program_command w)
            (bind (launchAppWithMetalHUD s app) (fun _ => Return 0%Z))).
  { apply runs_only_in.
    apply (runs_only_bind _ (fun _ => True));
      [apply ends_any | |intros _ _; runs_step].
    apply launch_runs. intros path Hf _. apply Hdevice. right.
    assert (Hin0 : In app (parseApplicationOutput processes))
      by now rewrite <- Happs.
    exists processes, app, path.
    split; [exact Hp|]. split; [exact Hin0|]. split; [exact Hf|].
    split; [|reflexivity].
    exact (proj2 (proj2 (proj2
             (proj1 (Forall_forall _ _)
                    (application_fold_shape (split newline processes) []
                                            (Forall_nil _)) app Hin0)))
             path Hf). }
  destruct (launch o) as [[|]|];
    [exact Hlaunch | apply runs_only_in; repeat runs_step | exact Hlaunch].
Qed.

(** X20: every command the command line runs, whatever the options and the
    answers, is tied to what the listings print in the world of the run.  It
    is the device listing; or the process listing of a device that the
    parser reads in the output of the device listing, named by its
    identifier, a string that is not empty; or the launch, on such a device,
    of the full path of an application that the parser reads in the output
    of the process listing of that device, a path that reads
    [/private/var/containers/Bundle/Application/], a segment, a slash, a
    segment and [.app]. *)
Theorem main_commands (o : options) (w : world) :
  runs_in w (program_command w) (main o).
Proof.
  unfold main. apply runs_in_try_catch;
    [|intros x; apply runs_only_in, handler_runs].
  unfold steps.
  apply (runs_in_bind w _ _ _ _ (getDevices_returns_in w));
    [apply runs_only_in, getDevices_runs; now left|].
  intros devices [output [Hshell Hdevices]].
  destruct devices as [|d0 devices];
    [apply runs_only_in; repeat runs_step|].
  destruct (list_ o) as [[|]|].
  - apply runs_only_in.
    apply (runs_only_bind _ (fun _ => True));
      [apply ends_any | apply displayDevices_runs |].
    intros _ _. runs_step.
  - apply (runs_in_bind w _ _ _ _
             (ends_returns_in w _ _ _ (selectDevice_ends (d0 :: devices))));
      [apply runs_only_in, selectDevice_runs|].
    intros selected [d [Hin ->]].
    apply (flow_runs_in o w output d Hshell). now rewrite <- Hdevices.
  - apply (runs_in_bind w _ _ _ _
             (ends_returns_in w _ _ _ (selectDevice_ends (d0 :: devices))));
      [apply runs_only_in, selectDevice_runs|].
    intros selected [d [Hin ->]].
    apply (flow_runs_in o w output d Hshell). now rewrite <- Hdevices.
Qed.

(** X23: without the list option and with the launch not turned off, when
    the device listing gives one device and the process listing of that
    device gives one application, the command line asks nothing.  When the
    application has a full path, three commands are run in this order, the
    device listing, the process listing of the device and the launch of the
    application on the device, and the status is 0 when the launch succeeds
    and 1 when it fails.  When the application has no full path, its line
    lacking the [/private/var/containers/] prefix, the two listings are the
    only commands run and the status is 1. *)
Theorem single_choice_run (o : options) (w : world) (n : nat)
        (devices processes : str) (d : DeviceInfo) (app : ApplicationInfo) :
  list_ o <> Some true -> launch o <> Some false ->
  shell w devices_command = Output devices ->
  parseDeviceOutput devices = [d] ->
  shell w (processes_command (show (identifier d))) = Output processes ->
  parseApplicationOutput processes = [app] ->
  questions (fst (perform w n (main o))) = 0
  /\ match fullPath app with
     | Some path =>
         filter is_exec (fst (perform w n (main o)))
         = [ Executed devices_command;
             Executed (processes_command (show (identifier d)));
             Executed (launch_command (show (identifier d)) path) ]
         /\ snd (perform w n (main o))
            = inr (match shell w (launch_command (show (identifier d))
                                                 path) with
                   | Output _ => 0%Z
                   | Failed _ => 1%Z
                   end)
     | None =>
         filter is_exec (fst (perform w n (main o)))
         = [ Executed devices_command;
             Executed (processes_command (show (identifier d))) ]
         /\ snd (perform w n (main o)) = inr 1%Z
     end.
Proof.
  intros Hlist Hlaunch Hd Hpd Hp Hpa.
  assert (Hne : fullPath app <> Some []).
  { apply (parsed_paths_not_empty processes app). rewrite Hpa. now left. }
  unfold main, steps, getDevices. cbn [bind try_catch perform].
  rewrite Hd. cbn [bind try_catch perform]. rewrite Hpd.
  destruct (list_ o) as [[|]|]; [congruence| |];
    (destruct (launch o) as [[|]|]; [|congruence|]).
  all: unfold selectDevice, getApplications; cbn [bind try_catch perform];
    rewrite Hp; cbn [bind try_catch perform]; rewrite Hpa;
    unfold selectApplication; cbn [bind try_catch perform];
    unfold launchAppWithMetalHUD;
    destruct (fullPath app) as [[|c path]|] eqn:Hf;
    [exfalso; apply Hne; reflexivity| |];
    cbn [truthy_opt truthy negb show bind try_catch perform];
    [ destruct (shell w (launch_command (show (identifier d)) (c :: path)))
        as [output|message]; cbn [bind try_catch perform];
      [ destruct (truthy (trim output))
      | destruct (includes message (lit "not found"));
        [|destruct (includes message (lit "permission"))] ]
    | ];
    cbn [bind try_catch perform fst snd]; unfold questions;
    cbn [filter is_exec is_question length]; repeat split; reflexivity.
Qed.

(** A table with one device, a process listing with one application, and a
    world in which every other command prints nothing. *)
Lemma single_choice_run_witness :
  let w := listing_world
             (sample_header ++ [newline] ++ sample_separator ++ [newline]
              ++ sample_row)
             sample_process in
  let o := {| launch := None; list_ := None |} in
  questions (fst (perform w 0 (main o))) = 0
  /\ filter is_exec (fst (perform w 0 (main o)))
     = [ Executed devices_command;
         Executed (processes_command
                     (lit "9ABF9F72-7AAF-5C9E-BDD3-0A781FD70C58"));
         Executed (launch_command
                     (lit "9ABF9F72-7AAF-5C9E-BDD3-0A781FD70C58")
                     (lit "/private/var/containers/Bundle/Application/com.example.app/MyGame.app")) ]
  /\ snd (perform w 0 (main o)) = inr 0%Z.
Proof.
  intros w o.
  apply (single_choice_run
           o w 0
           (sample_header ++ [newline] ++ sample_separator ++ [newline]
            ++ sample_row)
           sample_process
           (row_record sample_header sample_row)
           {| bundleId := lit "com.example.app";
              displayName := Some (lit "MyGame.app");
              pid := Some (lit "123");
              fullPath :=
                Some (lit "/private/var/containers/Bundle/Application/com.example.app/MyGame.app") |});
    try discriminate; vm_compute; reflexivity.
Defined.

End WorldRuns.
